(** * Groupie Tracker: the match cache and query layer of package [controller]

    A shallow embedding of [src/groupietracker/main.go] (package
    [controller]): the favourites cookie, the normaliser, the query
    pipeline (filter, paginate, lookup by title) and the match cache.

    Conventions.
    - A Go [string] is a byte string; it is modelled by [string], whose
      characters are bytes.  The functions of Go's [strings] package that
      work on bytes ([Split], [SplitN], [Join], [Contains]) are written out.
      Those that read the string as UTF-8 text ([ToLower], [TrimSpace],
      [Fields], [EqualFold], [Title]) are taken from the library: they are
      the operations of [strings.Unicode], and the program is embedded over
      an arbitrary [U : strings.Unicode].  A theorem that has [U] among its
      arguments holds for whatever these functions compute; a fact about
      them that its proof needs is a hypothesis of the theorem.  [asciiText]
      gives the five functions as they are on ASCII text; the examples run
      on it, and a statement that names no [U] is about [asciiText].
    - A Go [int] is a 64-bit two's-complement integer, modelled by [Z] with
      the wrap-around written out ([Int.wrap]).
    - [map[string]bool] is a [gmap string bool].
    - The cache lives in a store of arrays; a slice is a pointer into it. *)

From Stdlib Require Import ZArith Ascii String List Lia Bool DecimalString DecimalN.
From stdpp Require Import base tactics option list sorting gmap strings fin_maps.

Local Open Scope Z_scope.

(** ** Go's [strings] package *)

Module strings.

(** [strings.Cut] for a one-byte separator: the text before and after its
    first occurrence. *)
Fixpoint Cut (s : string) (sep : ascii) : option (string * string) :=
  match s with
  | EmptyString => None
  | String a s' =>
      if Ascii.eqb a sep then Some (EmptyString, s')
      else match Cut s' sep with
           | Some (before, after) => Some (String a before, after)
           | None => None
           end
  end.

(** [strings.SplitN] for a one-byte separator and [n >= 0]: at most [n]
    pieces, the last one holding the unsplit remainder. *)
Fixpoint SplitN (s : string) (sep : ascii) (n : nat) : list string :=
  match n with
  | O => []
  | S O => [s]
  | S n' =>
      match Cut s sep with
      | None => [s]
      | Some (before, after) => before :: SplitN after sep n'
      end
  end.

(** [strings.Split]: [genSplit] with [n = Count(s, sep) + 1]; any bound from
    [len(s) + 1] on gives the same pieces. *)
Definition Split (s : string) (sep : ascii) : list string :=
  SplitN s sep (S (String.length s)).

(** [strings.Join] *)
Definition Join (elems : list string) (sep : string) : string :=
  String.concat sep elems.

(** [strings.Contains] *)
Fixpoint Contains (s substr : string) : bool :=
  String.prefix substr s ||
  match s with
  | EmptyString => false
  | String _ s' => Contains s' substr
  end.

(** The functions of the package that decode their argument as UTF-8 and
    consult the Unicode tables of the Go release: [strings.ToLower],
    [strings.TrimSpace], [strings.Fields], [strings.EqualFold] and
    [strings.Title].  The program calls them; what they compute is the
    library's business. *)
Class Unicode := {
  ToLower : string -> string;
  TrimSpace : string -> string;
  Fields : string -> list string;
  EqualFold : string -> string -> bool;
  Title : string -> string
}.

End strings.

(** ** The text functions on ASCII

    On a string whose bytes are all below 128 the five functions work byte
    by byte: [ToLower] and [EqualFold] fold [A-Z], [TrimSpace] and [Fields]
    know the six white-space bytes of the table [asciiSpace], [Title] puts
    the first letter of a word in upper case. *)

Module ASCII.

Definition isUpper (a : ascii) : bool :=
  let n := N_of_ascii a in (65 <=? n)%N && (n <=? 90)%N.

Definition toLowerByte (a : ascii) : ascii :=
  if isUpper a then ascii_of_N (N_of_ascii a + 32) else a.

Fixpoint ToLower (s : string) : string :=
  match s with
  | EmptyString => EmptyString
  | String a s' => String (toLowerByte a) (ToLower s')
  end.

(** The table [asciiSpace] of the Go runtime: tab, line feed, vertical tab,
    form feed, carriage return, space. *)
Definition isSpace (a : ascii) : bool :=
  match N_of_ascii a with
  | 9%N | 10%N | 11%N | 12%N | 13%N | 32%N => true
  | _ => false
  end.

Fixpoint trimLeft (s : string) : string :=
  match s with
  | EmptyString => EmptyString
  | String a s' => if isSpace a then trimLeft s' else s
  end.

Fixpoint trimRight (s : string) : string :=
  match s with
  | EmptyString => EmptyString
  | String a s' =>
      match trimRight s' with
      | EmptyString => if isSpace a then EmptyString else String a EmptyString
      | r => String a r
      end
  end.

(** The white space is cut on the left, then on the right. *)
Definition TrimSpace (s : string) : string := trimRight (trimLeft s).

(** The maximal runs of bytes that are not white space. *)
Fixpoint Fields (s : string) : list string :=
  match s with
  | EmptyString => []
  | String a s' =>
      if isSpace a then Fields s'
      else match s' with
           | EmptyString => [String a EmptyString]
           | String b _ =>
               if isSpace b then String a EmptyString :: Fields s'
               else match Fields s' with
                    | w :: ws => String a w :: ws
                    | [] => [String a EmptyString]
                    end
           end
  end.

(** Equality up to the case of the letters. *)
Fixpoint EqualFold (s t : string) : bool :=
  match s, t with
  | EmptyString, EmptyString => true
  | String a s', String b t' =>
      Ascii.eqb (toLowerByte a) (toLowerByte b) && EqualFold s' t'
  | _, _ => false
  end.

(** A word starts after a byte that is not a letter, a digit or an
    underscore. *)
Definition isSeparator (a : ascii) : bool :=
  let n := N_of_ascii a in
  negb (((48 <=? n)%N && (n <=? 57)%N) || ((97 <=? n)%N && (n <=? 122)%N)
        || ((65 <=? n)%N && (n <=? 90)%N) || (n =? 95)%N).

Definition toTitleByte (a : ascii) : ascii :=
  let n := N_of_ascii a in
  if (97 <=? n)%N && (n <=? 122)%N then ascii_of_N (n - 32) else a.

Fixpoint titleFrom (prev : ascii) (s : string) : string :=
  match s with
  | EmptyString => EmptyString
  | String a s' =>
      String (if isSeparator prev then toTitleByte a else a) (titleFrom a s')
  end.

Definition Title (s : string) : string := titleFrom " " s.

(** The bytes of a string are all below 128. *)
Fixpoint only (s : string) : bool :=
  match s with
  | EmptyString => true
  | String a s' => (N_of_ascii a <? 128)%N && only s'
  end.

End ASCII.

(** ** Go's [int] *)

Module Int.

Definition max_int : Z := 2 ^ 63 - 1.
Definition min_int : Z := - 2 ^ 63.

Definition wrap (z : Z) : Z := (z + 2 ^ 63) mod 2 ^ 64 - 2 ^ 63.

Definition add (a b : Z) : Z := wrap (a + b).
Definition sub (a b : Z) : Z := wrap (a - b).
Definition mul (a b : Z) : Z := wrap (a * b).
(** The quotient truncates towards zero. *)
Definition div (a b : Z) : Z := wrap (Z.quot a b).

End Int.

(** ** [sort.Slice]

    The insertion sort that [sort.Slice] runs on slices of at most twelve
    elements: each element moves left while it is [less] than its left
    neighbour.  The sorted prefix is kept with its last element first.  On
    longer slices Go switches to pattern-defeating quicksort, which yields the
    same order up to the placement of elements that [less] does not
    separate. *)

Section Sort.
Context {A : Type} (less : A -> A -> bool).

Fixpoint insertBack (x : A) (r : list A) : list A :=
  match r with
  | [] => [x]
  | y :: r' => if less x y then y :: insertBack x r' else x :: r
  end.

Definition sortSlice (l : list A) : list A :=
  rev (fold_left (fun r x => insertBack x r) l []).
End Sort.

(** [sort.Strings]: ascending in the byte order of Go's [<] on strings. *)
Definition sortStrings (l : list string) : list string :=
  sortSlice String.ltb l.

(** ** The data model *)

Record Video := mkVideo { VideoTitle : string; Embed : string }.

Record Match := mkMatch {
  Title : string;
  Competition : string;
  MatchviewURL : string;
  Thumbnail : string;
  DateRaw : string;
  Videos : list Video;
  PrettyDate : string;
  EmbedHTML : string;
  IsFavorite : bool;
  Category : string
}.

Definition set_PrettyDate (d : string) (m : Match) : Match :=
  mkMatch (Title m) (Competition m) (MatchviewURL m) (Thumbnail m) (DateRaw m)
          (Videos m) d (EmbedHTML m) (IsFavorite m) (Category m).

Definition set_Category (c : string) (m : Match) : Match :=
  mkMatch (Title m) (Competition m) (MatchviewURL m) (Thumbnail m) (DateRaw m)
          (Videos m) (PrettyDate m) (EmbedHTML m) (IsFavorite m) c.

Definition set_IsFavorite (b : bool) (m : Match) : Match :=
  mkMatch (Title m) (Competition m) (MatchviewURL m) (Thumbnail m) (DateRaw m)
          (Videos m) (PrettyDate m) (EmbedHTML m) b (Category m).

Definition pageSize : Z := 9.
(** [2 * time.Minute], in nanoseconds. *)
Definition cacheTTL : Z := 2 * 60 * 1000000000.

(** ** The normaliser *)

Section Normalizer.
Context {U : strings.Unicode}.
(** [time.Parse(time.RFC3339, raw)] followed by [Format]: the display date
    when [raw] parses, nothing when it does not. *)
Variable formatRFC3339 : string -> option string.

(** The body of the loop of [normalizeMatches]. *)
Definition normalizeMatch (m : Match) : Match :=
  let m1 :=
    match formatRFC3339 (DateRaw m) with
    | Some d => set_PrettyDate d m
    | None => set_PrettyDate (DateRaw m) m
    end in
  let parts := strings.SplitN (Competition m1) ":"%char 2 in
  match parts with
  | p0 :: _ => set_Category (strings.TrimSpace (strings.ToLower p0)) m1
  | [] => m1
  end.

(** [matches[i].DateRaw > matches[j].DateRaw] *)
Definition dateAfter (a b : Match) : bool := String.ltb (DateRaw b) (DateRaw a).

Definition normalizeMatches (matches : list Match) : list Match :=
  sortSlice dateAfter (map normalizeMatch matches).
End Normalizer.


(** ** The favourites cookie *)

Definition cookieName : string := "favorites".

(** [favs[title]] on a [map[string]bool]: [false] for a missing key. *)
Definition mapIndex (favs : gmap string bool) (title : string) : bool :=
  default false (favs !! title).

(** The body of the loop of [getFavorites]. *)
Definition addSegment {U : strings.Unicode} (favs : gmap string bool) (title : string)
  : gmap string bool :=
  let title := strings.TrimSpace title in
  if decide (title = "") then favs else <[title := true]> favs.

(** [getFavorites]; the argument is the value of the [favorites] cookie of the
    request, [None] when [r.Cookie] fails because there is none. *)
Definition getFavorites {U : strings.Unicode} (cookie : option string) : gmap string bool :=
  match cookie with
  | None => ∅
  | Some value => fold_left addSegment (strings.Split value "|"%char) ∅
  end.

(** The toggle of [ToggleFavoriteHandler]. *)
Definition toggle (favs : gmap string bool) (title : string) : gmap string bool :=
  if mapIndex favs title then delete title favs else <[title := true]> favs.

Record Cookie := mkCookie {
  Name : string;
  Value : string;
  Path : string;
  MaxAge : Z;
  HttpOnly : bool
}.

(** The cookie that [saveFavorites] hands to [http.SetCookie], from the
    titles in the order in which [for title := range favs] delivered them.
    Go leaves that order unspecified. *)
Definition favoritesCookie (titles : list string) : Cookie :=
  mkCookie cookieName (strings.Join (sortStrings titles) "|") "/"
           (30 * 24 * 3600) true.

(** One iteration order of the map. *)
Definition rangeKeys (favs : gmap string bool) : list string :=
  (map_to_list favs).*1.

Definition saveFavorites (favs : gmap string bool) : Cookie :=
  favoritesCookie (rangeKeys favs).

(** What [ToggleFavoriteHandler] answers: [ToggleBadRequest msg] is the call
    [http.Error(w, msg, 400)]; [ToggleSeeOther location c] stands for the
    calls [http.SetCookie(w, c)] and [http.Redirect(w, r, location, 303)],
    with the arguments as the handler passes them. *)
Inductive ToggleResponse :=
| ToggleBadRequest (msg : string)
| ToggleSeeOther (location : string) (setCookie : Cookie).

(** [ToggleFavoriteHandler], from the query parameters [title] and [redirect]
    and the cookie of the request. *)
Definition ToggleFavoriteHandler {U : strings.Unicode} (titleParam redirectParam : string)
    (cookie : option string) : ToggleResponse :=
  let title := strings.TrimSpace titleParam in
  if decide (title = "") then ToggleBadRequest "title manquant"
  else
    let favs := toggle (getFavorites cookie) title in
    let redirect := if decide (redirectParam = "") then "/favorites" else redirectParam in
    ToggleSeeOther redirect (saveFavorites favs).

(** *** From [http.SetCookie] to the next request

    [validCookieValueByte] of [net/http]: the bytes from the space to the
    tilde, without the double quote, the semicolon and the backslash. *)
Definition validCookieValueByte (a : ascii) : bool :=
  let n := N_of_ascii a in
  (32 <=? n)%N && (n <? 127)%N
  && negb (n =? 34)%N && negb (n =? 59)%N && negb (n =? 92)%N.

(** [sanitizeCookieValue]: [http.SetCookie] drops the bytes that are not
    valid.  (It also puts quotes around a value with a space or a comma;
    [r.Cookie] takes them off again.) *)
Fixpoint sanitizeCookieValue (v : string) : string :=
  match v with
  | EmptyString => EmptyString
  | String a v' =>
      if validCookieValueByte a then String a (sanitizeCookieValue v')
      else sanitizeCookieValue v'
  end.

(** What [r.Cookie] reports on the next request of a client that has stored
    the cookie. *)
Definition sentBack (c : Cookie) : option string :=
  Some (sanitizeCookieValue (Value c)).

(** A value that [http.SetCookie] sends as it is. *)
Fixpoint cookieSafe (v : string) : bool :=
  match v with
  | EmptyString => true
  | String a v' => validCookieValueByte a && cookieSafe v'
  end.

(** ** The query pipeline *)

(** The body of the loop of [filterMatches]: [false] on [continue]. *)
Definition keeps {U : strings.Unicode} (q c : string) (m : Match) : bool :=
  if negb (String.eqb q "")
     && (negb (strings.Contains (strings.ToLower (Title m)) q)
         && negb (strings.Contains (strings.ToLower (Competition m)) q))
  then false
  else if negb (String.eqb c "") && negb (String.eqb (Category m) "")
          && negb (strings.Contains (Category m) c)
  then false
  else true.

Definition filterMatches {U : strings.Unicode} (matches : list Match)
    (query category : string) : list Match :=
  if String.eqb query "" && String.eqb category "" then matches
  else
    let q := strings.ToLower query in
    let c := strings.ToLower category in
    fold_left (fun filtered m => if keeps q c m then filtered ++ [m] else filtered)
              matches [].

(** [s[lo:hi]]; [None] is the run-time panic on bounds out of range.  The
    upper bound of Go is the capacity; [paginate] never passes more than the
    length. *)
Definition slice {A} (s : list A) (lo hi : Z) : option (list A) :=
  if (0 <=? lo) && (lo <=? hi) && (hi <=? Z.of_nat (length s))
  then Some (take (Z.to_nat (hi - lo)) (drop (Z.to_nat lo) s))
  else None.

Definition paginate (matches : list Match) (page size : Z)
  : option (list Match * Z * Z * Z) :=
  let size := if size <=? 0 then pageSize else size in
  let n := Z.of_nat (length matches) in
  let totalPages := Int.div (Int.sub (Int.add n size) 1) size in
  let totalPages := if totalPages =? 0 then 1 else totalPages in
  let page := if page <? 1 then 1 else page in
  let page := if page >? totalPages then totalPages else page in
  let start := Int.mul (Int.sub page 1) size in
  let end_ := Int.add start size in
  let start := if start >? n then n else start in
  let end_ := if end_ >? n then n else end_ in
  match slice matches start end_ with
  | None => None
  | Some paged =>
      let prev := if page >? 1 then Int.sub page 1 else 0 in
      let next := if page <? totalPages then Int.add page 1 else 0 in
      Some (paged, totalPages, prev, next)
  end.

(** The normalised comparison of the detail view. *)
Definition sameTitleFolded {U : strings.Unicode} (a b : string) : bool :=
  strings.EqualFold (strings.Join (strings.Fields a) " ")
                    (strings.Join (strings.Fields b) " ").

(** The search loop of [DetailHandler]: the index and the record at which the
    loop breaks, [None] when it runs to the end ([foundMatch == nil]). *)
Fixpoint findFrom {U : strings.Unicode} (i : nat) (matches : list Match) (title : string)
  : option (nat * Match) :=
  match matches with
  | [] => None
  | m :: rest =>
      if String.eqb (Title m) title then Some (i, m)
      else if sameTitleFolded (Title m) title then Some (i, m)
      else findFrom (S i) rest title
  end.

Definition findMatch {U : strings.Unicode} (matches : list Match) (title : string)
  : option (nat * Match) :=
  findFrom 0 matches title.

Inductive DetailResponse :=
| DetailNotFound
| DetailRender (m : Match).

Definition set_EmbedHTML (e : string) (m : Match) : Match :=
  mkMatch (Title m) (Competition m) (MatchviewURL m) (Thumbnail m) (DateRaw m)
          (Videos m) (PrettyDate m) e (IsFavorite m) (Category m).

Definition noVideoHTML : string :=
  let quote := String (ascii_of_nat 34) EmptyString in
  "<p style=" +:+ quote +:+ "padding: 20px; text-align: center; color: #666;"
  +:+ quote +:+ ">Aucune vidéo disponible pour ce match.</p>".

(** [DetailHandler] once the title is decoded and the records are loaded. *)
Definition detail {U : strings.Unicode} (matches : list Match) (title : string) : DetailResponse :=
  match findMatch matches title with
  | None => DetailNotFound
  | Some (_, m) =>
      match Videos m with
      | v :: _ => DetailRender (set_EmbedHTML (Embed v) m)
      | [] => DetailRender (set_EmbedHTML noVideoHTML m)
      end
  end.

(** ** The store and the match cache *)

(** A slice of [Match]: the address of its backing array and its length.  The
    [nil] slice points at address 0, where no array is ever allocated. *)
Record Slice := mkSlice { ptr : nat; len : nat }.

Definition nilSlice : Slice := mkSlice 0 0.

Definition zeroMatch : Match :=
  mkMatch "" "" "" "" "" [] "" "" false "".

(** What [httpClient.Get] followed by [json.Decode] delivers. *)
Inductive Upstream :=
| GetError (msg : string)
| DecodeError (msg : string)
| Decoded (response : list Match).

Inductive error :=
| UpstreamUnreachable (msg : string)
| UpstreamMalformed (msg : string).

(** The package-level state [cachedAt], [cachedMatch], the arrays of the
    program ([brk] is the next free address), and a count of the calls of
    [httpClient.Get]. *)
Record World := mkWorld {
  heap : gmap nat (list Match);
  brk : nat;
  cachedAt : Z;
  cachedMatch : Slice;
  upstreamCalls : nat
}.

(** Instants are nanoseconds since the Unix epoch; the zero [time.Time] is
    the first of January of year 1. *)
Definition zeroTime : Z := -62135596800 * 1000000000.

Definition initWorld : World := mkWorld ∅ 1 zeroTime nilSlice 0.

(** [Time.Sub] saturates at the ends of [Duration]. *)
Definition saturate (d : Z) : Z :=
  if d <? Int.min_int then Int.min_int
  else if d >? Int.max_int then Int.max_int else d.

(** [time.Since(t)] when the clock reads [now]. *)
Definition Since (now t : Z) : Z := saturate (now - t).

Definition set_heap (h : gmap nat (list Match)) (w : World) : World :=
  mkWorld h (brk w) (cachedAt w) (cachedMatch w) (upstreamCalls w).

(** The elements of a slice. *)
Definition read (h : gmap nat (list Match)) (s : Slice) : list Match :=
  take (len s) (default [] (h !! ptr s)).

(** [make([]Match, n)] *)
Definition make (n : nat) (w : World) : Slice * World :=
  (mkSlice (brk w) n,
   mkWorld (<[brk w := replicate n zeroMatch]> (heap w)) (S (brk w))
           (cachedAt w) (cachedMatch w) (upstreamCalls w)).

(** [copy(dst, src)] *)
Definition copy (dst src : Slice) (w : World) : World :=
  let data := take (Nat.min (len dst) (len src)) (read (heap w) src) in
  set_heap (alter (fun arr => data ++ drop (length data) arr) (ptr dst) (heap w)) w.

(** [cloneMatches]: the records are copied by value into a new array.  The
    [Videos] of a record keep their backing array; no function of the package
    writes into it. *)
Definition cloneMatches (src : Slice) (w : World) : Slice * World :=
  let '(out, w1) := make (len src) w in
  (out, copy out src w1).

(** The array that the JSON decoder allocates for [apiResp.Response]. *)
Definition decodeInto (response : list Match) (w : World) : Slice * World :=
  (mkSlice (brk w) (length response),
   mkWorld (<[brk w := response]> (heap w)) (S (brk w))
           (cachedAt w) (cachedMatch w) (upstreamCalls w)).

Definition countCall (w : World) : World :=
  mkWorld (heap w) (brk w) (cachedAt w) (cachedMatch w) (S (upstreamCalls w)).

Section Cache.
Context {U : strings.Unicode}.
Variable formatRFC3339 : string -> option string.

(** [normalizeMatches] on a slice: the array is rewritten in place. *)
Definition normalizeInPlace (s : Slice) (w : World) : World :=
  set_heap (alter (fun arr => normalizeMatches formatRFC3339 (take (len s) arr)
                              ++ drop (len s) arr) (ptr s) (heap w)) w.

(** The test at the head of [fetchMatches]. *)
Definition isFresh (now : Z) (w : World) : bool :=
  (Since now (cachedAt w) <? cacheTTL) && (0 <? len (cachedMatch w))%nat.

(** [fetchMatches] from the answer of the provider on: [now] is what
    [time.Now()] reads when the snapshot is stored. *)
Definition refresh (up : Upstream) (now : Z) (w : World) : (error + Slice) * World :=
  match up with
  | GetError msg => (inl (UpstreamUnreachable msg), w)
  | DecodeError msg => (inl (UpstreamMalformed msg), w)
  | Decoded response =>
      let '(resp, w1) := decodeInto response w in
      let w2 := normalizeInPlace resp w1 in
      let w3 := mkWorld (heap w2) (brk w2) now resp (upstreamCalls w2) in
      let '(out, w4) := cloneMatches (cachedMatch w3) w3 in
      (inr out, w4)
  end.

(** What one call of [fetchMatches] meets: the clock at the freshness test,
    the provider, the clock when the snapshot is stored. *)
Record Env := mkEnv { nowCheck : Z; upstream : Upstream; nowStore : Z }.

Definition fetchMatches (env : Env) (w : World) : (error + Slice) * World :=
  if isFresh (nowCheck env) w then
    let '(out, w1) := cloneMatches (cachedMatch w) w in (inr out, w1)
  else refresh (upstream env) (nowStore env) (countCall w).

(** [matches[i].IsFavorite = favs[matches[i].Title]] *)
Definition annotateAt (favs : gmap string bool) (s : Slice) (w : World) (i : nat) : World :=
  set_heap (alter (alter (fun m => set_IsFavorite (mapIndex favs (Title m)) m) i)
                  (ptr s) (heap w)) w.

Definition loadMatchesWithFavorites (cookie : option string) (env : Env) (w : World)
  : (error + Slice) * World :=
  match fetchMatches env w with
  | (inl err, w1) => (inl err, w1)
  | (inr matches, w1) =>
      let favs := getFavorites cookie in
      (inr matches, fold_left (annotateAt favs matches) (seq 0 (len matches)) w1)
  end.

(** Calls of [fetchMatches] one after the other. *)
Fixpoint fetchAll (envs : list Env) (w : World) : list (error + Slice) * World :=
  match envs with
  | [] => ([], w)
  | env :: rest =>
      let '(r, w1) := fetchMatches env w in
      let '(rs, w2) := fetchAll rest w1 in
      (r :: rs, w2)
  end.

(** *** Callers that run at the same time

    Each caller of [fetchMatches] is a thread; [cacheMu] is taken on entry
    and released by the deferred [Unlock] on return.  A thread waits for the
    lock, holds it before the freshness test, holds it while its call of the
    provider is in flight, and is done with its result. *)
Inductive Pc :=
| Waiting
| Locked
| InFlight
| Done (r : error + Slice).

(** [cacheMu] is [None] when the mutex is free and names the thread that
    holds it otherwise. *)
Record Sys := mkSys { world : World; cacheMu : option nat; pcs : list Pc }.

Inductive Event :=
| Lock (i : nat)
| Check (i : nat) (now : Z)
| Respond (i : nat) (up : Upstream) (now : Z).

Definition step (ev : Event) (s : Sys) : option Sys :=
  match ev with
  | Lock i =>
      match pcs s !! i with
      | Some Waiting =>
          match cacheMu s with
          | Some _ => None
          | None => Some (mkSys (world s) (Some i) (<[i := Locked]> (pcs s)))
          end
      | _ => None
      end
  | Check i now =>
      match pcs s !! i with
      | Some Locked =>
          if isFresh now (world s) then
            let '(out, w1) := cloneMatches (cachedMatch (world s)) (world s) in
            Some (mkSys w1 None (<[i := Done (inr out)]> (pcs s)))
          else Some (mkSys (countCall (world s)) (cacheMu s) (<[i := InFlight]> (pcs s)))
      | _ => None
      end
  | Respond i up now =>
      match pcs s !! i with
      | Some InFlight =>
          let '(r, w1) := refresh up now (world s) in
          Some (mkSys w1 None (<[i := Done r]> (pcs s)))
      | _ => None
      end
  end.

Fixpoint exec (evs : list Event) (s : Sys) : option Sys :=
  match evs with
  | [] => Some s
  | ev :: rest =>
      match step ev s with
      | Some s1 => exec rest s1
      | None => None
      end
  end.

End Cache.

(** [n] callers about to enter [fetchMatches]. *)
Definition start (n : nat) (w : World) : Sys := mkSys w None (replicate n Waiting).

(** A thread between [cacheMu.Lock()] and the deferred [Unlock]. *)
Definition holdsLock (p : Pc) : bool :=
  match p with Locked | InFlight => true | _ => false end.

Definition isDone (p : Pc) : bool :=
  match p with Done _ => true | _ => false end.

(** ** The rest of the package: page numbers, labels, requests and handlers *)

(** Go's [strconv.Atoi] on byte strings: an optional sign, then one or more
    decimal digits; [None] is the error (a syntax error, or a value outside
    [int]). *)
Module strconv.

Definition digit (a : ascii) : option Z :=
  let n := N_of_ascii a in
  if (48 <=? n)%N && (n <=? 57)%N then Some (Z.of_N n - 48) else None.

(** The loop [n = n*10 + int(ch - '0')]. *)
Fixpoint digits (acc : Z) (s : string) : option Z :=
  match s with
  | EmptyString => Some acc
  | String a s' =>
      match digit a with
      | Some d => digits (acc * 10 + d) s'
      | None => None
      end
  end.

Definition unsigned (s : string) : option Z :=
  match s with
  | EmptyString => None
  | _ => digits 0 s
  end.

Definition Atoi (s : string) : option Z :=
  let signed :=
    match s with
    | String "-" rest => option_map Z.opp (unsigned rest)
    | String "+" rest => unsigned rest
    | _ => unsigned s
    end in
  match signed with
  | Some n => if (Int.min_int <=? n) && (n <=? Int.max_int) then Some n else None
  | None => None
  end.

End strconv.

(** Go's [url.QueryUnescape] on byte strings: [%XX] becomes the byte [XX],
    [+] becomes a space; [None] is the [EscapeError] for a [%] that is not
    followed by two hexadecimal digits. *)
Module url.

Definition unhex (a : ascii) : option N :=
  let n := N_of_ascii a in
  if (48 <=? n)%N && (n <=? 57)%N then Some (n - 48)%N
  else if (97 <=? n)%N && (n <=? 102)%N then Some (n - 97 + 10)%N
  else if (65 <=? n)%N && (n <=? 70)%N then Some (n - 65 + 10)%N
  else None.

Fixpoint QueryUnescape (s : string) : option string :=
  match s with
  | EmptyString => Some EmptyString
  | String "%" rest =>
      match rest with
      | String h1 (String h2 rest') =>
          match unhex h1, unhex h2, QueryUnescape rest' with
          | Some x, Some y, Some t => Some (String (ascii_of_N (x * 16 + y)) t)
          | _, _, _ => None
          end
      | _ => None
      end
  | String "+" rest => option_map (String " ") (QueryUnescape rest)
  | String a rest => option_map (String a) (QueryUnescape rest)
  end.

End url.

Definition categoryLabel {U : strings.Unicode} (raw : string) : string :=
  if String.eqb raw "" then "" else strings.Title (strings.ToLower raw).

Definition parsePage (raw : string) : Z :=
  if String.eqb raw "" then 1
  else match strconv.Atoi raw with
       | None => 1
       | Some p => if p <? 1 then 1 else p
       end.

(** What a handler reads of a request: [r.URL.Query().Get], which gives the
    empty string for a missing parameter, and the value of the [favorites]
    cookie. *)
Record Request := mkRequest { param : string -> string; favCookie : option string }.

(** [r.URL.RawQuery = url.Values{...}.Encode()]: from then on
    [r.URL.Query().Get] reads the given pairs and nothing else. *)
Definition setQuery (values : list (string * string)) (r : Request) : Request :=
  mkRequest (fun key => match List.find (fun kv => String.eqb (fst kv) key) values with
                        | Some kv => snd kv
                        | None => EmptyString
                        end)
            (favCookie r).

Module listPageData.
Record t := mk {
  Title : string;
  Matches : list Match;
  Query : string;
  Category : string;
  CategoryName : string;
  CurrentPage : Z;
  TotalPages : Z;
  PrevPage : Z;
  NextPage : Z
}.
End listPageData.

Inductive PageData :=
| ListData (d : listPageData.t)
| DetailData (m : Match)
| AboutData (title : string).

(** What a handler answers: [Render name data] is the call
    [render(w, name, data)], [ServerError] the call of [serverError],
    [BadRequest] and [NotFound] the calls of [http.Error] with status 400 and
    of [http.NotFound], [SeeOther] the redirect with status 303, and [Panic]
    a run-time panic of the handler. *)
Inductive Response :=
| Render (template : string) (data : PageData)
| ServerError
| BadRequest (msg : string)
| NotFound
| SeeOther (location : string)
| Panic.

Definition quoted (s : string) : string :=
  String (ascii_of_nat 34) (s +:+ String (ascii_of_nat 34) EmptyString).

Section Handlers.
Context {U : strings.Unicode}.
Variable formatRFC3339 : string -> option string.

Definition HomeHandler (r : Request) (env : Env) (w : World) : Response * World :=
  match loadMatchesWithFavorites formatRFC3339 (favCookie r) env w with
  | (inl _, w1) => (ServerError, w1)
  | (inr matches, w1) =>
      let all := read (heap w1) matches in
      let shown := if (6 <? length all)%nat then take 6 all else all in
      (Render "home.html"
         (ListData (listPageData.mk "Dernières vidéos" shown "" "" "" 0 0 0 0)),
       w1)
  end.

Definition CollectionHandler (r : Request) (env : Env) (w : World) : Response * World :=
  let query := strings.TrimSpace (param r "q") in
  let category := strings.TrimSpace (param r "category") in
  let page := parsePage (param r "page") in
  match loadMatchesWithFavorites formatRFC3339 (favCookie r) env w with
  | (inl _, w1) => (ServerError, w1)
  | (inr matches, w1) =>
      let filtered := filterMatches (read (heap w1) matches) query category in
      match paginate filtered page pageSize with
      | None => (Panic, w1)
      | Some (paged, totalPages, prev, next) =>
          let title :=
            if negb (String.eqb query "") then "Résultats pour " +:+ quoted query
            else if negb (String.eqb category "")
                 then "Catégorie : " +:+ categoryLabel category
                 else "Toutes les ressources" in
          (Render "collection.html"
             (ListData (listPageData.mk title paged query category
                          (categoryLabel category) page totalPages prev next)),
           w1)
      end
  end.

Definition CategoryHandler (r : Request) (env : Env) (w : World) : Response * World :=
  let category := strings.TrimSpace (param r "category") in
  if String.eqb category "" then (SeeOther "/matches", w)
  else CollectionHandler (setQuery [("category", category)] r) env w.

Definition SearchResultsHandler (r : Request) (env : Env) (w : World) : Response * World :=
  let query := strings.TrimSpace (param r "q") in
  if String.eqb query "" then (SeeOther "/matches", w)
  else CollectionHandler (setQuery [("q", query); ("page", param r "page")] r) env w.

Definition FavoritesPageHandler (r : Request) (env : Env) (w : World) : Response * World :=
  match loadMatchesWithFavorites formatRFC3339 (favCookie r) env w with
  | (inl _, w1) => (ServerError, w1)
  | (inr matches, w1) =>
      let favMatches :=
        fold_left (fun favMatches m => if IsFavorite m then favMatches ++ [m] else favMatches)
                  (read (heap w1) matches) [] in
      (Render "favorites.html"
         (ListData (listPageData.mk "Mes Favoris" favMatches "" "" "" 0 0 0 0)),
       w1)
  end.

(** The title that [DetailHandler] looks up. *)
Definition detailTitle (titleRaw : string) : string :=
  match url.QueryUnescape titleRaw with
  | Some title => strings.TrimSpace title
  | None => strings.TrimSpace titleRaw
  end.

(** [DetailHandler]; the embed is written into the element of the request's
    own slice that [foundMatch] points at. *)
Definition DetailHandler (r : Request) (env : Env) (w : World) : Response * World :=
  let titleRaw := param r "title" in
  if String.eqb titleRaw "" then (BadRequest "title manquant", w)
  else
    let title := detailTitle titleRaw in
    match loadMatchesWithFavorites formatRFC3339 (favCookie r) env w with
    | (inl _, w1) => (ServerError, w1)
    | (inr matches, w1) =>
        match findMatch (read (heap w1) matches) title with
        | None => (NotFound, w1)
        | Some (i, m) =>
            let embed := match Videos m with
                         | v :: _ => Embed v
                         | [] => noVideoHTML
                         end in
            (Render "detail.html" (DetailData (set_EmbedHTML embed m)),
             set_heap (alter (alter (set_EmbedHTML embed) i) (ptr matches) (heap w1)) w1)
        end
    end.

Definition AboutHandler : Response := Render "about.html" (AboutData "À propos").

End Handlers.

(** ** Notions used in the statements *)

(** A string that is empty or starts with a byte that is not white space. *)
Definition headNonSpace (s : string) : Prop :=
  match s with
  | EmptyString => True
  | String a _ => ASCII.isSpace a = false
  end.

(** The invariant of a Favorite Set: every key is a non-empty title that
    [TrimSpace] leaves alone, and every stored value is [true]. *)
Definition cleanTitles {U : strings.Unicode} (favs : gmap string bool) : Prop :=
  forall t b, favs !! t = Some b -> t <> "" /\ strings.TrimSpace t = t /\ b = true.

(** The least integer not below [n / d]. *)
Definition ceilDiv (n d : Z) : Z := - ((- n) / d).

(** The page that [paginate] serves when asked for [page] out of
    [totalPages]. *)
Definition effectivePage (page totalPages : Z) : Z := Z.max 1 (Z.min page totalPages).

(** [x] occurs in [s] when the case of the letters is ignored. *)
Definition containsFold {U : strings.Unicode} (s x : string) : bool :=
  strings.Contains (strings.ToLower s) (strings.ToLower x).

Definition textMatches {U : strings.Unicode} (x : string) (m : Match) : bool :=
  containsFold (Title m) x || containsFold (Competition m) x.

(** The filter in the words of the specification: an empty filter string
    passes everything, the text filter looks in the title or the competition,
    the category filter looks in the category, and the two compose with AND. *)
Definition passesAsSpecified {U : strings.Unicode} (x y : string) (m : Match) : bool :=
  (String.eqb x "" || textMatches x m)
  && (String.eqb y "" || containsFold (Category m) y).

(** The filter of the code: a record without category passes the category
    filter. *)
Definition passes {U : strings.Unicode} (x y : string) (m : Match) : bool :=
  (String.eqb x "" || textMatches x m)
  && (String.eqb y "" || String.eqb (Category m) "" || containsFold (Category m) y).

(** A category in lower case, as [normalizeMatches] derives it. *)
Definition lowerCategory {U : strings.Unicode} (m : Match) : Prop :=
  strings.ToLower (Category m) = Category m.

(** A record answers a requested title when its title is equal to it or equal
    up to case and runs of white space. *)
Definition titleMatches {U : strings.Unicode} (title : string) (m : Match) : bool :=
  String.eqb (Title m) title || sameTitleFolded (Title m) title.

(** Lookup by title in the words of the specification: exact equality over
    the whole list first, the normalised comparison only when no record is
    equal. *)
Definition lookupExactFirst {U : strings.Unicode} (matches : list Match) (title : string)
  : option Match :=
  match List.find (fun m => String.eqb (Title m) title) matches with
  | Some m => Some m
  | None => List.find (fun m => sameTitleFolded (Title m) title) matches
  end.

(** Every stored value is [true], as in every map that [getFavorites]
    builds. *)
Definition allTrue (favs : gmap string bool) : Prop :=
  forall t b, favs !! t = Some b -> b = true.

(** A title without the delimiter of the cookie. *)
Definition barFree (t : string) : Prop := strings.Contains t "|" = false.

(** The cookie value that a cookie value turns into when it is decoded and
    encoded again. *)
Definition reencode {U : strings.Unicode} (value : string) : string :=
  Value (saveFavorites (getFavorites (Some value))).

(** A world in which the cached slice lies within an allocated array and
    nothing is allocated from [brk] on. *)
Definition wf (w : World) : Prop :=
  (ptr (cachedMatch w) < brk w)%nat
  /\ length (read (heap w) (cachedMatch w)) = len (cachedMatch w)
  /\ forall a, (brk w <= a)%nat -> heap w !! a = None.

(** The favourite flag that [loadMatchesWithFavorites] writes. *)
Definition annotate (favs : gmap string bool) (m : Match) : Match :=
  set_IsFavorite (mapIndex favs (Title m)) m.

Definition isOk {E A} (r : E + A) : bool :=
  match r with inr _ => true | inl _ => false end.

(** The provider could not be reached or its answer could not be decoded. *)
Definition upstreamFails (up : Upstream) : bool :=
  match up with Decoded _ => false | _ => true end.

Definition errorOf (up : Upstream) : option error :=
  match up with
  | GetError msg => Some (UpstreamUnreachable msg)
  | DecodeError msg => Some (UpstreamMalformed msg)
  | Decoded _ => None
  end.

(** *** Invariants of the callers that run at the same time *)

(** A thread is between [Lock] and [Unlock] exactly when the mutex names it. *)
Definition lockInv (s : Sys) : Prop :=
  forall i p, pcs s !! i = Some p -> (holdsLock p = true <-> cacheMu s = Some i).

(** The cached slice lies within an allocated array. *)
Definition cacheInArray (w : World) : Prop :=
  (ptr (cachedMatch w) < brk w)%nat
  /\ length (read (heap w) (cachedMatch w)) = len (cachedMatch w).

(** The events of a run that starts at [t0] and is over before the TTL has
    passed, and in which the provider answers with at least one record. *)
Definition calmEvent (t0 : Z) (ev : Event) : Prop :=
  match ev with
  | Lock _ => True
  | Check _ t => t0 <= t < t0 + cacheTTL
  | Respond _ up t =>
      t0 <= t < t0 + cacheTTL /\ exists m ms, up = Decoded (m :: ms)
  end.

(** Nobody has tested the cache yet. *)
Definition quiet (w : World) (s : Sys) : Prop :=
  world s = w /\ Forall (fun p => p = Waiting \/ p = Locked) (pcs s).

(** One caller waits for the provider; nobody has returned. *)
Definition fetching (w : World) (s : Sys) : Prop :=
  world s = countCall w
  /\ (exists i, pcs s !! i = Some InFlight)
  /\ Forall (fun p => isDone p = false) (pcs s).

(** The snapshot has been stored; whoever returned holds a copy of it. *)
Definition refreshed (w : World) (t0 : Z) (s : Sys) : Prop :=
  upstreamCalls (world s) = S (upstreamCalls w)
  /\ t0 <= cachedAt (world s)
  /\ (0 < len (cachedMatch (world s)))%nat
  /\ cacheInArray (world s)
  /\ Forall (fun p => p <> InFlight) (pcs s)
  /\ forall i r, pcs s !! i = Some (Done r) ->
       exists sl, r = inr sl /\ (ptr sl < brk (world s))%nat
                  /\ read (heap (world s)) sl
                     = read (heap (world s)) (cachedMatch (world s)).

Definition herdInv (w : World) (t0 : Z) (s : Sys) : Prop :=
  lockInv s /\ (quiet w s \/ fetching w s \/ refreshed w t0 s).

(** *** Notions for the rest of the package *)

(** The decimal numeral of a natural number, as Go prints an [int]. *)
Definition decimal (n : Z) : string :=
  DecimalString.NilZero.string_of_uint (N.to_uint (Z.to_N n)).

(** [a] comes before [b] in descending order of the raw dates. *)
Definition byDateDesc (a b : Match) : Prop := String.le (DateRaw b) (DateRaw a).

(** A list short enough for [len + pageSize - 1] to stay within [int]. *)
Definition fits (n : nat) : Prop := Z.of_nat n + pageSize - 1 <= Int.max_int.

Definition envFits (env : Env) : Prop :=
  match upstream env with
  | Decoded response => fits (length response)
  | _ => True
  end.

(** The cache holds what [normalizeMatches] made of some decoded answer (of
    the empty answer before the first refresh). *)
Definition cacheNormal {U : strings.Unicode} (fmt : string -> option string) (w : World) : Prop :=
  exists response,
    read (heap w) (cachedMatch w) = normalizeMatches fmt response.

(** The worlds that the handlers run in. *)
Definition ready {U : strings.Unicode} (fmt : string -> option string) (w : World) : Prop :=
  wf w /\ cacheNormal fmt w /\ fits (len (cachedMatch w)).

(** A record as the JSON decoder leaves it: the fields tagged [json:"-"]
    hold their zero values. *)
Definition decoded (m : Match) : Prop :=
  PrettyDate m = "" /\ EmbedHTML m = "" /\ IsFavorite m = false /\ Category m = "".

(** The provider answers with decoded records, few enough for [paginate]. *)
Definition envDecoded (env : Env) : Prop :=
  match upstream env with
  | Decoded response => fits (length response) /\ Forall decoded response
  | _ => True
  end.

(** The cache holds what [normalizeMatches] made of decoded records, and
    nothing else: no favourite flag and no embed has been written into it. *)
Definition cacheIntact {U : strings.Unicode} (fmt : string -> option string) (w : World)
  : Prop :=
  exists response,
    Forall decoded response
    /\ read (heap w) (cachedMatch w) = normalizeMatches fmt response.

(** The worlds that the handlers reach from the start of the process. *)
Definition pristine {U : strings.Unicode} (fmt : string -> option string) (w : World)
  : Prop :=
  wf w /\ cacheIntact fmt w /\ fits (len (cachedMatch w)).

(** The page of a list that [paginate] serves for page number [p]. *)
Definition pageOf (matches : list Match) (p : nat) : list Match :=
  match paginate matches (Z.of_nat p) pageSize with
  | Some (paged, _, _, _) => paged
  | None => []
  end.

(** The number of pages that [paginate] reports. *)
Definition pagesOf (matches : list Match) : Z :=
  match paginate matches 1 pageSize with
  | Some (_, totalPages, _, _) => totalPages
  | None => 0
  end.

(** One request to one of the handlers that load the records. *)
Inductive Call :=
| CallHome (r : Request) (env : Env)
| CallCollection (r : Request) (env : Env)
| CallCategory (r : Request) (env : Env)
| CallSearch (r : Request) (env : Env)
| CallFavorites (r : Request) (env : Env)
| CallDetail (r : Request) (env : Env).

Definition callEnv (c : Call) : Env :=
  match c with
  | CallHome _ env | CallCollection _ env | CallCategory _ env
  | CallSearch _ env | CallFavorites _ env | CallDetail _ env => env
  end.

Definition serve {U : strings.Unicode} (fmt : string -> option string) (c : Call) (w : World)
  : Response * World :=
  match c with
  | CallHome r env => HomeHandler fmt r env w
  | CallCollection r env => CollectionHandler fmt r env w
  | CallCategory r env => CategoryHandler fmt r env w
  | CallSearch r env => SearchResultsHandler fmt r env w
  | CallFavorites r env => FavoritesPageHandler fmt r env w
  | CallDetail r env => DetailHandler fmt r env w
  end.

(** Requests served one after the other. *)
Fixpoint serveAll {U : strings.Unicode} (fmt : string -> option string)
    (calls : list Call) (w : World)
  : list Response * World :=
  match calls with
  | [] => ([], w)
  | c :: rest =>
      let '(resp, w1) := serve fmt c w in
      let '(resps, w2) := serveAll fmt rest w1 in
      (resp :: resps, w2)
  end.

(** ** The library on ASCII text *)

#[global] Instance asciiText : strings.Unicode := {|
  strings.ToLower := ASCII.ToLower;
  strings.TrimSpace := ASCII.TrimSpace;
  strings.Fields := ASCII.Fields;
  strings.EqualFold := ASCII.EqualFold;
  strings.Title := ASCII.Title
|}.

(** ** Sample data *)

(** A date formatter that parses nothing. *)
Definition noFormat : string -> option string := fun _ => None.

Definition sampleMatch (title competition date : string) : Match :=
  mkMatch title competition "" "" date [] "" "" false "".

(** * Properties *)

(** ** Byte strings *)

Import strings(Cut, SplitN, Split, Join, Contains, ToLower, TrimSpace, Fields, EqualFold).
Import ASCII(isUpper, toLowerByte, isSpace, trimLeft, trimRight,
             isSeparator, toTitleByte, titleFrom).

(** The operations of [asciiText] are those of [ASCII]. *)
Ltac fold_text :=
  change ASCII.ToLower with (@strings.ToLower asciiText) in *;
  change ASCII.TrimSpace with (@strings.TrimSpace asciiText) in *;
  change ASCII.Fields with (@strings.Fields asciiText) in *;
  change ASCII.EqualFold with (@strings.EqualFold asciiText) in *;
  change ASCII.Title with (@strings.Title asciiText) in *.


Ltac unfold_TrimSpace :=
  change (@strings.TrimSpace asciiText) with (fun s => trimRight (trimLeft s)) in *;
  cbv beta in *.

(** Package [strings] on the examples of its documentation; the text
    functions are those of [asciiText]. *)
Example strings_model_examples :
  ToLower "Gopher" = "gopher"
  /\ TrimSpace (String (ascii_of_nat 9) " Hello, Gophers  ") = "Hello, Gophers"
  /\ Split "a,b,c" "," = ["a"; "b"; "c"]
  /\ Split " xyz " "," = [" xyz "]
  /\ Split "" "|" = [""]
  /\ SplitN "a,b,c,d" "," 2 = ["a"; "b,c,d"]
  /\ Join ["foo"; "bar"; "baz"] ", " = "foo, bar, baz"
  /\ Contains "seafood" "foo" = true
  /\ Contains "seafood" "bar" = false
  /\ Contains "seafood" "" = true
  /\ Fields "  foo bar  baz   " = ["foo"; "bar"; "baz"]
  /\ EqualFold "Go" "GO" = true.
Proof. repeat split. Qed.

Lemma isSpace_toLowerByte a : isSpace (toLowerByte a) = isSpace a.
Proof. destruct a as [[] [] [] [] [] [] [] []]; reflexivity. Qed.

Lemma toLowerByte_idem a : toLowerByte (toLowerByte a) = toLowerByte a.
Proof. destruct a as [[] [] [] [] [] [] [] []]; reflexivity. Qed.

Lemma ToLower_idem s : ToLower (ToLower s) = ToLower s.
Proof.
  induction s as [|a s IH]; simpl; [done|]. fold_text. by rewrite toLowerByte_idem, IH.
Qed.

Lemma ToLower_empty s : ToLower s = "" <-> s = "".
Proof. destruct s; simpl; split; congruence. Qed.

Lemma trimLeft_ToLower s : trimLeft (ToLower s) = ToLower (trimLeft s).
Proof.
  induction s as [|a s IH]; simpl; [done|].
  rewrite isSpace_toLowerByte. destruct (isSpace a); [done|reflexivity].
Qed.

Lemma trimRight_ToLower s : trimRight (ToLower s) = ToLower (trimRight s).
Proof.
  induction s as [|a s IH]; simpl; [done|]. fold_text.
  rewrite IH, isSpace_toLowerByte.
  destruct (trimRight s); simpl; [destruct (isSpace a)|]; reflexivity.
Qed.

Lemma TrimSpace_ToLower s : TrimSpace (ToLower s) = ToLower (TrimSpace s).
Proof. unfold_TrimSpace. by rewrite trimLeft_ToLower, trimRight_ToLower. Qed.

Lemma trimLeft_headNonSpace s : headNonSpace (trimLeft s).
Proof.
  induction s as [|a s IH]; simpl; [done|].
  destruct (isSpace a) eqn:E; [done|]. exact E.
Qed.

Lemma trimLeft_fix s : headNonSpace s -> trimLeft s = s.
Proof. destruct s as [|a s]; simpl; [done|]. by intros ->. Qed.

Lemma trimRight_headNonSpace s : headNonSpace s -> headNonSpace (trimRight s).
Proof.
  destruct s as [|a s]; simpl; [done|]. intros E.
  destruct (trimRight s); [rewrite E|]; exact E.
Qed.

Lemma trimRight_idem s : trimRight (trimRight s) = trimRight s.
Proof.
  induction s as [|a s IH]; simpl; [done|].
  destruct (trimRight s) as [|b r] eqn:E.
  - destruct (isSpace a) eqn:Ea; simpl; [done|]. by rewrite Ea.
  - change (trimRight (String a (String b r))) with
      (match trimRight (String b r) with
       | EmptyString => if isSpace a then EmptyString else String a EmptyString
       | r' => String a r'
       end).
    by rewrite IH.
Qed.

Lemma TrimSpace_idem s : TrimSpace (TrimSpace s) = TrimSpace s.
Proof.
  unfold_TrimSpace.
  rewrite (trimLeft_fix (trimRight (trimLeft s))).
  - apply trimRight_idem.
  - apply trimRight_headNonSpace, trimLeft_headNonSpace.
Qed.

Lemma Cut_none s sep : Contains s (String sep "") = false -> Cut s sep = None.
Proof.
  induction s as [|a s IH]; simpl; [done|].
  destruct (ascii_dec sep a) as [->|Hne].
  - destruct s; simpl; discriminate.
  - intros H. simpl in H. rewrite (proj2 (Ascii.eqb_neq a sep)) by congruence.
    by rewrite IH.
Qed.

Lemma Cut_first before after sep :
  Contains before (String sep "") = false ->
  Cut (before +:+ String sep after) sep = Some (before, after).
Proof.
  induction before as [|a s IH]; simpl.
  - intros _. by rewrite Ascii.eqb_refl.
  - destruct (ascii_dec sep a) as [->|Hne].
    + destruct s; simpl; discriminate.
    + simpl. intros H. rewrite (proj2 (Ascii.eqb_neq a sep)) by congruence.
      by rewrite IH.
Qed.

(** ** The sort is a rearrangement *)

Lemma insertBack_Permutation {A} (less : A -> A -> bool) x r :
  insertBack less x r ≡ₚ x :: r.
Proof.
  induction r as [|y r IH]; simpl; [done|].
  destruct (less x y); [|done]. rewrite IH. apply Permutation_swap.
Qed.

Lemma fold_insertBack_Permutation {A} (less : A -> A -> bool) l acc :
  fold_left (fun r x => insertBack less x r) l acc ≡ₚ l ++ acc.
Proof.
  revert acc. induction l as [|x l IH]; intros acc; simpl; [done|].
  rewrite IH, insertBack_Permutation. by rewrite Permutation_middle.
Qed.

Lemma sortSlice_Permutation {A} (less : A -> A -> bool) l :
  sortSlice less l ≡ₚ l.
Proof.
  unfold sortSlice. rewrite <- Permutation_rev.
  rewrite fold_insertBack_Permutation. by rewrite app_nil_r.
Qed.

Lemma sortSlice_length {A} (less : A -> A -> bool) l :
  length (sortSlice less l) = length l.
Proof. apply Permutation_length, sortSlice_Permutation. Qed.

(** ** The normaliser *)

Lemma normalizeMatch_Competition {U : strings.Unicode} fmt m :
  Competition (normalizeMatch fmt m) = Competition m.
Proof.
  unfold normalizeMatch.
  destruct (fmt (DateRaw m)); simpl;
    destruct (Cut (Competition m) ":"); try destruct p; reflexivity.
Qed.

Lemma normalizeMatch_Category {U : strings.Unicode} fmt m :
  Category (normalizeMatch fmt m) =
  match Cut (Competition m) ":" with
  | Some (before, _) => TrimSpace (ToLower before)
  | None => TrimSpace (ToLower (Competition m))
  end.
Proof.
  unfold normalizeMatch.
  destruct (fmt (DateRaw m)); simpl;
    destruct (Cut (Competition m) ":"); try destruct p; reflexivity.
Qed.

Lemma elem_of_normalizeMatches {U : strings.Unicode} fmt ms m :
  m ∈ normalizeMatches fmt ms <-> exists m0, m0 ∈ ms /\ m = normalizeMatch fmt m0.
Proof.
  unfold normalizeMatches. rewrite sortSlice_Permutation.
  rewrite list_elem_of_fmap.
  split; intros (m0 & H1 & H2); exists m0; by split.
Qed.

Lemma normalizeMatches_length {U : strings.Unicode} fmt ms :
  length (normalizeMatches fmt ms) = length ms.
Proof. unfold normalizeMatches. by rewrite sortSlice_length, length_map. Qed.

(** C6 (amended). Every record that leaves [normalizeMatches] has as category
    the lower-cased, trimmed text before the first colon of its competition
    string when there is a colon, and the lower-cased, trimmed whole
    competition string when there is none.  This holds for whatever
    [strings.ToLower] and [strings.TrimSpace] compute. *)
Theorem category_is_text_before_colon {U : strings.Unicode} fmt ms m :
  m ∈ normalizeMatches fmt ms ->
  (forall before after,
      Competition m = before +:+ String ":" after ->
      Contains before ":" = false ->
      Category m = TrimSpace (ToLower before))
  /\ (Contains (Competition m) ":" = false ->
      Category m = TrimSpace (ToLower (Competition m))).
Proof.
  intros (m0 & _ & ->)%elem_of_normalizeMatches.
  rewrite normalizeMatch_Competition, normalizeMatch_Category. split.
  - intros before after -> Hb. by rewrite (Cut_first _ _ _ Hb).
  - intros Hc. by rewrite (Cut_none _ _ Hc).
Qed.

Lemma category_is_text_before_colon_witness :
  exists m, m ∈ normalizeMatches noFormat
                  [sampleMatch "A - B" "ENGLAND: Premier League" "2024-01-03"]
            /\ Category m = "england".
Proof.
  eexists. split; [apply list_elem_of_here|].
  refine (proj1 (category_is_text_before_colon noFormat
            [sampleMatch "A - B" "ENGLAND: Premier League" "2024-01-03"] _ _)
            "ENGLAND" " Premier League" _ _).
  - apply list_elem_of_here.
  - reflexivity.
  - reflexivity.
Defined.

(** C6 as stated fails: a competition string without a colon yields its own
    lower-cased text as category, not the empty string. *)
Lemma category_without_colon_not_empty :
  exists m, m ∈ normalizeMatches noFormat [sampleMatch "A - B" "Friendly" "2024-01-03"]
            /\ Contains (Competition m) ":" = false
            /\ Category m = "friendly"
            /\ Category m <> "".
Proof.
  eexists. split; [apply list_elem_of_here|]. simpl. repeat split. discriminate.
Qed.

(** ** The Favorite Set holds trimmed titles *)

Lemma cleanTitles_empty {U : strings.Unicode} : cleanTitles ∅.
Proof. intros t b H. by rewrite lookup_empty in H. Qed.

Lemma cleanTitles_insert {U : strings.Unicode} favs t :
  cleanTitles favs -> t <> "" -> TrimSpace t = t -> cleanTitles (<[t := true]> favs).
Proof.
  intros Hc Hne Ht u b. rewrite lookup_insert. case_decide as E.
  - intros [= <-]. by subst u.
  - apply Hc.
Qed.

Lemma cleanTitles_delete {U : strings.Unicode} favs t :
  cleanTitles favs -> cleanTitles (delete t favs).
Proof.
  intros Hc u b. rewrite lookup_delete. case_decide; [done|apply Hc].
Qed.

Lemma cleanTitles_addSegment {U : strings.Unicode} favs seg :
  (forall s, TrimSpace (TrimSpace s) = TrimSpace s) ->
  cleanTitles favs -> cleanTitles (addSegment favs seg).
Proof.
  intros Hidem Hc. unfold addSegment. case_decide as E; [done|].
  apply cleanTitles_insert; [done| done | apply Hidem].
Qed.

Lemma cleanTitles_fold {U : strings.Unicode} segs favs :
  (forall s, TrimSpace (TrimSpace s) = TrimSpace s) ->
  cleanTitles favs -> cleanTitles (fold_left addSegment segs favs).
Proof.
  intros Hidem. revert favs.
  induction segs as [|seg segs IH]; intros favs Hc; simpl; [done|].
  by apply IH, cleanTitles_addSegment.
Qed.

Lemma cleanTitles_getFavorites {U : strings.Unicode} cookie :
  (forall s, TrimSpace (TrimSpace s) = TrimSpace s) ->
  cleanTitles (getFavorites cookie).
Proof.
  intros Hidem. destruct cookie as [v|]; simpl.
  - by apply cleanTitles_fold, cleanTitles_empty.
  - apply cleanTitles_empty.
Qed.

Lemma cleanTitles_toggle {U : strings.Unicode} favs t :
  cleanTitles favs -> t <> "" -> TrimSpace t = t -> cleanTitles (toggle favs t).
Proof.
  intros Hc Hne Ht. unfold toggle. destruct (mapIndex favs t).
  - by apply cleanTitles_delete.
  - by apply cleanTitles_insert.
Qed.

Lemma lookup_fold_addSegment {U : strings.Unicode} segs favs t :
  is_Some (fold_left addSegment segs favs !! t) <->
  is_Some (favs !! t) \/ (t <> "" /\ exists seg, seg ∈ segs /\ TrimSpace seg = t).
Proof.
  revert favs. induction segs as [|seg segs IH]; intros favs; simpl.
  - split; [auto|]. intros [H|(_ & seg & Hin & _)]; [done|]. by apply elem_of_nil in Hin.
  - rewrite IH. unfold addSegment. case_decide as E.
    + split.
      * intros [H|(Hne & s & Hin & Hs)]; [auto|].
        right. split; [done|]. exists s. split; [by apply list_elem_of_further|done].
      * intros [H|(Hne & s & Hin & Hs)]; [auto|].
        apply elem_of_cons in Hin as [->|Hin]; [congruence|].
        right. split; [done|]. by exists s.
    + rewrite lookup_insert_is_Some. split.
      * intros [[H|[_ H]]|(Hne & s & Hin & Hs)]; [| auto |].
        -- right. split; [congruence|]. exists seg. split; [apply list_elem_of_here|done].
        -- right. split; [done|]. exists s. split; [by apply list_elem_of_further|done].
      * intros [H|(Hne & s & Hin & Hs)].
        -- destruct (decide (TrimSpace seg = t)); [left; by left | left; right; auto].
        -- apply elem_of_cons in Hin as [->|Hin]; [left; by left|].
           right. split; [done|]. by exists s.
Qed.

(** C10. A decoded Favorite Set holds only non-empty titles that
    [strings.TrimSpace] leaves alone: a missing cookie decodes to the empty
    set, a cookie value to the trimmed, non-empty segments between its bars;
    the toggle keeps the invariant, since the handler trims its title and
    refuses an empty one; so a title that trimming would change is never a
    key of a decoded set.  The one fact about the library that this rests on
    is that trimming a trimmed string changes nothing. *)
Theorem favorites_hold_trimmed_titles {U : strings.Unicode} :
  (forall s, TrimSpace (TrimSpace s) = TrimSpace s) ->
  (forall cookie, cleanTitles (getFavorites cookie))
  /\ getFavorites None = ∅
  /\ (forall value t,
        is_Some (getFavorites (Some value) !! t) <->
        t <> "" /\ exists seg, seg ∈ Split value "|" /\ TrimSpace seg = t)
  /\ (forall favs titleParam,
        cleanTitles favs -> TrimSpace titleParam <> "" ->
        cleanTitles (toggle favs (TrimSpace titleParam)))
  /\ (forall titleParam redirectParam cookie,
        TrimSpace titleParam = "" ->
        ToggleFavoriteHandler titleParam redirectParam cookie
        = ToggleBadRequest "title manquant")
  /\ (forall titleParam redirectParam cookie,
        TrimSpace titleParam <> "" ->
        (exists location,
            ToggleFavoriteHandler titleParam redirectParam cookie
            = ToggleSeeOther location
                (saveFavorites (toggle (getFavorites cookie) (TrimSpace titleParam))))
        /\ cleanTitles (toggle (getFavorites cookie) (TrimSpace titleParam)))
  /\ (forall cookie t, TrimSpace t <> t -> getFavorites cookie !! t = None).
Proof.
  intros Hidem.
  split; [intros cookie; by apply cleanTitles_getFavorites|].
  split; [reflexivity|].
  split.
  { intros value t. simpl. rewrite lookup_fold_addSegment, lookup_empty.
    split; [intros [[? [=]]|H]; exact H | auto]. }
  split.
  { intros favs raw Hc Hne. apply cleanTitles_toggle; [done|done|apply Hidem]. }
  split.
  { intros raw redirect cookie E. unfold ToggleFavoriteHandler. by rewrite decide_True. }
  split.
  { intros raw redirect cookie E. split.
    - eexists. unfold ToggleFavoriteHandler. by rewrite decide_False.
    - apply cleanTitles_toggle; [by apply cleanTitles_getFavorites|done|apply Hidem]. }
  intros cookie t Ht.
  destruct (getFavorites cookie !! t) as [b|] eqn:Hb; [|done].
  by destruct (cleanTitles_getFavorites cookie Hidem t b Hb) as (_ & ? & _).
Qed.

Lemma favorites_hold_trimmed_titles_witness :
  getFavorites (Some " a | b c ||  ") !! " a " = None
  /\ is_Some (getFavorites (Some " a | b c ||  ") !! "a")
  /\ is_Some (getFavorites (Some " a | b c ||  ") !! "b c").
Proof.
  destruct (favorites_hold_trimmed_titles TrimSpace_idem) as (_ & _ & Hkeys & _ & _ & _ & Hnever).
  split; [|split].
  - apply Hnever. intros H. vm_compute in H. discriminate H.
  - apply Hkeys. split; [discriminate|]. exists " a ".
    split; [vm_compute; apply list_elem_of_here|reflexivity].
  - apply Hkeys. split; [discriminate|]. exists " b c ".
    split; [vm_compute; apply list_elem_of_further, list_elem_of_here|reflexivity].
Defined.

(** ** Pagination *)

Lemma wrap_id z : Int.min_int <= z <= Int.max_int -> Int.wrap z = z.
Proof.
  unfold Int.wrap, Int.min_int, Int.max_int. intros H.
  rewrite Z.mod_small; lia.
Qed.

Lemma wrap_add_l a b : Int.wrap (Int.wrap a + b) = Int.wrap (a + b).
Proof.
  unfold Int.wrap.
  replace ((a + 2 ^ 63) mod 2 ^ 64 - 2 ^ 63 + b + 2 ^ 63)
    with ((a + 2 ^ 63) mod 2 ^ 64 + b) by lia.
  rewrite Zplus_mod_idemp_l. f_equal. f_equal. lia.
Qed.

Lemma ceilDiv_bounds n d : 0 < d -> (ceilDiv n d - 1) * d < n <= ceilDiv n d * d.
Proof.
  intros Hd. unfold ceilDiv.
  pose proof (Z.div_mod (- n) d ltac:(lia)) as E.
  pose proof (Z.mod_pos_bound (- n) d Hd) as B.
  nia.
Qed.

Lemma ceilDiv_formula n d : 0 < d -> (n + d - 1) / d = ceilDiv n d.
Proof.
  intros Hd. pose proof (ceilDiv_bounds n d Hd) as B.
  symmetry. apply Z.div_unique with (r := n + d - 1 - d * ceilDiv n d); nia.
Qed.

Lemma lookup_take_drop {A} (l : list A) lo k i :
  take k (drop lo l) !! i = if decide (i < k)%nat then l !! (lo + i)%nat else None.
Proof.
  case_decide.
  - rewrite lookup_take_lt by done. apply lookup_drop.
  - apply lookup_take_ge. lia.
Qed.

(** C2 (amended). For a page size [size > 0] for which [count + size - 1]
    does not leave the range of [int], [paginate] returns
    [max 1 (ceil (count / size))] pages, serves the requested page clamped into
    [1, totalPages], returns the records at the indices from
    [(page - 1) * size] up to, and without, [min (page * size) count], and
    gives 0 for the previous (next) page exactly at the first (last) page. *)
Theorem paginate_within_int_range (matches : list Match) (page size : Z) :
  0 < size -> size <= Int.max_int ->
  Z.of_nat (length matches) + size - 1 <= Int.max_int ->
  let count := Z.of_nat (length matches) in
  let totalPages := Z.max 1 (ceilDiv count size) in
  let eff := effectivePage page totalPages in
  let lo := Z.to_nat ((eff - 1) * size) in
  let hi := Z.to_nat (Z.min (eff * size) count) in
  1 <= eff <= totalPages
  /\ paginate matches page size =
     Some (take (hi - lo) (drop lo matches),
           totalPages,
           (if eff =? 1 then 0 else eff - 1),
           (if eff =? totalPages then 0 else eff + 1))
  /\ (forall i, take (hi - lo) (drop lo matches) !! i =
                if decide (lo + i < hi)%nat then matches !! (lo + i)%nat else None).
Proof.
  intros Hsize Hmax Hsum count totalPages eff lo hi.
  assert (Hrange : Int.max_int = 2 ^ 63 - 1) by reflexivity.
  assert (Hmin : Int.min_int = - 2 ^ 63) by reflexivity.
  assert (Hcount : 0 <= count) by (unfold count; lia).
  pose proof (ceilDiv_bounds count size Hsize) as Hceil.
  assert (Hc0 : 0 <= ceilDiv count size) by nia.
  assert (Hceil_le : ceilDiv count size <= count) by nia.
  assert (Htot : 1 <= totalPages) by (unfold totalPages; lia).
  assert (Heff : 1 <= eff <= totalPages) by (unfold eff, effectivePage; lia).
  assert (Hlo : 0 <= (eff - 1) * size <= count).
  { split; [nia|]. unfold totalPages in Heff.
    destruct (Z.max_spec 1 (ceilDiv count size)) as [[? E]|[? E]]; rewrite E in Heff; nia. }
  assert (Hlo1 : (eff - 1) * size + size <= Int.max_int).
  { unfold totalPages in Heff.
    destruct (Z.max_spec 1 (ceilDiv count size)) as [[? E]|[? E]]; rewrite E in Heff; nia. }
  split; [exact Heff|].
  split; [|intros i; rewrite lookup_take_drop; repeat case_decide; (done || lia)].
  unfold paginate.
  replace (size <=? 0) with false by (symmetry; apply Z.leb_gt; lia).
  fold count.
  unfold Int.sub, Int.add, Int.div, Int.mul.
  replace (Int.wrap (count + size) - 1) with (Int.wrap (count + size) + -1) by lia.
  rewrite wrap_add_l.
  replace (count + size + -1) with (count + size - 1) by lia.
  rewrite (wrap_id (count + size - 1)) by lia.
  rewrite Z.quot_div_nonneg by lia.
  rewrite ceilDiv_formula by lia.
  rewrite (wrap_id (ceilDiv count size)) by lia.
  assert (Etot : (if ceilDiv count size =? 0 then 1 else ceilDiv count size) = totalPages).
  { unfold totalPages. destruct (Z.eqb_spec (ceilDiv count size) 0); lia. }
  rewrite Etot.
  assert (Eeff : (if (if page <? 1 then 1 else page) >? totalPages then totalPages
                  else (if page <? 1 then 1 else page)) = eff).
  { unfold eff, effectivePage.
    destruct (Z.ltb_spec page 1);
      [destruct (Z.gtb_spec 1 totalPages)|destruct (Z.gtb_spec page totalPages)]; lia. }
  rewrite Eeff.
  rewrite (wrap_id (eff - 1)) by lia.
  rewrite (wrap_id ((eff - 1) * size)) by lia.
  rewrite (wrap_id ((eff - 1) * size + size)) by lia.
  replace ((eff - 1) * size >? count) with false
    by (symmetry; destruct (Z.gtb_spec ((eff - 1) * size) count); [lia|done]).
  assert (Ehi : (if (eff - 1) * size + size >? count then count
                 else (eff - 1) * size + size) = Z.min (eff * size) count).
  { destruct (Z.gtb_spec ((eff - 1) * size + size) count); lia. }
  rewrite Ehi. unfold slice.
  replace (0 <=? (eff - 1) * size) with true by (symmetry; apply Z.leb_le; lia).
  replace ((eff - 1) * size <=? Z.min (eff * size) count) with true
    by (symmetry; apply Z.leb_le; lia).
  replace (Z.min (eff * size) count <=? Z.of_nat (length matches)) with true
    by (symmetry; apply Z.leb_le; unfold count; lia).
  simpl andb. cbv iota.
  replace (Z.to_nat (Z.min (eff * size) count - (eff - 1) * size)) with (hi - lo)%nat
    by (unfold hi, lo; lia).
  fold lo.
  f_equal. f_equal; [f_equal|].
  - destruct (Z.gtb_spec eff 1), (Z.eqb_spec eff 1); lia.
  - destruct (Z.ltb_spec eff totalPages), (Z.eqb_spec eff totalPages); try lia.
    apply wrap_id. lia.
Qed.

(** The scenario of the specification: three records are put in descending
    order of their raw dates, and the first page of size two holds the two
    latest ones. *)
Example scenario_three_records :
  let d3 := sampleMatch "m3" "" "2024-01-03T10:00:00+0000" in
  let d1 := sampleMatch "m1" "" "2024-01-01T10:00:00+0000" in
  let d2 := sampleMatch "m2" "" "2024-01-02T10:00:00+0000" in
  map Title (normalizeMatches noFormat [d3; d1; d2]) = ["m3"; "m2"; "m1"]
  /\ paginate (normalizeMatches noFormat [d3; d1; d2]) 1 2
     = Some (take 2 (normalizeMatches noFormat [d3; d1; d2]), 2, 0, 2).
Proof. split; reflexivity. Qed.

Lemma paginate_within_int_range_witness :
  let a := sampleMatch "a" "" "2024-01-03" in
  let b := sampleMatch "b" "" "2024-01-02" in
  let c := sampleMatch "c" "" "2024-01-01" in
  paginate [a; b; c] 1 2 = Some ([a; b], 2, 0, 2)
  /\ paginate [a; b; c] 7 2 = Some ([c], 2, 1, 0).
Proof.
  split.
  - refine (proj1 (proj2 (paginate_within_int_range
      [sampleMatch "a" "" "2024-01-03"; sampleMatch "b" "" "2024-01-02";
       sampleMatch "c" "" "2024-01-01"] 1 2 _ _ _)));
      unfold Int.max_int; simpl; lia.
  - refine (proj1 (proj2 (paginate_within_int_range
      [sampleMatch "a" "" "2024-01-03"; sampleMatch "b" "" "2024-01-02";
       sampleMatch "c" "" "2024-01-01"] 7 2 _ _ _)));
      unfold Int.max_int; simpl; lia.
Defined.

(** C2 as stated fails: with the largest [int] as page size and two records,
    [len(matches) + size - 1] wraps around, the page count comes out as -1
    and the slice expression panics. *)
Lemma paginate_huge_size_panics :
  0 < Int.max_int
  /\ paginate [zeroMatch; zeroMatch] 1 Int.max_int = None.
Proof. split; [reflexivity|]. vm_compute. reflexivity. Qed.

(** ** Filtering *)

Lemma fold_append_filter {A} (p : A -> bool) l acc :
  fold_left (fun filtered m => if p m then filtered ++ [m] else filtered) l acc
  = acc ++ List.filter p l.
Proof.
  revert acc. induction l as [|m l IH]; intros acc; simpl.
  - by rewrite app_nil_r.
  - rewrite IH. destruct (p m); [|done]. by rewrite <- app_assoc.
Qed.

Lemma eqb_ToLower_empty {U : strings.Unicode} x :
  (forall s, ToLower s = "" <-> s = "") ->
  String.eqb (ToLower x) "" = String.eqb x "".
Proof.
  intros Hlow. destruct (String.eqb_spec x "") as [->|Hx].
  - apply String.eqb_eq. by apply Hlow.
  - apply String.eqb_neq. intros H. apply Hx. by apply Hlow.
Qed.

Lemma keeps_passes {U : strings.Unicode} x y m :
  (forall s, ToLower s = "" <-> s = "") ->
  lowerCategory m -> keeps (ToLower x) (ToLower y) m = passes x y m.
Proof.
  unfold lowerCategory, keeps, passes, textMatches, containsFold. intros Hlow ->.
  rewrite !eqb_ToLower_empty by done.
  destruct (String.eqb x ""), (String.eqb y ""), (String.eqb (Category m) ""),
    (Contains (ToLower (Title m)) (ToLower x)),
    (Contains (ToLower (Competition m)) (ToLower x)),
    (Contains (Category m) (ToLower y)); reflexivity.
Qed.

Lemma filter_ext_Forall {A} (P : A -> Prop) (p q : A -> bool) l :
  Forall P l -> (forall a, P a -> p a = q a) -> List.filter p l = List.filter q l.
Proof.
  intros Hl Hpq. induction Hl as [|a l Ha Hl IH]; simpl; [done|].
  by rewrite (Hpq a Ha), IH.
Qed.

Lemma filter_all_true {A} (p : A -> bool) l :
  (forall a, p a = true) -> List.filter p l = l.
Proof. intros Hp. induction l as [|a l IH]; simpl; [done|]. by rewrite Hp, IH. Qed.

Lemma lowerCategory_normalizeMatch fmt m : lowerCategory (normalizeMatch fmt m).
Proof.
  unfold lowerCategory. rewrite normalizeMatch_Category.
  destruct (Cut (Competition m) ":") as [[before after]|];
    by rewrite TrimSpace_ToLower, ToLower_idem.
Qed.

Lemma lowerCategory_normalizeMatches fmt ms :
  Forall lowerCategory (normalizeMatches fmt ms).
Proof.
  apply Forall_forall. intros m (m0 & _ & ->)%elem_of_normalizeMatches.
  apply lowerCategory_normalizeMatch.
Qed.

(** C3 (amended). On records that carry their derived category,
    [filterMatches] returns, in order, exactly the records that contain the
    text filter in the title or the competition string and whose category is
    empty or contains the category filter, case ignored throughout (the
    texts are compared after [strings.ToLower], as the code does); the two
    filters compose with AND and an empty filter string lets every record
    pass.  The one fact about the library that this rests on is that
    [strings.ToLower] gives the empty string for the empty string only. *)
Theorem filterMatches_exact {U : strings.Unicode} (matches : list Match) (x y : string) :
  (forall s, ToLower s = "" <-> s = "") ->
  Forall lowerCategory matches ->
  filterMatches matches x y = List.filter (passes x y) matches
  /\ filterMatches matches "" "" = matches
  /\ filterMatches matches x "" = List.filter (fun m => String.eqb x "" || textMatches x m) matches
  /\ filterMatches matches "" y =
     List.filter (fun m => String.eqb y "" || String.eqb (Category m) ""
                           || containsFold (Category m) y) matches.
Proof.
  intros Hlow Hl.
  assert (Hgen : forall x y, filterMatches matches x y = List.filter (passes x y) matches).
  { clear x y. intros x y. unfold filterMatches.
    destruct (String.eqb x "" && String.eqb y "") eqn:E.
    - apply andb_true_iff in E as [Ex Ey]. symmetry. apply filter_all_true.
      intros m. unfold passes. by rewrite Ex, Ey.
    - rewrite fold_append_filter. simpl.
      apply (filter_ext_Forall lowerCategory); [done|].
      intros m Hm. by apply keeps_passes. }
  split; [apply Hgen|]. split; [reflexivity|]. split.
  - rewrite Hgen. apply List.filter_ext. intros m. unfold passes. simpl.
    by rewrite andb_true_r.
  - rewrite Hgen. apply List.filter_ext. intros m. unfold passes. reflexivity.
Qed.

Lemma filterMatches_exact_witness :
  let ms := normalizeMatches noFormat
              [sampleMatch "Arsenal - Chelsea" "ENGLAND: Premier League" "2024-01-03";
               sampleMatch "Real - Barca" "SPAIN: La Liga" "2024-01-02";
               sampleMatch "Ajax - PSV" "" "2024-01-01"] in
  filterMatches ms "ARSENAL" "engl" = List.filter (passes "ARSENAL" "engl") ms
  /\ map Title (filterMatches ms "ARSENAL" "engl") = ["Arsenal - Chelsea"].
Proof.
  split; [|reflexivity].
  exact (proj1 (filterMatches_exact _ "ARSENAL" "engl" ToLower_empty
                  (lowerCategory_normalizeMatches noFormat _))).
Defined.

(** C3 as stated fails: a record whose derived category is empty passes a
    category filter that its category does not contain. *)
Lemma filterMatches_keeps_empty_category :
  let ms := normalizeMatches noFormat [sampleMatch "Ajax - PSV" "" "2024-01-01"] in
  Forall lowerCategory ms
  /\ filterMatches ms "" "england" = ms
  /\ List.filter (passesAsSpecified "" "england") ms = []
  /\ filterMatches ms "" "england" <> List.filter (passesAsSpecified "" "england") ms.
Proof.
  split; [apply lowerCategory_normalizeMatches|].
  split; [reflexivity|]. split; [reflexivity|]. discriminate.
Qed.

(** ** Lookup by title *)

Lemma findFrom_None {U : strings.Unicode} k ms title :
  findFrom k ms title = None <-> Forall (fun m => titleMatches title m = false) ms.
Proof.
  revert k. induction ms as [|m ms IH]; intros k; simpl.
  - split; [constructor|done].
  - rewrite Forall_cons. unfold titleMatches at 1.
    destruct (String.eqb (Title m) title); simpl; [split; [done|intros [? _]; done]|].
    destruct (sameTitleFolded (Title m) title); simpl; [split; [done|intros [? _]; done]|].
    rewrite IH. tauto.
Qed.

Lemma findFrom_Some {U : strings.Unicode} k ms title i m :
  findFrom k ms title = Some (i, m) <->
  (k <= i)%nat /\ ms !! (i - k)%nat = Some m /\ titleMatches title m = true
  /\ forall j mj, (j < i - k)%nat -> ms !! j = Some mj -> titleMatches title mj = false.
Proof.
  revert k. induction ms as [|m0 ms IH]; intros k; simpl.
  - split; [done|]. intros (_ & H & _). done.
  - assert (Hhit : titleMatches title m0 = true ->
        (Some (k, m0) = Some (i, m) <->
         (k <= i)%nat /\ (m0 :: ms) !! (i - k)%nat = Some m /\ titleMatches title m = true
         /\ forall j mj, (j < i - k)%nat -> (m0 :: ms) !! j = Some mj ->
                         titleMatches title mj = false)).
    { intros Hm0. split.
      - intros [= <- <-]. rewrite Nat.sub_diag. repeat split; [lia|done|lia].
      - intros (Hk & Hi & Hm & Hbefore).
        destruct (i - k)%nat as [|d] eqn:Ed.
        + simpl in Hi. injection Hi as <-. f_equal. f_equal. lia.
        + specialize (Hbefore 0%nat m0 ltac:(lia) eq_refl). congruence. }
    unfold titleMatches in Hhit at 1.
    destruct (String.eqb (Title m0) title) eqn:E1; [by apply Hhit|].
    destruct (sameTitleFolded (Title m0) title) eqn:E2; [by apply Hhit|].
    clear Hhit. rewrite IH. split.
    + intros (Hk & Hi & Hm & Hbefore).
      replace (i - k)%nat with (S (i - S k)) by lia.
      repeat split; [lia|done|done|].
      intros [|j] mj Hj Hmj; simpl in Hmj.
      * injection Hmj as <-. unfold titleMatches. by rewrite E1, E2.
      * apply (Hbefore j); [lia|done].
    + intros (Hk & Hi & Hm & Hbefore).
      destruct (i - k)%nat as [|d] eqn:Ed.
      * simpl in Hi. injection Hi as <-. unfold titleMatches in Hm.
        by rewrite E1, E2 in Hm.
      * replace (i - S k)%nat with d by lia.
        repeat split; [lia|done|done|].
        intros j mj Hj Hmj. apply (Hbefore (S j)); [lia|done].
Qed.

Lemma EqualFold_refl s : EqualFold s s = true.
Proof. induction s as [|a s IH]; simpl; [done|]. by rewrite Ascii.eqb_refl. Qed.

(** C4 (amended). The lookup walks the list once and stops at the first
    record whose title is equal to the requested title or passes the
    normalised comparison ([strings.EqualFold] on the two titles with their
    [strings.Fields] joined by single spaces); it fails with NotFound exactly
    when no record answers either way.  As [strings.EqualFold] holds between
    a string and itself, an equal title also passes the normalised
    comparison, so the record found is the first one that passes the
    normalised comparison. *)
Theorem findMatch_first_match {U : strings.Unicode} :
  (forall matches title,
      findMatch matches title = None <->
      Forall (fun m => titleMatches title m = false) matches)
  /\ (forall matches title i m,
        findMatch matches title = Some (i, m) <->
        matches !! i = Some m /\ titleMatches title m = true
        /\ forall j mj, (j < i)%nat -> matches !! j = Some mj ->
                        titleMatches title mj = false)
  /\ (forall matches title,
        detail matches title = DetailNotFound <-> findMatch matches title = None)
  /\ ((forall s, EqualFold s s = true) ->
      forall title m, titleMatches title m = sameTitleFolded (Title m) title).
Proof.
  split; [intros; apply findFrom_None|].
  split.
  { intros ms title i m. unfold findMatch. rewrite findFrom_Some, Nat.sub_0_r.
    split; [tauto|]. intros H. split; [lia|tauto]. }
  split.
  { intros ms title. unfold detail.
    destruct (findMatch ms title) as [[i m]|]; [|done].
    destruct (Videos m); split; discriminate. }
  intros Hrefl title m. unfold titleMatches.
  destruct (String.eqb_spec (Title m) title) as [->|]; [|done].
  simpl. unfold sameTitleFolded. by rewrite Hrefl.
Qed.

Lemma findMatch_first_match_witness :
  findMatch [sampleMatch "Ajax - PSV" "" ""; sampleMatch "team a vs team b" "" ""]
            "Team A  vs Team B"
  = Some (1%nat, sampleMatch "team a vs team b" "" "").
Proof.
  apply (proj2 (proj1 (proj2 findMatch_first_match) _ _ _ _)).
  split; [reflexivity|]. split; [reflexivity|].
  intros [|[|j]] mj Hj Hmj; [|lia|lia].
  injection Hmj as <-. reflexivity.
Defined.

(** C4 as stated fails: an earlier record that passes only the normalised
    comparison is returned, although a later record has exactly the
    requested title. *)
Lemma findMatch_prefers_earlier_folded_match :
  let stored := sampleMatch "team a vs team b" "" "" in
  let exact := sampleMatch "Team A  vs Team B" "" "" in
  findMatch [stored; exact] "Team A  vs Team B" = Some (0%nat, stored)
  /\ lookupExactFirst [stored; exact] "Team A  vs Team B" = Some exact
  /\ Title stored <> "Team A  vs Team B"
  /\ Title exact = "Team A  vs Team B".
Proof. repeat split. discriminate. Qed.

(** ** The favourites cookie: toggling, encoding, decoding *)

Lemma mapIndex_true favs t : mapIndex favs t = true <-> favs !! t = Some true.
Proof.
  unfold mapIndex. destruct (favs !! t) as [[]|]; simpl; split; congruence.
Qed.

Lemma toggle_twice favs t : allTrue favs -> toggle (toggle favs t) t = favs.
Proof.
  intros Hall. unfold toggle at 2.
  destruct (mapIndex favs t) eqn:E.
  - apply mapIndex_true in E. unfold toggle, mapIndex.
    rewrite lookup_delete_eq. simpl. rewrite insert_delete_eq. by apply insert_id.
  - assert (Hnone : favs !! t = None).
    { destruct (favs !! t) as [b|] eqn:Eb; [|done].
      rewrite (Hall t b Eb) in Eb. apply mapIndex_true in Eb. congruence. }
    unfold toggle, mapIndex. rewrite lookup_insert_eq. simpl.
    rewrite delete_insert_eq. by apply delete_id.
Qed.

Lemma cleanTitles_allTrue {U : strings.Unicode} favs : cleanTitles favs -> allTrue favs.
Proof. intros Hc t b Hb. by destruct (Hc t b Hb) as (_ & _ & ->). Qed.

Lemma mapIndex_toggle_ne favs t u : t <> u -> mapIndex (toggle favs t) u = mapIndex favs u.
Proof.
  intros Hne. unfold toggle.
  destruct (mapIndex favs t); unfold mapIndex.
  - by rewrite lookup_delete_ne.
  - by rewrite lookup_insert_ne.
Qed.

Lemma toggle_commute favs t u : toggle (toggle favs t) u = toggle (toggle favs u) t.
Proof.
  destruct (decide (t = u)) as [->|Hne]; [done|].
  unfold toggle at 1 3.
  rewrite (mapIndex_toggle_ne favs t u Hne), (mapIndex_toggle_ne favs u t) by done.
  unfold toggle.
  destruct (mapIndex favs t), (mapIndex favs u).
  - apply delete_delete.
  - by rewrite delete_insert_ne.
  - by rewrite delete_insert_ne.
  - by apply insert_insert_ne.
Qed.

Lemma fold_toggle_Permutation ts ts' favs :
  ts ≡ₚ ts' -> fold_left toggle ts favs = fold_left toggle ts' favs.
Proof.
  intros Hp. revert favs.
  induction Hp as [|t ts ts' _ IH|t u ts|ts1 ts2 ts3 _ IH1 _ IH2]; intros favs; simpl.
  - done.
  - apply IH.
  - by rewrite toggle_commute.
  - by rewrite IH1, IH2.
Qed.

(** *** The sort yields the one ascending arrangement *)

Lemma ltb_false_le x y : String.ltb x y = false -> String.le y x.
Proof.
  unfold String.ltb, String.le, String.leb. intros H.
  rewrite String.compare_antisym.
  destruct (String.compare x y); simpl; done.
Qed.

Lemma ltb_true_le x y : String.ltb x y = true -> String.le x y.
Proof.
  unfold String.ltb, String.le, String.leb.
  destruct (String.compare x y); simpl; done.
Qed.

Lemma HdRel_insertBack x y r :
  String.le x y -> HdRel (flip String.le) y r ->
  HdRel (flip String.le) y (insertBack String.ltb x r).
Proof.
  intros Hxy Hr. destruct r as [|z r]; simpl.
  - by constructor.
  - destruct (String.ltb x z); constructor; [by inversion Hr|done].
Qed.

Lemma Sorted_insertBack x r :
  Sorted (flip String.le) r -> Sorted (flip String.le) (insertBack String.ltb x r).
Proof.
  induction 1 as [|y r Hr IH Hhd]; simpl.
  - by repeat constructor.
  - destruct (String.ltb x y) eqn:E.
    + constructor; [done|]. apply HdRel_insertBack; [by apply ltb_true_le|done].
    + constructor; [by constructor|]. constructor. by apply ltb_false_le.
Qed.

Lemma Sorted_fold_insertBack l acc :
  Sorted (flip String.le) acc ->
  Sorted (flip String.le) (fold_left (fun r x => insertBack String.ltb x r) l acc).
Proof.
  revert acc. induction l as [|x l IH]; intros acc Hacc; simpl; [done|].
  by apply IH, Sorted_insertBack.
Qed.

Lemma Sorted_sortStrings l : Sorted String.le (sortStrings l).
Proof.
  unfold sortStrings, sortSlice. rewrite rev_alt.
  apply (Sorted_reverse (flip String.le)), Sorted_fold_insertBack. constructor.
Qed.

Lemma sortStrings_Permutation l : sortStrings l ≡ₚ l.
Proof. apply sortSlice_Permutation. Qed.

Lemma sortStrings_order_free l l' : l ≡ₚ l' -> sortStrings l = sortStrings l'.
Proof.
  intros Hp. apply (Sorted_unique String.le); try apply Sorted_sortStrings.
  by rewrite !sortStrings_Permutation.
Qed.

(** *** Splitting undoes joining *)

Lemma Contains_byte_cons a s c :
  Contains (String a s) (String c "") = Ascii.eqb c a || Contains s (String c "").
Proof.
  simpl. destruct (ascii_dec c a) as [->|Hne].
  - rewrite Ascii.eqb_refl. by destruct s.
  - by rewrite (proj2 (Ascii.eqb_neq c a) Hne).
Qed.

Lemma Cut_None_inv s sep : Cut s sep = None -> Contains s (String sep "") = false.
Proof.
  induction s as [|a s IH]; [done|].
  rewrite Contains_byte_cons. cbn [Cut]. rewrite (Ascii.eqb_sym sep a).
  destruct (Ascii.eqb a sep); [done|].
  destruct (Cut s sep) as [[b r]|]; [done|]. intros _. by apply IH.
Qed.

Lemma Cut_Some_inv s sep before after :
  Cut s sep = Some (before, after) ->
  s = before +:+ String sep after
  /\ Contains before (String sep "") = false
  /\ (String.length after < String.length s)%nat.
Proof.
  revert before. induction s as [|a s IH]; intros before; [done|]. cbn [Cut].
  destruct (Ascii.eqb_spec a sep) as [->|Hne].
  - intros [= <- <-]. repeat split. simpl. lia.
  - destruct (Cut s sep) as [[b r]|]; [|done]. intros [= <- <-].
    destruct (IH b eq_refl) as (-> & Hb & Hlen). repeat split.
    + rewrite Contains_byte_cons, Hb.
      by rewrite (proj2 (Ascii.eqb_neq sep a)) by congruence.
    + simpl. lia.
Qed.

Lemma SplitN_pieces n s sep seg :
  (String.length s < n)%nat -> seg ∈ SplitN s sep n ->
  Contains seg (String sep "") = false.
Proof.
  revert s. induction n as [|n IH]; intros s Hlen; [lia|].
  cbn [SplitN]. destruct n as [|n'].
  { destruct s; [|simpl in Hlen; lia]. intros ->%list_elem_of_singleton. done. }
  destruct (Cut s sep) as [[b r]|] eqn:E.
  - apply Cut_Some_inv in E as (_ & Hb & Hr).
    intros [->|Hin]%elem_of_cons; [done|]. apply (IH r); [lia|done].
  - intros ->%list_elem_of_singleton. by apply Cut_None_inv.
Qed.

Lemma length_append s t :
  String.length (s +:+ t) = (String.length s + String.length t)%nat.
Proof. induction s as [|a s IH]; simpl; [done|]. by rewrite IH. Qed.

Lemma SplitN_Join l sep n :
  l <> [] -> Forall (fun t => Contains t (String sep "") = false) l ->
  (String.length (Join l (String sep "")) < n)%nat ->
  SplitN (Join l (String sep "")) sep n = l.
Proof.
  revert n. induction l as [|t l IH]; intros n Hne Hall Hlen; [done|].
  apply Forall_cons in Hall as [Ht Hl].
  destruct n as [|n]; [lia|]. destruct l as [|u l].
  - cbn [Join String.concat] in *. cbn [SplitN].
    destruct n; [done|]. by rewrite (Cut_none _ _ Ht).
  - change (Join (t :: u :: l) (String sep ""))
      with (t +:+ String sep (Join (u :: l) (String sep ""))) in *.
    rewrite length_append in Hlen. cbn [String.length] in Hlen.
    cbn [SplitN]. destruct n as [|n]; [lia|].
    rewrite (Cut_first _ _ _ Ht). f_equal. apply IH; [done|done|lia].
Qed.

Lemma Join_SplitN n s sep :
  (String.length s < n)%nat -> Join (SplitN s sep n) (String sep "") = s.
Proof.
  revert s. induction n as [|n IH]; intros s Hlen; [lia|].
  cbn [SplitN]. destruct n as [|n']; [done|].
  destruct (Cut s sep) as [[b r]|] eqn:E; [|done].
  apply Cut_Some_inv in E as (-> & _ & Hr).
  specialize (IH r ltac:(lia)).
  destruct (SplitN r sep (S n')) as [|p ps] eqn:Ep.
  - cbn [SplitN] in Ep. destruct n'; [done|]. by destruct (Cut r sep) as [[]|].
  - change (Join (b :: p :: ps) (String sep ""))
      with (b +:+ String sep (Join (p :: ps) (String sep ""))).
    by rewrite IH.
Qed.

(** The model of [strings.Split] cuts at every separator: joining the
    pieces gives the string back, and no piece holds a separator. *)
Lemma Split_sound s sep :
  Join (Split s sep) (String sep "") = s
  /\ Forall (fun seg => Contains seg (String sep "") = false) (Split s sep).
Proof.
  split.
  - apply Join_SplitN. lia.
  - apply Forall_forall. intros seg. apply SplitN_pieces. lia.
Qed.

Lemma barFree_trimLeft s : barFree s -> barFree (trimLeft s).
Proof.
  unfold barFree. induction s as [|a s IH]; [done|].
  intros H. cbn [trimLeft]. destruct (isSpace a); [|done].
  rewrite Contains_byte_cons in H. apply orb_false_iff in H as [_ H]. by apply IH.
Qed.

Lemma barFree_trimRight s : barFree s -> barFree (trimRight s).
Proof.
  unfold barFree. induction s as [|a s IH]; [done|].
  rewrite Contains_byte_cons. intros [Ha Hs]%orb_false_iff. cbn [trimRight].
  specialize (IH Hs). destruct (trimRight s) as [|b r].
  - destruct (isSpace a); [done|]. by rewrite Contains_byte_cons, Ha.
  - by rewrite Contains_byte_cons, Ha, IH.
Qed.

Lemma barFree_TrimSpace s : barFree s -> barFree (TrimSpace s).
Proof. intros H. by apply barFree_trimRight, barFree_trimLeft. Qed.

Lemma getFavorites_barFree {U : strings.Unicode} cookie t :
  (forall s, barFree s -> barFree (TrimSpace s)) ->
  is_Some (getFavorites cookie !! t) -> barFree t.
Proof.
  intros Hbar. destruct cookie as [value|]; simpl.
  - rewrite lookup_fold_addSegment, lookup_empty.
    intros [[? [=]]|(_ & seg & Hin & <-)]. apply Hbar.
    by apply (proj1 (Forall_forall _ _) (proj2 (Split_sound value "|"))).
  - rewrite lookup_empty. by intros [? [=]].
Qed.

(** *** Decoding undoes encoding *)

Lemma elem_of_rangeKeys favs t : t ∈ rangeKeys favs <-> is_Some (favs !! t).
Proof.
  unfold rangeKeys. rewrite list_elem_of_fmap. split.
  - intros ([k b] & -> & Hin). apply elem_of_map_to_list in Hin. by exists b.
  - intros [b Hb]. exists (t, b). split; [done|]. by apply elem_of_map_to_list.
Qed.

Lemma allTrue_eq m1 m2 :
  allTrue m1 -> allTrue m2 ->
  (forall t, is_Some (m1 !! t) <-> is_Some (m2 !! t)) -> m1 = m2.
Proof.
  intros H1 H2 Hdom. apply map_eq. intros t.
  destruct (m1 !! t) as [b1|] eqn:E1, (m2 !! t) as [b2|] eqn:E2.
  - by rewrite (H1 t b1 E1), (H2 t b2 E2).
  - assert (is_Some (m2 !! t)) as [? ?] by (apply Hdom; by rewrite E1). congruence.
  - assert (is_Some (m1 !! t)) as [? ?] by (apply Hdom; by rewrite E2). congruence.
  - done.
Qed.

Lemma decode_encode {U : strings.Unicode} favs :
  (forall s, TrimSpace (TrimSpace s) = TrimSpace s) -> TrimSpace "" = "" ->
  cleanTitles favs -> (forall t, is_Some (favs !! t) -> barFree t) ->
  getFavorites (Some (Value (saveFavorites favs))) = favs.
Proof.
  intros Hidem Hnil Hc Hbar.
  apply allTrue_eq;
    [by apply cleanTitles_allTrue, cleanTitles_getFavorites
    |by apply cleanTitles_allTrue|].
  intros t. cbn [getFavorites saveFavorites favoritesCookie Value].
  rewrite lookup_fold_addSegment, lookup_empty.
  assert (Hkeys : forall u, u ∈ sortStrings (rangeKeys favs) <-> is_Some (favs !! u)).
  { intros u. by rewrite sortStrings_Permutation, elem_of_rangeKeys. }
  destruct (sortStrings (rangeKeys favs)) as [|k ks] eqn:Ek.
  - split.
    + intros [[? [=]]|(Hne & seg & Hin & Hseg)].
      cbn in Hin. apply list_elem_of_singleton in Hin. subst seg. congruence.
    + intros Hs%Hkeys. by apply elem_of_nil in Hs.
  - unfold Split. rewrite SplitN_Join; [|done| |lia].
    2:{ apply Forall_forall. intros u Hu%Hkeys. by apply Hbar. }
    split.
    + intros [[? [=]]|(Hne & seg & Hin%Hkeys & <-)].
      destruct Hin as [b Hb]. destruct (Hc seg b Hb) as (_ & -> & _). by exists b.
    + intros [b Hb]. right. destruct (Hc t b Hb) as (Hne & Ht & _).
      split; [done|]. exists t. split; [|done]. apply Hkeys. by exists b.
Qed.

(** C5. Toggling the same title twice gives the Favorite Set back; decoding
    and encoding a cookie value a second time changes nothing; the cookie
    value is the ascending list of the titles of the set joined by bars, the
    same for every order in which the map is ranged over and for every order
    in which the titles were toggled. *)
Theorem favorites_round_trip :
  (forall favs t, allTrue favs -> toggle (toggle favs t) t = favs)
  /\ (forall cookie t,
        toggle (toggle (getFavorites cookie) t) t = getFavorites cookie)
  /\ (forall value, reencode (reencode value) = reencode value)
  /\ (forall cookie,
        getFavorites (Some (Value (saveFavorites (getFavorites cookie))))
        = getFavorites cookie)
  /\ (forall favs order,
        order ≡ₚ rangeKeys favs -> favoritesCookie order = saveFavorites favs)
  /\ (forall favs, exists titles,
        Value (saveFavorites favs) = Join titles "|"
        /\ Sorted String.le titles /\ NoDup titles
        /\ forall t, t ∈ titles <-> is_Some (favs !! t))
  /\ (forall favs ts ts',
        ts ≡ₚ ts' ->
        saveFavorites (fold_left toggle ts favs)
        = saveFavorites (fold_left toggle ts' favs)).
Proof.
  assert (Hround : forall cookie,
    getFavorites (Some (Value (saveFavorites (getFavorites cookie))))
    = getFavorites cookie).
  { intros cookie. apply decode_encode; [exact TrimSpace_idem|reflexivity| |].
    - apply cleanTitles_getFavorites, TrimSpace_idem.
    - intros t. apply getFavorites_barFree, barFree_TrimSpace. }
  split; [exact toggle_twice|].
  split.
  { intros cookie t.
    apply toggle_twice, cleanTitles_allTrue, cleanTitles_getFavorites, TrimSpace_idem. }
  split.
  { intros value. unfold reencode. by rewrite Hround. }
  split; [exact Hround|].
  split.
  { intros favs order Hp. unfold saveFavorites, favoritesCookie.
    by rewrite (sortStrings_order_free _ _ Hp). }
  split.
  { intros favs. exists (sortStrings (rangeKeys favs)).
    split; [reflexivity|]. split; [apply Sorted_sortStrings|]. split.
    - rewrite sortStrings_Permutation. apply NoDup_fst_map_to_list.
    - intros t. by rewrite sortStrings_Permutation, elem_of_rangeKeys. }
  intros favs ts ts' Hp. by rewrite (fold_toggle_Permutation _ _ _ Hp).
Qed.

Lemma favorites_round_trip_witness :
  toggle (toggle (getFavorites (Some " b | a |b")) "c") "c"
  = getFavorites (Some " b | a |b")
  /\ Value (saveFavorites (fold_left toggle ["b"; "a"] ∅))
     = Value (saveFavorites (fold_left toggle ["a"; "b"] ∅))
  /\ reencode " b | a |b" = "a|b".
Proof.
  split; [|split].
  - apply (proj1 favorites_round_trip).
    apply cleanTitles_allTrue, cleanTitles_getFavorites, TrimSpace_idem.
  - refine (f_equal Value
      (proj2 (proj2 (proj2 (proj2 (proj2 (proj2 favorites_round_trip)))))
         ∅ ["b"; "a"] ["a"; "b"] _)).
    apply Permutation_swap.
  - vm_compute. reflexivity.
Defined.

(** ** The match cache *)

Lemma saturate_mono a b : a <= b -> saturate a <= saturate b.
Proof.
  unfold saturate, Int.min_int, Int.max_int. intros H.
  repeat match goal with
         | |- context [?x <? ?y] => destruct (Z.ltb_spec x y)
         | |- context [?x >? ?y] => destruct (Z.gtb_spec x y)
         end; lia.
Qed.

Lemma saturate_below d bound :
  d < bound -> bound <= Int.max_int -> Int.min_int < bound -> saturate d < bound.
Proof.
  unfold saturate, Int.min_int, Int.max_int. intros H1 H2 H3.
  repeat match goal with
         | |- context [?x <? ?y] => destruct (Z.ltb_spec x y)
         | |- context [?x >? ?y] => destruct (Z.gtb_spec x y)
         end; lia.
Qed.

Lemma Since_mono t now now' : now <= now' -> Since now t <= Since now' t.
Proof. intros H. apply saturate_mono. lia. Qed.

Lemma Since_within now t : now - t < cacheTTL -> Since now t < cacheTTL.
Proof. intros H. apply saturate_below; [done| |]; vm_compute; congruence. Qed.

Lemma isFresh_true now w :
  isFresh now w = true <->
  Since now (cachedAt w) < cacheTTL /\ (0 < len (cachedMatch w))%nat.
Proof.
  unfold isFresh. rewrite andb_true_iff, Z.ltb_lt, Nat.ltb_lt. done.
Qed.

Lemma isFresh_false now w :
  isFresh now w = false <->
  cacheTTL <= Since now (cachedAt w) \/ len (cachedMatch w) = 0%nat.
Proof.
  unfold isFresh. rewrite andb_false_iff, Z.ltb_ge, Nat.ltb_ge. lia.
Qed.

Lemma isFresh_stays_false w now now' :
  isFresh now w = false -> now <= now' -> isFresh now' w = false.
Proof.
  rewrite !isFresh_false. intros [H|H] Hle; [left|by right].
  pose proof (Since_mono (cachedAt w) now now' Hle). lia.
Qed.

Lemma isFresh_countCall now w : isFresh now (countCall w) = isFresh now w.
Proof. reflexivity. Qed.

Lemma read_insert_ne h a arr s : ptr s <> a -> read (<[a := arr]> h) s = read h s.
Proof. intros Hne. unfold read. by rewrite lookup_insert_ne. Qed.

Lemma read_insert_eq h a arr n :
  n = length arr -> read (<[a := arr]> h) (mkSlice a n) = arr.
Proof. intros ->. unfold read. simpl. rewrite lookup_insert_eq. simpl. by apply take_ge. Qed.

Lemma cloneMatches_calls src w :
  cachedAt (cloneMatches src w).2 = cachedAt w
  /\ cachedMatch (cloneMatches src w).2 = cachedMatch w
  /\ upstreamCalls (cloneMatches src w).2 = upstreamCalls w
  /\ brk (cloneMatches src w).2 = S (brk w)
  /\ (cloneMatches src w).1 = mkSlice (brk w) (len src).
Proof. done. Qed.

(** Cloning a slice that lies within its array allocates one array with the
    elements of the slice. *)
Lemma cloneMatches_eq src w :
  ptr src <> brk w -> length (read (heap w) src) = len src ->
  cloneMatches src w =
  (mkSlice (brk w) (len src),
   mkWorld (<[brk w := read (heap w) src]> (heap w)) (S (brk w))
           (cachedAt w) (cachedMatch w) (upstreamCalls w)).
Proof.
  intros Hne Hlen. unfold cloneMatches, make, copy, set_heap. cbn.
  f_equal. f_equal.
  rewrite alter_insert_eq, read_insert_ne by done.
  rewrite Nat.min_id, take_ge by lia. rewrite Hlen.
  rewrite drop_ge by (rewrite length_replicate; lia).
  by rewrite app_nil_r.
Qed.

(** A decoded answer is normalised, stored and cloned: two arrays with the
    normalised records, the first one cached. *)
Lemma refresh_Decoded {U : strings.Unicode} fmt response now w :
  refresh fmt (Decoded response) now w =
  (inr (mkSlice (S (brk w)) (length response)),
   mkWorld (<[S (brk w) := normalizeMatches fmt response]>
              (<[brk w := normalizeMatches fmt response]> (heap w)))
           (S (S (brk w))) now (mkSlice (brk w) (length response))
           (upstreamCalls w)).
Proof.
  unfold refresh, decodeInto, normalizeInPlace, set_heap.
  cbn [heap ptr len brk cachedAt cachedMatch upstreamCalls].
  rewrite alter_insert_eq.
  rewrite take_ge, drop_ge, app_nil_r by lia.
  rewrite cloneMatches_eq; cbn [heap ptr len brk cachedAt cachedMatch upstreamCalls].
  - rewrite read_insert_eq by (by rewrite normalizeMatches_length). done.
  - lia.
  - rewrite read_insert_eq by (by rewrite normalizeMatches_length).
    apply normalizeMatches_length.
Qed.

Lemma fetchMatches_hit {U : strings.Unicode} fmt env w :
  isFresh (nowCheck env) w = true ->
  fetchMatches fmt env w =
  (inr (cloneMatches (cachedMatch w) w).1, (cloneMatches (cachedMatch w) w).2).
Proof. intros H. unfold fetchMatches. by rewrite H. Qed.

Lemma fetchMatches_miss {U : strings.Unicode} fmt env w :
  isFresh (nowCheck env) w = false ->
  fetchMatches fmt env w = refresh fmt (upstream env) (nowStore env) (countCall w).
Proof. intros H. unfold fetchMatches. by rewrite H. Qed.

Lemma fetchAll_fresh {U : strings.Unicode} fmt envs w t0 :
  cachedAt w = t0 -> (0 < len (cachedMatch w))%nat ->
  Forall (fun e => Since (nowCheck e) t0 < cacheTTL) envs ->
  upstreamCalls (fetchAll fmt envs w).2 = upstreamCalls w
  /\ cachedAt (fetchAll fmt envs w).2 = t0
  /\ cachedMatch (fetchAll fmt envs w).2 = cachedMatch w
  /\ Forall (fun r => isOk r = true) (fetchAll fmt envs w).1.
Proof.
  intros Ht Hlen Hall. revert w Ht Hlen.
  induction Hall as [|e envs He _ IH]; intros w Ht Hlen; [done|].
  cbn [fetchAll].
  assert (Hfresh : isFresh (nowCheck e) w = true).
  { apply isFresh_true. by rewrite Ht. }
  rewrite (fetchMatches_hit _ _ _ Hfresh).
  destruct (cloneMatches_calls (cachedMatch w) w) as (E1 & E2 & E3 & _).
  specialize (IH (cloneMatches (cachedMatch w) w).2).
  destruct (fetchAll fmt envs (cloneMatches (cachedMatch w) w).2) as [rs w2].
  cbn [fst snd] in *. destruct IH as (I1 & I2 & I3 & I4); [congruence|by rewrite E2|].
  repeat split; [congruence|done|congruence|]. by constructor.
Qed.

(** C1 (amended). After a fetch that succeeded with at least one record,
    every sequence of calls of [fetchMatches] made less than the TTL after
    the snapshot was stored issues no upstream call and succeeds; the first
    call made once the TTL has elapsed issues exactly one upstream call. *)
Theorem cache_ttl {U : strings.Unicode} fmt w env0 response :
  isFresh (nowCheck env0) w = false ->
  upstream env0 = Decoded response ->
  response <> [] ->
  let w1 := (fetchMatches fmt env0 w).2 in
  isOk (fetchMatches fmt env0 w).1 = true
  /\ upstreamCalls w1 = S (upstreamCalls w)
  /\ cachedAt w1 = nowStore env0
  /\ forall envs,
       Forall (fun e => Since (nowCheck e) (nowStore env0) < cacheTTL) envs ->
       let w2 := (fetchAll fmt envs w1).2 in
       upstreamCalls w2 = upstreamCalls w1
       /\ Forall (fun r => isOk r = true) (fetchAll fmt envs w1).1
       /\ cachedAt w2 = cachedAt w1 /\ cachedMatch w2 = cachedMatch w1
       /\ forall e,
            cacheTTL <= Since (nowCheck e) (nowStore env0) ->
            upstreamCalls (fetchMatches fmt e w2).2 = S (upstreamCalls w1).
Proof.
  intros Hmiss Hup Hne. cbv zeta.
  rewrite (fetchMatches_miss _ _ _ Hmiss), Hup, refresh_Decoded.
  cbn [fst snd isOk upstreamCalls cachedAt countCall].
  split; [done|]. split; [done|]. split; [done|].
  intros envs Hall.
  match goal with |- context [fetchAll fmt envs ?w1] => set (w1' := w1) end.
  destruct (fetchAll_fresh fmt envs w1' (nowStore env0)) as (F1 & F2 & F3 & F4);
    [done| |done|].
  { unfold w1'. cbn [cachedMatch len]. destruct response; [done|cbn; lia]. }
  split; [exact F1|]. split; [exact F4|]. split; [exact F2|]. split; [exact F3|].
  intros e He.
  rewrite fetchMatches_miss.
  - destruct (upstream e).
    + cbn. by rewrite F1.
    + cbn. by rewrite F1.
    + rewrite refresh_Decoded. cbn. by rewrite F1.
  - apply isFresh_false. left. by rewrite F2.
Qed.

Lemma cache_ttl_witness :
  let env0 := mkEnv 0 (Decoded [sampleMatch "A - B" "ENGLAND: Cup" "2024-01-03"]) 5 in
  let w1 := (fetchMatches noFormat env0 initWorld).2 in
  let within := [mkEnv 10 (GetError "down") 11; mkEnv (cacheTTL + 4) (GetError "down") 12] in
  upstreamCalls w1 = 1%nat
  /\ upstreamCalls (fetchAll noFormat within w1).2 = 1%nat
  /\ upstreamCalls
       (fetchMatches noFormat (mkEnv (cacheTTL + 5) (Decoded []) (cacheTTL + 6))
                     (fetchAll noFormat within w1).2).2 = 2%nat.
Proof.
  pose proof (cache_ttl noFormat initWorld
    (mkEnv 0 (Decoded [sampleMatch "A - B" "ENGLAND: Cup" "2024-01-03"]) 5)
    [sampleMatch "A - B" "ENGLAND: Cup" "2024-01-03"]
    eq_refl eq_refl ltac:(discriminate)) as (_ & H1 & _ & H2).
  specialize (H2 [mkEnv 10 (GetError "down") 11; mkEnv (cacheTTL + 4) (GetError "down") 12]
                 ltac:(repeat constructor)).
  destruct H2 as (H2 & _ & _ & _ & H3).
  specialize (H3 (mkEnv (cacheTTL + 5) (Decoded []) (cacheTTL + 6)) ltac:(vm_compute; congruence)).
  cbv zeta. split; [exact H1|]. split; [exact H2|exact H3].
Defined.

(** C1 as stated fails: a fetch that succeeds with no record leaves the cache
    empty, and the next call, however soon, goes upstream again. *)
Lemma empty_snapshot_is_refetched :
  let env0 := mkEnv 0 (Decoded []) 0 in
  let w1 := (fetchMatches noFormat env0 initWorld).2 in
  let next := mkEnv 1 (Decoded []) 1 in
  isOk (fetchMatches noFormat env0 initWorld).1 = true
  /\ upstreamCalls w1 = 1%nat
  /\ Since (nowCheck next) (cachedAt w1) < cacheTTL
  /\ upstreamCalls (fetchMatches noFormat next w1).2 = 2%nat.
Proof. vm_compute. repeat split. Qed.

(** C7. When the cache is stale or empty and the provider cannot be reached
    or its answer cannot be decoded, [fetchMatches] and
    [loadMatchesWithFavorites] return that error and no records; the arrays,
    [cachedAt] and [cachedMatch] are as before; and every later call finds
    the cache stale or empty again and goes upstream. *)
Theorem failed_fetch_leaves_cache {U : strings.Unicode} fmt cookie w env :
  isFresh (nowCheck env) w = false ->
  upstreamFails (upstream env) = true ->
  let r := fetchMatches fmt env w in
  (exists err, errorOf (upstream env) = Some err
               /\ r.1 = inl err
               /\ (loadMatchesWithFavorites fmt cookie env w).1 = inl err)
  /\ (loadMatchesWithFavorites fmt cookie env w).2 = r.2
  /\ heap r.2 = heap w /\ brk r.2 = brk w
  /\ cachedAt r.2 = cachedAt w /\ cachedMatch r.2 = cachedMatch w
  /\ upstreamCalls r.2 = S (upstreamCalls w)
  /\ forall env',
       nowCheck env <= nowCheck env' ->
       isFresh (nowCheck env') r.2 = false
       /\ upstreamCalls (fetchMatches fmt env' r.2).2 = S (S (upstreamCalls w)).
Proof.
  intros Hmiss Hfail. cbv zeta.
  unfold loadMatchesWithFavorites.
  rewrite (fetchMatches_miss _ _ _ Hmiss).
  assert (Hr : exists err, errorOf (upstream env) = Some err
                 /\ refresh fmt (upstream env) (nowStore env) (countCall w)
                    = (inl err, countCall w)).
  { destruct (upstream env); [eexists; split; reflexivity..|discriminate]. }
  destruct Hr as (err & Herr & ->). cbn [fst snd].
  split; [by exists err|].
  do 6 (split; [reflexivity|]).
  intros env' Hle.
  assert (Hmiss' : isFresh (nowCheck env') (countCall w) = false).
  { rewrite isFresh_countCall. by apply (isFresh_stays_false w (nowCheck env)). }
  split; [exact Hmiss'|].
  rewrite (fetchMatches_miss _ _ _ Hmiss').
  destruct (upstream env'); [reflexivity..|]. by rewrite refresh_Decoded.
Qed.

Lemma failed_fetch_leaves_cache_witness :
  let env0 := mkEnv 0 (Decoded [sampleMatch "A - B" "ENGLAND: Cup" "2024-01-03"]) 5 in
  let w1 := (fetchMatches noFormat env0 initWorld).2 in
  let env := mkEnv (cacheTTL + 5) (DecodeError "unexpected EOF") (cacheTTL + 6) in
  (fetchMatches noFormat env w1).1 = inl (UpstreamMalformed "unexpected EOF")
  /\ cachedAt (fetchMatches noFormat env w1).2 = 5
  /\ cachedMatch (fetchMatches noFormat env w1).2 = cachedMatch w1
  /\ heap (fetchMatches noFormat env w1).2 = heap w1.
Proof.
  pose proof (failed_fetch_leaves_cache noFormat None
    (fetchMatches noFormat
       (mkEnv 0 (Decoded [sampleMatch "A - B" "ENGLAND: Cup" "2024-01-03"]) 5) initWorld).2
    (mkEnv (cacheTTL + 5) (DecodeError "unexpected EOF") (cacheTTL + 6))
    eq_refl eq_refl) as ((err & Herr & Hres & _) & _ & Hheap & _ & Hat & Hcm & _).
  injection Herr as <-.
  cbv zeta. split; [exact Hres|]. split; [exact Hat|]. split; [exact Hcm|exact Hheap].
Defined.

(** ** The cache hands out copies *)

Lemma wf_initWorld : wf initWorld.
Proof. split; [cbn; lia|]. split; [done|]. intros a _. apply lookup_empty. Qed.

Lemma wf_countCall w : wf w -> wf (countCall w).
Proof. done. Qed.

Lemma wf_clone w : wf w -> wf (cloneMatches (cachedMatch w) w).2.
Proof.
  intros (Hptr & Hlen & Hfree).
  rewrite cloneMatches_eq by (done || lia). cbn [snd].
  split; [cbn; lia|]. split; cbn [heap cachedMatch brk].
  - rewrite read_insert_ne by lia. done.
  - intros a Ha. rewrite lookup_insert_ne by lia. apply Hfree. lia.
Qed.

Lemma wf_refresh {U : strings.Unicode} fmt up now w : wf w -> wf (refresh fmt up now w).2.
Proof.
  intros Hw. destruct up as [msg|msg|response]; [done..|].
  destruct Hw as (Hptr & Hlen & Hfree).
  rewrite refresh_Decoded. cbn [snd].
  split; [cbn; lia|]. split; cbn [heap cachedMatch brk].
  - rewrite read_insert_ne by (cbn; lia).
    rewrite read_insert_eq by (by rewrite normalizeMatches_length).
    apply normalizeMatches_length.
  - intros a Ha. rewrite !lookup_insert_ne by lia. apply Hfree. lia.
Qed.

Create HintDb store.
#[local] Hint Resolve wf_initWorld wf_countCall wf_clone wf_refresh : store.

Lemma wf_fetchMatches {U : strings.Unicode} fmt env w : wf w -> wf (fetchMatches fmt env w).2.
Proof.
  intros Hw. destruct (isFresh (nowCheck env) w) eqn:E.
  - rewrite (fetchMatches_hit _ _ _ E). cbn [snd]. auto with store.
  - rewrite (fetchMatches_miss _ _ _ E). auto with store.
Qed.

(** What a successful [fetchMatches] returns: a new array that holds the
    cached records. *)
Lemma fetchMatches_copy {U : strings.Unicode} fmt env w s w1 :
  wf w -> fetchMatches fmt env w = (inr s, w1) ->
  heap w !! ptr s = None
  /\ ptr s <> ptr (cachedMatch w1)
  /\ length (read (heap w1) s) = len s
  /\ read (heap w1) s = read (heap w1) (cachedMatch w1)
  /\ (isFresh (nowCheck env) w = true ->
      cachedMatch w1 = cachedMatch w /\ cachedAt w1 = cachedAt w
      /\ read (heap w1) (cachedMatch w1) = read (heap w) (cachedMatch w))
  /\ (forall response,
        isFresh (nowCheck env) w = false -> upstream env = Decoded response ->
        read (heap w1) (cachedMatch w1) = normalizeMatches fmt response).
Proof.
  intros (Hptr & Hlen & Hfree). destruct (isFresh (nowCheck env) w) eqn:E.
  - rewrite (fetchMatches_hit _ _ _ E), cloneMatches_eq by (done || lia).
    cbn [fst snd]. intros [= <- <-]. cbn [ptr len heap cachedMatch cachedAt].
    rewrite read_insert_eq by done. rewrite read_insert_ne by lia.
    split; [by apply Hfree|]. split; [lia|]. by repeat split.
  - rewrite (fetchMatches_miss _ _ _ E).
    destruct (upstream env) as [msg|msg|response]; [done..|].
    rewrite refresh_Decoded. intros [= <- <-].
    cbn [ptr len heap cachedMatch cachedAt].
    rewrite read_insert_eq by (by rewrite normalizeMatches_length).
    rewrite read_insert_ne by (cbn; lia).
    rewrite read_insert_eq by (by rewrite normalizeMatches_length).
    split; [apply Hfree; cbn; lia|]. split; [lia|].
    split; [apply normalizeMatches_length|]. split; [done|].
    split; [done|]. by intros ? _ [= ->].
Qed.

Lemma set_heap_id w : set_heap (heap w) w = w.
Proof. by destruct w. Qed.

Lemma fold_annotateAt favs s idxs w :
  fold_left (annotateAt favs s) idxs w =
  set_heap (alter (fun arr => fold_left (fun l i => alter (annotate favs) i l) idxs arr)
                  (ptr s) (heap w)) w.
Proof.
  revert w. induction idxs as [|i idxs IH]; intros w; cbn [fold_left].
  - by rewrite alter_id, set_heap_id by done.
  - rewrite IH. unfold annotateAt, set_heap. cbn [heap brk cachedAt cachedMatch upstreamCalls].
    f_equal. apply alter_alter_eq.
Qed.

Lemma fold_alter_seq {A} (f : A -> A) (l : list A) n :
  (n <= length l)%nat ->
  fold_left (fun l i => alter f i l) (seq 0 n) l = map f (take n l) ++ drop n l.
Proof.
  induction n as [|n IH]; intros Hn; [done|].
  rewrite seq_S, fold_left_app, IH by lia. cbn [fold_left Nat.add].
  destruct (lookup_lt_is_Some_2 l n ltac:(lia)) as [x Hx].
  rewrite (take_S_r _ _ _ Hx), (drop_S _ _ _ Hx), map_app.
  rewrite alter_app_r_alt by (rewrite length_map, length_take; lia).
  rewrite length_map, length_take, Nat.min_l, Nat.sub_diag by lia.
  cbn. by rewrite <- app_assoc.
Qed.

(** The loop of [loadMatchesWithFavorites] rewrites the array of its slice
    and nothing else. *)
Lemma annotate_frame favs s w1 :
  length (read (heap w1) s) = len s ->
  let w' := fold_left (annotateAt favs s) (seq 0 (len s)) w1 in
  cachedMatch w' = cachedMatch w1 /\ cachedAt w' = cachedAt w1
  /\ brk w' = brk w1 /\ upstreamCalls w' = upstreamCalls w1
  /\ read (heap w') s = map (annotate favs) (read (heap w1) s)
  /\ (forall a, a <> ptr s -> heap w' !! a = heap w1 !! a).
Proof.
  intros Hlen. cbv zeta. rewrite fold_annotateAt.
  unfold set_heap. cbn [heap brk cachedAt cachedMatch upstreamCalls].
  do 4 (split; [reflexivity|]). split.
  - unfold read in *. rewrite lookup_alter_eq.
    destruct (heap w1 !! ptr s) as [arr|] eqn:E; cbn [fmap option_fmap option_map default from_option id] in *.
    + rewrite length_take in Hlen.
      rewrite fold_alter_seq by lia.
      rewrite take_app_le by (rewrite length_map, length_take; lia).
      rewrite take_ge by (rewrite length_map, length_take; lia). done.
    + by rewrite !take_nil.
  - intros a Ha. by rewrite lookup_alter_ne.
Qed.

(** C8. A successful [fetchMatches] returns a newly allocated array with the
    cached records, never the cached slice; [loadMatchesWithFavorites] sets
    the favourite flags in that array, and [cachedMatch], [cachedAt] and the
    records of the cache are the same before and after the annotation. *)
Theorem cache_hands_out_copies {U : strings.Unicode} fmt cookie env w s w' :
  wf w ->
  loadMatchesWithFavorites fmt cookie env w = (inr s, w') ->
  let w1 := (fetchMatches fmt env w).2 in
  (fetchMatches fmt env w).1 = inr s
  /\ heap w !! ptr s = None
  /\ ptr s <> ptr (cachedMatch w1)
  /\ read (heap w1) s = read (heap w1) (cachedMatch w1)
  /\ read (heap w') s = map (annotate (getFavorites cookie)) (read (heap w1) s)
  /\ cachedMatch w' = cachedMatch w1 /\ cachedAt w' = cachedAt w1
  /\ read (heap w') (cachedMatch w') = read (heap w1) (cachedMatch w1)
  /\ (isFresh (nowCheck env) w = true ->
      cachedMatch w' = cachedMatch w /\ cachedAt w' = cachedAt w
      /\ read (heap w') (cachedMatch w') = read (heap w) (cachedMatch w))
  /\ wf w'.
Proof.
  intros Hw. unfold loadMatchesWithFavorites.
  pose proof (wf_fetchMatches fmt env w Hw) as Hw1.
  destruct (fetchMatches fmt env w) as [[err|s1] w1] eqn:Ef; [done|].
  intros [= <- <-]. cbn [fst snd] in *.
  destruct (fetchMatches_copy fmt env w s1 w1 Hw Ef)
    as (Hnew & Hne & Hlen & Hcopy & Hhit & _).
  destruct (annotate_frame (getFavorites cookie) s1 w1 Hlen)
    as (Ecm & Eat & Ebrk & _ & Eread & Eframe).
  assert (Ecache : read (heap (fold_left (annotateAt (getFavorites cookie) s1)
                                 (seq 0 (len s1)) w1))
                     (cachedMatch w1) = read (heap w1) (cachedMatch w1)).
  { unfold read. rewrite Eframe by congruence. done. }
  split; [done|]. split; [done|]. split; [done|]. split; [done|].
  split; [done|]. split; [done|]. split; [done|].
  split; [by rewrite Ecm|]. split.
  - intros E. destruct (Hhit E) as (H1 & H2 & H3).
    rewrite Ecm, Eat. split; [done|]. split; [done|]. by rewrite <- H3.
  - destruct Hw1 as (Hptr & Hl & Hfree).
    split; [by rewrite Ecm, Ebrk|]. split.
    + by rewrite Ecm, Ecache.
    + intros a Ha. rewrite Ebrk in Ha.
      destruct (decide (a = ptr s1)) as [->|Hna]; [|rewrite Eframe by done; by apply Hfree].
      pose proof (Hfree _ Ha) as Hnone.
      unfold read in Hlen. rewrite Hnone in Hlen. cbn in Hlen.
      rewrite take_nil in Hlen. cbn in Hlen.
      rewrite fold_annotateAt. unfold set_heap. cbn [heap].
      rewrite lookup_alter_eq, Hnone. done.
Qed.

Lemma cache_hands_out_copies_witness :
  let stored := sampleMatch "A - B" "ENGLAND: Cup" "2024-01-03" in
  let env := mkEnv 0 (Decoded [stored]) 5 in
  let r := loadMatchesWithFavorites noFormat (Some "A - B") env initWorld in
  exists s, r.1 = inr s
    /\ read (heap r.2) s = [set_IsFavorite true (normalizeMatch noFormat stored)]
    /\ read (heap r.2) (cachedMatch r.2) = [normalizeMatch noFormat stored].
Proof.
  cbv zeta.
  destruct (loadMatchesWithFavorites noFormat (Some "A - B")
              (mkEnv 0 (Decoded [sampleMatch "A - B" "ENGLAND: Cup" "2024-01-03"]) 5)
              initWorld) as [[err|s] w'] eqn:E; [discriminate E|].
  exists s. split; [reflexivity|].
  destruct (cache_hands_out_copies noFormat (Some "A - B")
              (mkEnv 0 (Decoded [sampleMatch "A - B" "ENGLAND: Cup" "2024-01-03"]) 5)
              initWorld s w' wf_initWorld E)
    as (_ & _ & _ & Hcopy & Hann & _ & _ & Hcache & _).
  cbn [snd]. split.
  - rewrite Hann, Hcopy. reflexivity.
  - rewrite Hcache. reflexivity.
Defined.

(** ** Callers that run at the same time *)

(** Case analysis on the state of the thread that an event names; the cases
    in which [step] refuses the event are closed. *)
Ltac thread_at s i Hi :=
  destruct (pcs s !! i) as [[| | |?r]|] eqn:Hi; try done.

Lemma exec_invariant {U : strings.Unicode} fmt (P : Sys -> Prop) (Q : Event -> Prop) :
  (forall s ev s', P s -> Q ev -> step fmt ev s = Some s' -> P s') ->
  forall evs s s', P s -> Forall Q evs -> exec fmt evs s = Some s' -> P s'.
Proof.
  intros Hstep evs. induction evs as [|ev evs IH]; intros s s' Hs Hall; cbn [exec].
  - by intros [= <-].
  - apply Forall_cons in Hall as [Hev Hall].
    destruct (step fmt ev s) as [s1|] eqn:E; [|done].
    apply IH; [by apply (Hstep s ev)|done].
Qed.

Lemma lockInv_start n w : lockInv (start n w).
Proof.
  intros i p Hp. cbn in Hp. apply lookup_replicate in Hp as [-> _].
  cbn. split; discriminate.
Qed.

Lemma lockInv_unlock s i p r w1 :
  lockInv s -> pcs s !! i = Some p -> holdsLock p = true ->
  lockInv (mkSys w1 None (<[i := Done r]> (pcs s))).
Proof.
  intros Hinv Hi Hp j q. cbn [pcs cacheMu].
  pose proof (proj1 (Hinv i p Hi) Hp) as Hmu.
  destruct (decide (j = i)) as [->|Hne].
  - rewrite list_lookup_insert_eq by (by eapply lookup_lt_Some).
    intros [= <-]. cbn. split; discriminate.
  - rewrite list_lookup_insert_ne by done. intros Hq.
    split; [|discriminate]. intros Hh. apply (Hinv j q Hq) in Hh. congruence.
Qed.

Lemma lockInv_step {U : strings.Unicode} fmt s ev s' :
  lockInv s -> step fmt ev s = Some s' -> lockInv s'.
Proof.
  intros Hinv. destruct ev as [i|i now|i up now]; cbn [step].
  - thread_at s i Hi.
    destruct (cacheMu s) as [k|] eqn:Hmu; [done|]. intros [= <-].
    intros j q. cbn [pcs cacheMu].
    destruct (decide (j = i)) as [->|Hne].
    + rewrite list_lookup_insert_eq by (by eapply lookup_lt_Some).
      intros [= <-]. done.
    + rewrite list_lookup_insert_ne by done. intros Hq.
      split.
      * intros Hh. apply (Hinv j q Hq) in Hh. congruence.
      * intros [= ->]. done.
  - thread_at s i Hi.
    destruct (isFresh now (world s)).
    + destruct (cloneMatches (cachedMatch (world s)) (world s)) as [out w1].
      intros [= <-]. by apply (lockInv_unlock s i Locked).
    + intros [= <-]. intros j q. cbn [pcs cacheMu].
      pose proof (proj1 (Hinv i Locked Hi) eq_refl) as Hmu.
      destruct (decide (j = i)) as [->|Hne].
      * rewrite list_lookup_insert_eq by (by eapply lookup_lt_Some).
        intros [= <-]. done.
      * rewrite list_lookup_insert_ne by done. apply Hinv.
  - thread_at s i Hi.
    destruct (refresh fmt up now (world s)) as [r w1].
    intros [= <-]. by apply (lockInv_unlock s i InFlight).
Qed.

Lemma lockInv_exec {U : strings.Unicode} fmt n w evs s :
  exec fmt evs (start n w) = Some s -> lockInv s.
Proof.
  intros He.
  apply (exec_invariant fmt lockInv (fun _ => True)
           (fun s ev s' H _ => lockInv_step fmt s ev s' H) evs (start n w) s);
    [apply lockInv_start|by apply Forall_true|done].
Qed.

Lemma lockInv_one_holder s i j p q :
  lockInv s -> pcs s !! i = Some p -> pcs s !! j = Some q ->
  holdsLock p = true -> holdsLock q = true -> i = j.
Proof.
  intros Hinv Hi Hj Hp Hq.
  apply (Hinv i p Hi) in Hp. apply (Hinv j q Hj) in Hq. congruence.
Qed.

Lemma quiet_step {U : strings.Unicode} fmt w t0 s ev s' :
  (forall t, t0 <= t -> isFresh t w = false) ->
  lockInv s -> quiet w s -> calmEvent t0 ev -> step fmt ev s = Some s' ->
  quiet w s' \/ fetching w s'.
Proof.
  intros Hstale Hinv [Hw Hall] Hev. destruct ev as [i|i now|i up now]; cbn [step].
  - thread_at s i Hi.
    destruct (cacheMu s); [done|]. intros [= <-]. left.
    split; [done|]. cbn [pcs]. apply Forall_insert; auto.
  - thread_at s i Hi.
    cbn in Hev. rewrite Hw, (Hstale now) by lia. intros [= <-]. right.
    split; [done|]. cbn [pcs]. split.
    + exists i. apply list_lookup_insert_eq. by eapply lookup_lt_Some.
    + apply Forall_insert; [|done].
      eapply Forall_impl; [exact Hall|]. by intros p [-> | ->].
  - thread_at s i Hi.
    destruct (proj1 (Forall_lookup _ _) Hall i InFlight Hi); discriminate.
Qed.

Lemma fetching_step {U : strings.Unicode} fmt w t0 s ev s' :
  lockInv s -> fetching w s -> calmEvent t0 ev -> step fmt ev s = Some s' ->
  refreshed w t0 s'.
Proof.
  intros Hinv (Hw & [k Hk] & Hnone) Hev.
  pose proof (proj1 (Hinv k InFlight Hk) eq_refl) as Hmu.
  destruct ev as [i|i now|i up now]; cbn [step].
  - thread_at s i Hi. by rewrite Hmu.
  - thread_at s i Hi.
    pose proof (lockInv_one_holder s i k Locked InFlight Hinv Hi Hk eq_refl eq_refl).
    congruence.
  - thread_at s i Hi.
    destruct Hev as (Hnow & m & ms & ->).
    rewrite refresh_Decoded, Hw. intros [= <-].
    unfold refreshed, cacheInArray.
    cbn [world pcs upstreamCalls cachedAt cachedMatch len ptr brk heap countCall].
    rewrite read_insert_ne by (cbn; lia).
    rewrite read_insert_eq by (by rewrite normalizeMatches_length).
    split; [done|]. split; [lia|]. split; [cbn; lia|].
    split; [split; [lia|apply normalizeMatches_length]|].
    split.
    + apply Forall_lookup. intros j p.
      destruct (decide (j = i)) as [->|Hne].
      * rewrite list_lookup_insert_eq by (by eapply lookup_lt_Some). by intros [= <-].
      * rewrite list_lookup_insert_ne by done. intros Hj ->.
        by pose proof (lockInv_one_holder s i j InFlight InFlight Hinv Hi Hj eq_refl eq_refl).
    + intros j r. destruct (decide (j = i)) as [->|Hne].
      * rewrite list_lookup_insert_eq by (by eapply lookup_lt_Some). intros [= <-].
        eexists. split; [reflexivity|]. cbn [ptr]. split; [lia|].
        by rewrite read_insert_eq by (by rewrite normalizeMatches_length).
      * rewrite list_lookup_insert_ne by done. intros Hj.
        by pose proof (proj1 (Forall_lookup _ _) Hnone j (Done r) Hj).
Qed.

Lemma refreshed_step {U : strings.Unicode} fmt w t0 s ev s' :
  refreshed w t0 s -> calmEvent t0 ev -> step fmt ev s = Some s' ->
  refreshed w t0 s'.
Proof.
  intros (Hcalls & Hat & Hlen & [Hptr Hread] & Hnone & Hdone) Hev.
  destruct ev as [i|i now|i up now]; cbn [step].
  - thread_at s i Hi.
    destruct (cacheMu s); [done|]. intros [= <-].
    unfold refreshed. cbn [world pcs].
    split; [done|]. split; [done|]. split; [done|]. split; [done|]. split.
    + by apply Forall_insert.
    + intros j r. destruct (decide (j = i)) as [->|Hne].
      * rewrite list_lookup_insert_eq by (by eapply lookup_lt_Some). done.
      * rewrite list_lookup_insert_ne by done. apply Hdone.
  - thread_at s i Hi.
    cbn in Hev.
    assert (Hfresh : isFresh now (world s) = true).
    { apply isFresh_true. split; [|done]. apply Since_within. lia. }
    rewrite Hfresh, cloneMatches_eq by (done || lia). intros [= <-].
    unfold refreshed, cacheInArray.
    cbn [world pcs upstreamCalls cachedAt cachedMatch len ptr brk heap].
    rewrite read_insert_ne by lia.
    split; [done|]. split; [done|]. split; [done|].
    split; [split; [lia|done]|]. split.
    + by apply Forall_insert.
    + intros j r. destruct (decide (j = i)) as [->|Hne].
      * rewrite list_lookup_insert_eq by (by eapply lookup_lt_Some). intros [= <-].
        eexists. split; [reflexivity|]. cbn [ptr]. split; [lia|].
        by rewrite read_insert_eq.
      * rewrite list_lookup_insert_ne by done. intros Hj.
        destruct (Hdone j r Hj) as (sl & -> & Hsl & Hsame).
        exists sl. split; [done|]. split; [lia|].
        rewrite read_insert_ne by lia. done.
  - thread_at s i Hi.
    by pose proof (proj1 (Forall_lookup _ _) Hnone i InFlight Hi).
Qed.

Lemma herdInv_step {U : strings.Unicode} fmt w t0 s ev s' :
  (forall t, t0 <= t -> isFresh t w = false) ->
  herdInv w t0 s -> calmEvent t0 ev -> step fmt ev s = Some s' -> herdInv w t0 s'.
Proof.
  intros Hstale [Hinv Hphase] Hev Hstep.
  split; [by eapply lockInv_step|].
  destruct Hphase as [Hq|[Hf|Hr]].
  - destruct (quiet_step fmt w t0 s ev s' Hstale Hinv Hq Hev Hstep); auto.
  - right. right. by eapply fetching_step.
  - right. right. by eapply refreshed_step.
Qed.

Lemma herdInv_start n w t0 : herdInv w t0 (start n w).
Proof.
  split; [apply lockInv_start|]. left. split; [done|].
  cbn. apply Forall_replicate. by left.
Qed.

(** A caller that runs alone goes through the steps of [fetchMatches]. *)
Lemma lone_caller {U : strings.Unicode} fmt env w :
  exec fmt (if isFresh (nowCheck env) w
            then [Lock 0; Check 0 (nowCheck env)]
            else [Lock 0; Check 0 (nowCheck env);
                  Respond 0 (upstream env) (nowStore env)])
       (start 1 w)
  = Some (mkSys (fetchMatches fmt env w).2 None [Done (fetchMatches fmt env w).1]).
Proof.
  unfold fetchMatches. destruct (isFresh (nowCheck env) w) eqn:E; cbn.
  - rewrite E. by destruct (cloneMatches (cachedMatch w) w).
  - rewrite E. cbn.
    by destruct (refresh fmt (upstream env) (nowStore env) (countCall w)).
Qed.

(** C9 (amended). Callers of [fetchMatches] that run at the same time are
    serialised by [cacheMu]: in every state that a run reaches, at most one
    call of the provider is in flight.  When the cache is stale or empty at
    the start, the provider answers with at least one record, and the run is
    over before the TTL has passed, at most one upstream call is issued,
    exactly one as soon as a caller has returned, and every caller that has
    returned holds a slice with the records of the one stored snapshot. *)
Theorem one_refresh_serves_all {U : strings.Unicode} fmt n w :
  (forall evs s,
      exec fmt evs (start n w) = Some s ->
      forall i j, pcs s !! i = Some InFlight -> pcs s !! j = Some InFlight -> i = j)
  /\ (forall t0 evs s,
        isFresh t0 w = false ->
        Forall (calmEvent t0) evs ->
        exec fmt evs (start n w) = Some s ->
        (upstreamCalls (world s) <= S (upstreamCalls w))%nat
        /\ forall i r,
             pcs s !! i = Some (Done r) ->
             upstreamCalls (world s) = S (upstreamCalls w)
             /\ exists sl, r = inr sl
                  /\ read (heap (world s)) sl
                     = read (heap (world s)) (cachedMatch (world s))).
Proof.
  split.
  - intros evs s He i j Hi Hj.
    by apply (lockInv_one_holder s i j InFlight InFlight (lockInv_exec _ _ _ _ _ He)).
  - intros t0 evs s Hstale Hcalm He.
    assert (Hinv : herdInv w t0 s).
    { apply (exec_invariant fmt (herdInv w t0) (calmEvent t0)) with evs (start n w);
        [|apply herdInv_start|done|done].
      intros s1 ev s2. apply herdInv_step.
      intros t Ht. by apply (isFresh_stays_false w t0). }
    destruct Hinv as [_ [[Hw Hall]|[(Hw & _ & Hnone)|Hr]]].
    + split; [rewrite Hw; lia|]. intros i r Hi.
      destruct (proj1 (Forall_lookup _ _) Hall i _ Hi); discriminate.
    + split; [rewrite Hw; cbn; lia|]. intros i r Hi.
      by pose proof (proj1 (Forall_lookup _ _) Hnone i _ Hi).
    + destruct Hr as (Hcalls & _ & _ & _ & _ & Hdone).
      split; [lia|]. intros i r Hi. split; [done|].
      destruct (Hdone i r Hi) as (sl & -> & _ & Hsame). by exists sl.
Qed.

Lemma one_refresh_serves_all_witness :
  let stored := sampleMatch "A - B" "ENGLAND: Cup" "2024-01-03" in
  let evs := [Lock 1; Check 1 0; Respond 1 (Decoded [stored]) 1;
              Lock 0; Check 0 2; Lock 2; Check 2 3] in
  exists s, exec noFormat evs (start 3 initWorld) = Some s
    /\ Forall (fun p => isDone p = true) (pcs s)
    /\ upstreamCalls (world s) = 1%nat.
Proof.
  cbv zeta.
  destruct (exec noFormat
              [Lock 1; Check 1 0;
               Respond 1 (Decoded [sampleMatch "A - B" "ENGLAND: Cup" "2024-01-03"]) 1;
               Lock 0; Check 0 2; Lock 2; Check 2 3] (start 3 initWorld))
    as [s|] eqn:E; [|vm_compute in E; discriminate E].
  assert (Hcalm : Forall (calmEvent 0)
            [Lock 1; Check 1 0;
             Respond 1 (Decoded [sampleMatch "A - B" "ENGLAND: Cup" "2024-01-03"]) 1;
             Lock 0; Check 0 2; Lock 2; Check 2 3]).
  { repeat apply Forall_cons_2; try apply Forall_nil; cbn;
      try (unfold cacheTTL; lia).
    split; [unfold cacheTTL; lia|]. eauto. }
  pose proof (proj2 (one_refresh_serves_all noFormat 3 initWorld) 0 _ s eq_refl Hcalm E)
    as [_ Hdone].
  exists s. split; [reflexivity|].
  vm_compute in E. injection E as <-.
  split; [repeat constructor|].
  exact (proj1 (Hdone 0%nat _ eq_refl)).
Defined.

(** C9 as stated fails: when the refresh of the first caller fails, the
    second caller, which was waiting for the mutex, calls the provider
    again; two upstream calls are issued and the two callers need not get
    the same error. *)
Lemma failed_refresh_is_retried :
  let evs := [Lock 0; Check 0 0; Respond 0 (GetError "timeout") 1;
              Lock 1; Check 1 2; Respond 1 (DecodeError "bad json") 3] in
  isFresh 0 initWorld = false
  /\ exists s, exec noFormat evs (start 2 initWorld) = Some s
       /\ pcs s = [Done (inl (UpstreamUnreachable "timeout"));
                   Done (inl (UpstreamMalformed "bad json"))]
       /\ upstreamCalls (world s) = 2%nat.
Proof.
  cbv zeta. split; [reflexivity|]. eexists. split; [vm_compute; reflexivity|].
  split; reflexivity.
Qed.

(** * The rest of the package *)

(** ** Page numbers *)

Example strconv_model_examples :
  strconv.Atoi "42" = Some 42
  /\ strconv.Atoi "-7" = Some (-7)
  /\ strconv.Atoi "+7" = Some 7
  /\ strconv.Atoi "007" = Some 7
  /\ strconv.Atoi "" = None
  /\ strconv.Atoi "-" = None
  /\ strconv.Atoi "4 2" = None
  /\ strconv.Atoi "1_000" = None
  /\ strconv.Atoi "9223372036854775807" = Some Int.max_int
  /\ strconv.Atoi "9223372036854775808" = None
  /\ strconv.Atoi "-9223372036854775808" = Some Int.min_int.
Proof. repeat split. Qed.

Lemma digit_range a d : strconv.digit a = Some d -> 0 <= d <= 9.
Proof.
  unfold strconv.digit.
  destruct (N.leb_spec 48 (N_of_ascii a)), (N.leb_spec (N_of_ascii a) 57);
    cbn; intros [= <-]; lia.
Qed.

Lemma digits_ge acc s v : strconv.digits acc s = Some v -> 0 <= acc -> acc <= v.
Proof.
  revert acc. induction s as [|a s IH]; intros acc; cbn.
  - intros [= <-]. lia.
  - destruct (strconv.digit a) as [d|] eqn:Ed; [|done].
    apply digit_range in Ed. intros Hv Hacc.
    specialize (IH _ Hv ltac:(lia)). lia.
Qed.

Lemma unsigned_nonneg s v : strconv.unsigned s = Some v -> 0 <= v.
Proof.
  destruct s as [|a s]; [done|]. unfold strconv.unsigned.
  intros H. by apply digits_ge in H.
Qed.

Lemma Atoi_range s n : strconv.Atoi s = Some n -> Int.min_int <= n <= Int.max_int.
Proof.
  unfold strconv.Atoi.
  match goal with |- context [match ?x with Some _ => _ | None => None end] =>
    destruct x as [k|]; [|done] end.
  destruct (Z.leb_spec Int.min_int k), (Z.leb_spec k Int.max_int); cbn;
    intros [= <-]; lia.
Qed.

Lemma Atoi_minus s n : strconv.Atoi (String "-" s) = Some n -> n <= 0.
Proof.
  unfold strconv.Atoi.
  destruct (strconv.unsigned s) as [v|] eqn:Ev; cbn; [|done].
  apply unsigned_nonneg in Ev.
  destruct (_ && _); intros [= <-]; lia.
Qed.

(** Evaluates the digit value of a literal byte in the goal. *)
Ltac eval_digit :=
  match goal with
  | |- context [strconv.digit ?c] =>
      let v := eval vm_compute in (strconv.digit c) in
      change (strconv.digit c) with v; cbv iota beta
  end.

(** Reading the digits of a decimal numeral of the standard library. *)
Lemma digits_of_uint_acc d p :
  strconv.digits (Zpos p) (NilEmpty.string_of_uint d)
  = Some (Zpos (Pos.of_uint_acc d p)).
Proof.
  revert p. induction d; intros p; cbn [NilEmpty.string_of_uint Pos.of_uint_acc];
    [done|..]; cbn [strconv.digits]; eval_digit;
    match goal with
    | |- strconv.digits ?z _ = Some (Z.pos (Pos.of_uint_acc _ ?q)) =>
        replace z with (Z.pos q) by lia
    end; apply IHd.
Qed.

Lemma digits_of_uint d :
  strconv.digits 0 (NilEmpty.string_of_uint d) = Some (Z.of_N (Pos.of_uint d)).
Proof.
  induction d; cbn [NilEmpty.string_of_uint Pos.of_uint];
    [done|..]; cbn [strconv.digits]; eval_digit;
    first [exact IHd | apply digits_of_uint_acc].
Qed.

Lemma Atoi_decimal n :
  1 <= n <= Int.max_int -> strconv.Atoi (decimal n) = Some n.
Proof.
  intros Hn. unfold decimal, NilZero.string_of_uint.
  pose proof (DecimalN.Unsigned.of_to (Z.to_N n)) as Hof.
  pose proof (digits_of_uint (N.to_uint (Z.to_N n))) as Hd.
  unfold N.of_uint in Hof. rewrite Hof in Hd.
  assert (Hin : (Int.min_int <=? n) && (n <=? Int.max_int) = true).
  { apply andb_true_iff. rewrite !Z.leb_le. unfold Int.min_int. lia. }
  destruct (N.to_uint (Z.to_N n)) as [|d|d|d|d|d|d|d|d|d|d] eqn:Ed;
    [cbn in Hof; lia|..];
    unfold strconv.Atoi, strconv.unsigned;
    cbn [NilEmpty.string_of_uint] in *;
    rewrite Hd; replace (Z.of_N (Z.to_N n)) with n by lia; by rewrite Hin.
Qed.

Lemma decimal_nonempty n : 1 <= n -> decimal n <> "".
Proof.
  intros Hn. unfold decimal, NilZero.string_of_uint.
  by destruct (N.to_uint (Z.to_N n)).
Qed.

(** X1. [parsePage] always yields a page number between 1 and the largest
    [int]; a missing parameter, a text that is no number and a number below 1
    (every text that starts with a minus sign) give page 1; the decimal
    numeral of every page number from 1 to the largest [int] is read back as
    that number. *)
Theorem parsePage_total :
  (forall raw, 1 <= parsePage raw <= Int.max_int)
  /\ parsePage "" = 1
  /\ (forall raw, strconv.Atoi raw = None -> parsePage raw = 1)
  /\ (forall raw, parsePage (String "-" raw) = 1)
  /\ (forall n, 1 <= n <= Int.max_int -> parsePage (decimal n) = n).
Proof.
  split.
  { intros raw. unfold parsePage. destruct (String.eqb raw ""); [unfold Int.max_int; lia|].
    destruct (strconv.Atoi raw) as [p|] eqn:E; [|unfold Int.max_int; lia].
    apply Atoi_range in E. destruct (Z.ltb_spec p 1); [unfold Int.max_int|]; lia. }
  split; [reflexivity|]. split.
  { intros raw E. unfold parsePage. rewrite E. by destruct (String.eqb raw ""). }
  split.
  { intros raw. unfold parsePage. cbn [String.eqb].
    destruct (strconv.Atoi (String "-" raw)) as [p|] eqn:E; [|done].
    apply Atoi_minus in E. destruct (Z.ltb_spec p 1); lia. }
  intros n Hn. unfold parsePage. rewrite (Atoi_decimal n Hn).
  rewrite (proj2 (String.eqb_neq _ _) (decimal_nonempty n ltac:(lia))).
  destruct (Z.ltb_spec n 1); [lia|done].
Qed.

Lemma parsePage_total_witness :
  parsePage (decimal 12) = 12 /\ parsePage "abc" = 1 /\ decimal 12 = "12".
Proof.
  split; [|split; [|reflexivity]].
  - apply (proj2 (proj2 (proj2 (proj2 parsePage_total)))). unfold Int.max_int. lia.
  - apply (proj1 (proj2 (proj2 parsePage_total))). reflexivity.
Defined.

(** ** Category labels *)

Example strings_Title_examples :
  strings.Title "her royal highness" = "Her Royal Highness"
  /\ strings.Title "loud noises" = "Loud Noises"
  /\ categoryLabel "ENGLAND" = "England"
  /\ categoryLabel "copa del rey" = "Copa Del Rey"
  /\ categoryLabel "uefa-cup_b 2a" = "Uefa-Cup_b 2a".
Proof. repeat split. Qed.

Lemma toLowerByte_toTitleByte a : toLowerByte (toTitleByte a) = toLowerByte a.
Proof. destruct a as [[] [] [] [] [] [] [] []]; reflexivity. Qed.

Lemma ToLower_titleFrom prev s : ToLower (titleFrom prev s) = ToLower s.
Proof.
  revert prev. induction s as [|a s IH]; intros prev; cbn; [done|]. fold_text.
  rewrite IH. by destruct (isSeparator prev); rewrite ?toLowerByte_toTitleByte.
Qed.

Lemma length_titleFrom prev s : String.length (titleFrom prev s) = String.length s.
Proof. revert prev. induction s as [|a s IH]; intros prev; cbn; [done|]. by rewrite IH. Qed.

Lemma length_ToLower s : String.length (ToLower s) = String.length s.
Proof. induction s as [|a s IH]; cbn; [done|]. fold_text. by rewrite IH. Qed.

Lemma EqualFold_ToLower s t : EqualFold s t = true <-> ToLower s = ToLower t.
Proof.
  revert t. induction s as [|a s IH]; intros [|b t]; cbn; try (split; congruence).
  fold_text. rewrite andb_true_iff, IH, Ascii.eqb_eq. split.
  - intros [H1 H2]. by rewrite H1, H2.
  - intros [= H1 H2]. by split.
Qed.

Lemma only_toLowerByte a :
  (N_of_ascii (toLowerByte a) <? 128)%N = (N_of_ascii a <? 128)%N.
Proof. destruct a as [[] [] [] [] [] [] [] []]; reflexivity. Qed.

Lemma only_toTitleByte a :
  (N_of_ascii (toTitleByte a) <? 128)%N = (N_of_ascii a <? 128)%N.
Proof. destruct a as [[] [] [] [] [] [] [] []]; reflexivity. Qed.

Lemma only_ToLower s : ASCII.only (ToLower s) = ASCII.only s.
Proof. induction s as [|a s IH]; cbn; [done|]. fold_text. by rewrite IH, only_toLowerByte. Qed.

Lemma only_titleFrom prev s : ASCII.only (titleFrom prev s) = ASCII.only s.
Proof.
  revert prev. induction s as [|a s IH]; intros prev; cbn; [done|].
  rewrite IH. by destruct (isSeparator prev); rewrite ?only_toTitleByte.
Qed.

(** X2. On ASCII text, where the functions of [strings] work byte by byte,
    the label of a category differs from the category in the case of letters
    only: it is ASCII text of the same length, it is equal to the category
    when case is ignored, labelling a label changes nothing, and the label is
    empty for the empty category only. *)
Theorem categoryLabel_case_only raw :
  ASCII.only raw = true ->
  ASCII.only (categoryLabel raw) = true
  /\ String.length (categoryLabel raw) = String.length raw
  /\ EqualFold (categoryLabel raw) raw = true
  /\ categoryLabel (categoryLabel raw) = categoryLabel raw
  /\ (categoryLabel raw = "" <-> raw = "").
Proof.
  intros Hraw.
  assert (Hlow : ToLower (categoryLabel raw) = ToLower raw).
  { unfold categoryLabel. destruct (String.eqb_spec raw "") as [->|_]; [done|].
    change (ToLower (titleFrom " " (ToLower raw)) = ToLower raw).
    by rewrite ToLower_titleFrom, ToLower_idem. }
  assert (Hlen : String.length (categoryLabel raw) = String.length raw).
  { unfold categoryLabel. destruct (String.eqb_spec raw "") as [->|_]; [done|].
    change (String.length (titleFrom " " (ToLower raw)) = String.length raw).
    by rewrite length_titleFrom, length_ToLower. }
  split.
  { unfold categoryLabel. destruct (String.eqb_spec raw "") as [->|_]; [done|].
    change (ASCII.only (titleFrom " " (ToLower raw)) = true).
    by rewrite only_titleFrom, only_ToLower. }
  split; [exact Hlen|]. split; [by apply EqualFold_ToLower|]. split.
  { unfold categoryLabel at 1.
    destruct (String.eqb_spec (categoryLabel raw) "") as [E|_].
    - by rewrite E.
    - rewrite Hlow. unfold categoryLabel.
      destruct (String.eqb_spec raw "") as [->|_]; [done|reflexivity]. }
  split; [|by intros ->].
  intros E. rewrite E in Hlen. by destruct raw.
Qed.

Lemma categoryLabel_case_only_witness :
  categoryLabel "copa DEL rey" = "Copa Del Rey"
  /\ categoryLabel (categoryLabel "copa DEL rey") = categoryLabel "copa DEL rey"
  /\ EqualFold (categoryLabel "copa DEL rey") "copa DEL rey" = true.
Proof.
  destruct (categoryLabel_case_only "copa DEL rey" eq_refl) as (_ & _ & Hfold & Hidem & _).
  split; [reflexivity|]. split; [exact Hidem|exact Hfold].
Defined.

(** ** Filtering composes *)





Lemma filter_sublist {A} (p : A -> bool) l : sublist (List.filter p l) l.
Proof.
  induction l as [|a l IH]; cbn; [done|].
  destruct (p a); by constructor.
Qed.

Lemma filterMatches_sublist {U : strings.Unicode} ms x y :
  sublist (filterMatches ms x y) ms.
Proof.
  unfold filterMatches. destruct (String.eqb x "" && String.eqb y ""); [done|].
  rewrite fold_append_filter. apply filter_sublist.
Qed.


(** ** The normaliser puts the records in order *)

Section InsertionSort.
Context {A : Type} (less : A -> A -> bool) (R : relation A).
Hypothesis less_true : forall x y, less x y = true -> R x y.
Hypothesis less_false : forall x y, less x y = false -> R y x.

Lemma HdRel_insertBack_by x y r :
  R x y -> HdRel (flip R) y r -> HdRel (flip R) y (insertBack less x r).
Proof.
  intros Hxy Hr. destruct r as [|z r]; cbn.
  - by constructor.
  - destruct (less x z); constructor; [by inversion Hr|done].
Qed.

Lemma Sorted_insertBack_by x r :
  Sorted (flip R) r -> Sorted (flip R) (insertBack less x r).
Proof.
  induction 1 as [|y r Hr IH Hhd]; cbn.
  - by repeat constructor.
  - destruct (less x y) eqn:E.
    + constructor; [done|]. apply HdRel_insertBack_by; [by apply less_true|done].
    + constructor; [by constructor|]. constructor. by apply less_false.
Qed.

Lemma Sorted_sortSlice_by l : Sorted R (sortSlice less l).
Proof.
  unfold sortSlice. rewrite rev_alt.
  apply (Sorted_reverse (flip R)).
  generalize (@nil A) (Sorted_nil (flip R)).
  induction l as [|x l IH]; intros acc Hacc; cbn; [done|].
  by apply IH, Sorted_insertBack_by.
Qed.
End InsertionSort.

Lemma StronglySorted_lookup {A} (R : relation A) l i j a b :
  StronglySorted R l -> (i < j)%nat -> l !! i = Some a -> l !! j = Some b -> R a b.
Proof.
  intros Hs Hij Ha Hb.
  rewrite <- (take_drop_middle l i a Ha) in Hs.
  apply StronglySorted_app_1_r, StronglySorted_cons in Hs as [Hall _].
  apply (proj1 (Forall_forall _ _) Hall).
  apply list_elem_of_lookup. exists (j - S i)%nat.
  rewrite lookup_drop, <- Hb. f_equal. lia.
Qed.

#[local] Instance byDateDesc_trans : Transitive byDateDesc.
Proof. intros a b c Hab Hbc. unfold byDateDesc in *. by etrans. Qed.

Lemma Sorted_normalizeMatches {U : strings.Unicode} fmt ms :
  Sorted byDateDesc (normalizeMatches fmt ms).
Proof.
  apply (Sorted_sortSlice_by dateAfter byDateDesc).
  - intros x y H. by apply ltb_true_le.
  - intros x y H. by apply ltb_false_le.
Qed.

Lemma normalizeMatch_fields {U : strings.Unicode} fmt m :
  Title (normalizeMatch fmt m) = Title m
  /\ Competition (normalizeMatch fmt m) = Competition m
  /\ MatchviewURL (normalizeMatch fmt m) = MatchviewURL m
  /\ Thumbnail (normalizeMatch fmt m) = Thumbnail m
  /\ DateRaw (normalizeMatch fmt m) = DateRaw m
  /\ Videos (normalizeMatch fmt m) = Videos m
  /\ EmbedHTML (normalizeMatch fmt m) = EmbedHTML m
  /\ IsFavorite (normalizeMatch fmt m) = IsFavorite m
  /\ PrettyDate (normalizeMatch fmt m) = default (DateRaw m) (fmt (DateRaw m)).
Proof.
  unfold normalizeMatch.
  destruct (fmt (DateRaw m)); cbn;
    destruct (Cut (Competition m) ":"); try destruct p; by repeat split.
Qed.

(** X4. [normalizeMatches] returns the normalised records in descending order
    of their raw dates: the list is a rearrangement of the normalised input,
    of the same length, in which every record comes before all records with
    an earlier date string.  Normalising a record changes its display date
    and its category only; the display date is the formatted date when the
    raw date parses and the raw date when it does not. *)
Theorem normalizeMatches_descending {U : strings.Unicode} fmt (matches : list Match) :
  StronglySorted byDateDesc (normalizeMatches fmt matches)
  /\ normalizeMatches fmt matches ≡ₚ map (normalizeMatch fmt) matches
  /\ length (normalizeMatches fmt matches) = length matches
  /\ (forall i j a b,
        (i < j)%nat ->
        normalizeMatches fmt matches !! i = Some a ->
        normalizeMatches fmt matches !! j = Some b ->
        String.ltb (DateRaw a) (DateRaw b) = false)
  /\ (forall m,
        Title (normalizeMatch fmt m) = Title m
        /\ Competition (normalizeMatch fmt m) = Competition m
        /\ MatchviewURL (normalizeMatch fmt m) = MatchviewURL m
        /\ Thumbnail (normalizeMatch fmt m) = Thumbnail m
        /\ DateRaw (normalizeMatch fmt m) = DateRaw m
        /\ Videos (normalizeMatch fmt m) = Videos m
        /\ EmbedHTML (normalizeMatch fmt m) = EmbedHTML m
        /\ IsFavorite (normalizeMatch fmt m) = IsFavorite m
        /\ PrettyDate (normalizeMatch fmt m) = default (DateRaw m) (fmt (DateRaw m))).
Proof.
  assert (Hs : StronglySorted byDateDesc (normalizeMatches fmt matches)).
  { apply Sorted_StronglySorted; [apply _|apply Sorted_normalizeMatches]. }
  split; [exact Hs|]. split; [apply sortSlice_Permutation|].
  split; [apply normalizeMatches_length|]. split; [|apply normalizeMatch_fields].
  intros i j a b Hij Ha Hb.
  pose proof (StronglySorted_lookup _ _ i j a b Hs Hij Ha Hb) as Hab.
  unfold byDateDesc, String.le, String.leb in Hab. unfold String.ltb.
  rewrite String.compare_antisym.
  destruct (String.compare (DateRaw b) (DateRaw a)); cbn in *; done.
Qed.

(** ** The pages of a list *)

Lemma take_min_length {A} (l : list A) k : take (Nat.min k (length l)) l = take k l.
Proof.
  destruct (Nat.le_gt_cases k (length l)).
  - by rewrite Nat.min_l.
  - rewrite Nat.min_r, !take_ge by lia. done.
Qed.

(** The value of [paginate] when the arithmetic stays within [int], with the
    page written as the [size] records from its first index on. *)
Lemma paginate_value (matches : list Match) (page size : Z) :
  0 < size -> size <= Int.max_int ->
  Z.of_nat (length matches) + size - 1 <= Int.max_int ->
  let totalPages := Z.max 1 (ceilDiv (Z.of_nat (length matches)) size) in
  let eff := effectivePage page totalPages in
  paginate matches page size =
  Some (take (Z.to_nat size) (drop (Z.to_nat ((eff - 1) * size)) matches),
        totalPages,
        (if eff =? 1 then 0 else eff - 1),
        (if eff =? totalPages then 0 else eff + 1)).
Proof.
  intros Hsize Hmax Hsum totalPages eff.
  set (count := Z.of_nat (length matches)) in *.
  assert (Hrange : Int.max_int = 2 ^ 63 - 1) by reflexivity.
  assert (Hmin : Int.min_int = - 2 ^ 63) by reflexivity.
  assert (Hcount : 0 <= count) by (unfold count; lia).
  pose proof (ceilDiv_bounds count size Hsize) as Hceil.
  assert (Hc0 : 0 <= ceilDiv count size) by nia.
  assert (Hceil_le : ceilDiv count size <= count) by nia.
  assert (Htot : 1 <= totalPages) by (unfold totalPages; lia).
  assert (Heff : 1 <= eff <= totalPages) by (unfold eff, effectivePage; lia).
  assert (Hlo : 0 <= (eff - 1) * size <= count /\ (eff - 1) * size + size <= Int.max_int).
  { unfold totalPages in Heff.
    destruct (Z.max_spec 1 (ceilDiv count size)) as [[? E]|[? E]]; rewrite E in Heff; nia. }
  destruct Hlo as [Hlo Hlo1].
  unfold paginate. fold count.
  rewrite (proj2 (Z.leb_gt size 0)) by lia.
  unfold Int.sub, Int.add, Int.div, Int.mul.
  replace (Int.wrap (count + size) - 1) with (Int.wrap (count + size) + -1) by lia.
  rewrite wrap_add_l.
  replace (count + size + -1) with (count + size - 1) by lia.
  rewrite (wrap_id (count + size - 1)) by lia.
  rewrite Z.quot_div_nonneg, ceilDiv_formula by lia.
  rewrite (wrap_id (ceilDiv count size)) by lia.
  replace (if ceilDiv count size =? 0 then 1 else ceilDiv count size) with totalPages
    by (unfold totalPages; destruct (Z.eqb_spec (ceilDiv count size) 0); lia).
  replace (if (if page <? 1 then 1 else page) >? totalPages then totalPages
           else (if page <? 1 then 1 else page)) with eff.
  2:{ unfold eff, effectivePage.
      destruct (Z.ltb_spec page 1);
        [destruct (Z.gtb_spec 1 totalPages)|destruct (Z.gtb_spec page totalPages)]; lia. }
  rewrite (wrap_id (eff - 1)), (wrap_id ((eff - 1) * size)),
    (wrap_id ((eff - 1) * size + size)) by lia.
  replace ((eff - 1) * size >? count) with false
    by (destruct (Z.gtb_spec ((eff - 1) * size) count); [lia|done]).
  replace (if (eff - 1) * size + size >? count then count else (eff - 1) * size + size)
    with (Z.min (eff * size) count)
    by (destruct (Z.gtb_spec ((eff - 1) * size + size) count); lia).
  unfold slice. fold count.
  rewrite (proj2 (Z.leb_le 0 _)), (proj2 (Z.leb_le ((eff - 1) * size) _)),
    (proj2 (Z.leb_le (Z.min (eff * size) count) _)) by lia.
  cbn [andb].
  replace (Z.to_nat (Z.min (eff * size) count - (eff - 1) * size))
    with (Nat.min (Z.to_nat size) (length (drop (Z.to_nat ((eff - 1) * size)) matches)))
    by (rewrite length_drop; unfold count in *; lia).
  rewrite take_min_length.
  f_equal. f_equal; [f_equal|].
  - destruct (Z.gtb_spec eff 1), (Z.eqb_spec eff 1); lia.
  - destruct (Z.ltb_spec eff totalPages), (Z.eqb_spec eff totalPages); try lia.
    apply wrap_id. lia.
Qed.

Lemma fits_bounds n :
  fits n -> 0 < pageSize /\ pageSize <= Int.max_int
            /\ Z.of_nat n + pageSize - 1 <= Int.max_int.
Proof. unfold fits, pageSize, Int.max_int. lia. Qed.

Lemma paginate_pageSize matches page :
  fits (length matches) ->
  paginate matches page pageSize =
  Some (take 9 (drop (Z.to_nat ((effectivePage page (Z.max 1 (ceilDiv (Z.of_nat (length matches)) 9)) - 1) * 9)) matches),
        Z.max 1 (ceilDiv (Z.of_nat (length matches)) 9),
        (if effectivePage page (Z.max 1 (ceilDiv (Z.of_nat (length matches)) 9)) =? 1 then 0
         else effectivePage page (Z.max 1 (ceilDiv (Z.of_nat (length matches)) 9)) - 1),
        (if effectivePage page (Z.max 1 (ceilDiv (Z.of_nat (length matches)) 9))
            =? Z.max 1 (ceilDiv (Z.of_nat (length matches)) 9) then 0
         else effectivePage page (Z.max 1 (ceilDiv (Z.of_nat (length matches)) 9)) + 1)).
Proof.
  intros (H1 & H2 & H3)%fits_bounds.
  exact (paginate_value matches page pageSize H1 H2 H3).
Qed.

Lemma effectivePage_idem page T : 1 <= T ->
  effectivePage (effectivePage page T) T = effectivePage page T.
Proof. unfold effectivePage. lia. Qed.

Lemma effectivePage_in page T : 1 <= page <= T -> effectivePage page T = page.
Proof. unfold effectivePage. lia. Qed.

Lemma concat_pages {A} (l : list A) k t :
  concat (map (fun p => take k (drop (k * (p - 1)) l)) (seq 1 t)) = take (k * t) l.
Proof.
  induction t as [|t IH]; [by rewrite Nat.mul_0_r|].
  rewrite seq_S, map_app, concat_app, IH. cbn [map concat Nat.add].
  rewrite app_nil_r. replace (S t - 1)%nat with t by lia.
  rewrite take_take_drop. f_equal. lia.
Qed.

Lemma pagesOf_eq matches :
  fits (length matches) -> pagesOf matches = Z.max 1 (ceilDiv (Z.of_nat (length matches)) 9).
Proof. intros Hf. unfold pagesOf. by rewrite paginate_pageSize. Qed.

Lemma pageOf_eq matches (p : nat) :
  fits (length matches) -> 1 <= Z.of_nat p <= pagesOf matches ->
  pageOf matches p = take 9 (drop (9 * (p - 1)) matches).
Proof.
  intros Hf Hp. rewrite pagesOf_eq in Hp by done.
  unfold pageOf. rewrite paginate_pageSize, effectivePage_in by done.
  f_equal. f_equal. lia.
Qed.

(** X5. The pages that [paginate] serves with the page size of the package
    cover the list: put one after the other, pages 1 to [totalPages] give
    the list back, every page before the last holds nine records, no page
    holds more, and no page of a list with records is empty, whatever page
    number is asked for. *)
Theorem pages_cover_the_list (matches : list Match) :
  fits (length matches) ->
  1 <= pagesOf matches
  /\ concat (map (pageOf matches) (seq 1 (Z.to_nat (pagesOf matches)))) = matches
  /\ (forall p : nat, 1 <= Z.of_nat p < pagesOf matches -> length (pageOf matches p) = 9%nat)
  /\ (forall p : nat, (length (pageOf matches p) <= 9)%nat)
  /\ (matches <> [] -> forall p : nat, pageOf matches p <> []).
Proof.
  intros Hf. pose proof (pagesOf_eq matches Hf) as HT.
  pose proof (ceilDiv_bounds (Z.of_nat (length matches)) 9 ltac:(lia)) as Hceil.
  split; [lia|]. split.
  { rewrite (map_ext_in _ (fun p => take 9 (drop (9 * (p - 1)) matches))).
    - rewrite concat_pages. apply take_ge. lia.
    - intros p Hp%in_seq. apply pageOf_eq; [done|lia]. }
  split.
  { intros p Hp. rewrite pageOf_eq by (done || lia).
    rewrite length_take, length_drop. lia. }
  split.
  { intros p. unfold pageOf. rewrite paginate_pageSize by done.
    rewrite length_take. lia. }
  intros Hne p. unfold pageOf. rewrite paginate_pageSize by done.
  set (T := Z.max 1 (ceilDiv (Z.of_nat (length matches)) 9)) in *.
  assert (Hlen : (0 < length matches)%nat) by (destruct matches; [done|cbn; lia]).
  assert (Heff : 1 <= effectivePage (Z.of_nat p) T <= T) by (unfold effectivePage; lia).
  assert (Hlo : (effectivePage (Z.of_nat p) T - 1) * 9 < Z.of_nat (length matches)).
  { unfold T in *.
    destruct (Z.max_spec 1 (ceilDiv (Z.of_nat (length matches)) 9)) as [[? E]|[? E]];
      rewrite E in *; nia. }
  intros E. apply (f_equal length) in E.
  rewrite length_take, length_drop in E. cbn [length] in E. lia.
Qed.

Lemma pages_cover_the_list_witness :
  let ms := map (fun t => sampleMatch t "" "") ["a"; "b"; "c"; "d"; "e"; "f"; "g"; "h"; "i"; "j"; "k"] in
  pagesOf ms = 2
  /\ concat (map (pageOf ms) (seq 1 (Z.to_nat (pagesOf ms)))) = ms.
Proof.
  cbv zeta. split; [reflexivity|].
  refine (proj1 (proj2 (pages_cover_the_list _ _))).
  unfold fits, pageSize, Int.max_int. cbn. lia.
Defined.

(** X6. The page links that [paginate] returns lead where they say: asking
    for the page that was served gives the same answer again, the previous
    page of the next page and the next page of the previous page are the
    page that was served, and the number of pages is the same on all of
    them. *)
Theorem page_links_are_consistent (matches : list Match) (page : Z)
    paged totalPages prev next :
  fits (length matches) ->
  paginate matches page pageSize = Some (paged, totalPages, prev, next) ->
  let served := effectivePage page totalPages in
  paginate matches served pageSize = Some (paged, totalPages, prev, next)
  /\ (next <> 0 ->
      next = served + 1
      /\ exists paged' next',
           paginate matches next pageSize = Some (paged', totalPages, served, next'))
  /\ (prev <> 0 ->
      prev = served - 1
      /\ exists paged' prev',
           paginate matches prev pageSize = Some (paged', totalPages, prev', served)).
Proof.
  intros Hf. rewrite paginate_pageSize by done.
  set (T := Z.max 1 (ceilDiv (Z.of_nat (length matches)) 9)).
  intros [= <- <- <- <-]. cbv zeta.
  assert (HT : 1 <= T) by (unfold T; lia).
  assert (Heff : 1 <= effectivePage page T <= T) by (unfold effectivePage; lia).
  set (eff := effectivePage page T) in *.
  split.
  { rewrite paginate_pageSize by done. fold T. unfold eff.
    by rewrite effectivePage_idem. }
  split.
  - destruct (Z.eqb_spec eff T) as [E|E]; [done|]. intros _. split; [done|].
    rewrite paginate_pageSize by done. fold T.
    rewrite (effectivePage_in (eff + 1) T) by lia.
    destruct (Z.eqb_spec (eff + 1) 1); [lia|].
    replace (eff + 1 - 1) with eff by lia. eauto.
  - destruct (Z.eqb_spec eff 1) as [E|E]; [done|]. intros _. split; [done|].
    rewrite paginate_pageSize by done. fold T.
    rewrite (effectivePage_in (eff - 1) T) by lia.
    destruct (Z.eqb_spec (eff - 1) T); [lia|].
    replace (eff - 1 + 1) with eff by lia. eauto.
Qed.

Lemma page_links_are_consistent_witness :
  let ms := map (fun t => sampleMatch t "" "") ["a"; "b"; "c"; "d"; "e"; "f"; "g"; "h"; "i"; "j"; "k"] in
  exists paged next', paginate ms 2 pageSize = Some (paged, 2, 1, next').
Proof.
  cbv zeta.
  refine (proj2 (proj1 (proj2 (page_links_are_consistent
            (map (fun t => sampleMatch t "" "")
                 ["a"; "b"; "c"; "d"; "e"; "f"; "g"; "h"; "i"; "j"; "k"])
            (-3) _ 2 0 2 _ eq_refl)) _)).
  - unfold fits, pageSize, Int.max_int. cbn. lia.
  - discriminate.
Defined.

(** ** The worlds that the handlers run in *)

Lemma normalizeMatches_nil {U : strings.Unicode} fmt : normalizeMatches fmt [] = [].
Proof. reflexivity. Qed.

Lemma ready_initWorld {U : strings.Unicode} fmt : ready fmt initWorld.
Proof.
  split; [apply wf_initWorld|]. split.
  - exists []. reflexivity.
  - unfold fits, pageSize, Int.max_int. cbn. lia.
Qed.

(** Writing into an array other than the one of the cache. *)
Lemma ready_write {U : strings.Unicode} fmt (f : list Match -> list Match) p w :
  p <> ptr (cachedMatch w) -> ready fmt w ->
  ready fmt (set_heap (alter f p (heap w)) w)
  /\ read (heap (set_heap (alter f p (heap w)) w)) (cachedMatch w)
     = read (heap w) (cachedMatch w).
Proof.
  intros Hp ((Hptr & Hlen & Hfree) & [response Hresp] & Hfits).
  assert (Hread : read (alter f p (heap w)) (cachedMatch w) = read (heap w) (cachedMatch w)).
  { unfold read. by rewrite lookup_alter_ne. }
  split; [|exact Hread].
  unfold ready, wf, cacheNormal, set_heap.
  cbn [heap brk cachedMatch cachedAt upstreamCalls].
  rewrite Hread. split; [|split; [by exists response|done]].
  split; [done|]. split; [done|].
  intros a Ha. rewrite lookup_alter. case_decide; [subst p|]; by rewrite (Hfree a Ha).
Qed.

Lemma ready_fetchMatches {U : strings.Unicode} fmt env w :
  ready fmt w -> envFits env -> ready fmt (fetchMatches fmt env w).2.
Proof.
  intros (Hw & [response Hresp] & Hfits) Henv.
  split; [by apply wf_fetchMatches|].
  destruct (fetchMatches fmt env w) as [[err|s] w1] eqn:E; cbn [snd].
  - destruct (isFresh (nowCheck env) w) eqn:Ef.
    + rewrite (fetchMatches_hit _ _ _ Ef) in E. discriminate.
    + rewrite (fetchMatches_miss _ _ _ Ef) in E.
      destruct (upstream env) as [msg|msg|decoded].
      * cbn in E. injection E as _ <-. split; [by exists response|done].
      * cbn in E. injection E as _ <-. split; [by exists response|done].
      * rewrite refresh_Decoded in E. discriminate E.
  - destruct (fetchMatches_copy fmt env w s w1 Hw E) as (_ & _ & _ & _ & Hhit & Hmiss).
    destruct (isFresh (nowCheck env) w) eqn:Ef.
    + destruct (Hhit eq_refl) as (E1 & _ & E3).
      split; [exists response; congruence|by rewrite E1].
    + rewrite (fetchMatches_miss _ _ _ Ef) in E.
      unfold envFits in Henv.
      destruct (upstream env) as [msg|msg|decoded] eqn:Eu; try discriminate E.
      split; [exists decoded; by apply Hmiss|].
      rewrite refresh_Decoded in E. injection E as _ <-. exact Henv.
Qed.

Lemma fetchMatches_calls {U : strings.Unicode} fmt env w :
  (upstreamCalls w <= upstreamCalls (fetchMatches fmt env w).2
   <= S (upstreamCalls w))%nat.
Proof.
  unfold fetchMatches. destruct (isFresh (nowCheck env) w).
  - destruct (cloneMatches_calls (cachedMatch w) w) as (_ & _ & E & _).
    destruct (cloneMatches (cachedMatch w) w). cbn in *. lia.
  - destruct (upstream env); [cbn; lia..|]. rewrite refresh_Decoded. cbn. lia.
Qed.

(** What [loadMatchesWithFavorites] hands to a handler in a ready world. *)
Lemma load_served {U : strings.Unicode} fmt cookie env w res w' :
  ready fmt w -> envFits env ->
  loadMatchesWithFavorites fmt cookie env w = (res, w') ->
  ready fmt w'
  /\ (upstreamCalls w <= upstreamCalls w' <= S (upstreamCalls w))%nat
  /\ cachedMatch w' = cachedMatch (fetchMatches fmt env w).2
  /\ cachedAt w' = cachedAt (fetchMatches fmt env w).2
  /\ read (heap w') (cachedMatch w')
     = read (heap (fetchMatches fmt env w).2) (cachedMatch (fetchMatches fmt env w).2)
  /\ match res with
     | inl err => (fetchMatches fmt env w).1 = inl err
     | inr s =>
         ptr s <> ptr (cachedMatch w')
         /\ exists response,
              read (heap w') (cachedMatch w') = normalizeMatches fmt response
              /\ read (heap w') s
                 = map (annotate (getFavorites cookie)) (normalizeMatches fmt response)
              /\ fits (length response)
     end.
Proof.
  intros Hr Henv. unfold loadMatchesWithFavorites.
  pose proof (ready_fetchMatches fmt env w Hr Henv) as Hr1.
  pose proof (fetchMatches_calls fmt env w) as Hcalls.
  destruct Hr as (Hw & _ & _).
  destruct (fetchMatches fmt env w) as [[err|s] w1] eqn:Ef; cbn [fst snd] in *.
  - intros [= <- <-]. do 2 (split; [assumption|]). by repeat split.
  - intros [= <- <-].
    destruct (fetchMatches_copy fmt env w s w1 Hw Ef) as (_ & Hne & Hlen & Hcopy & _).
    rewrite fold_annotateAt.
    destruct (ready_write fmt
                (fun arr => fold_left (fun l i => alter (annotate (getFavorites cookie)) i l)
                                      (seq 0 (len s)) arr)
                (ptr s) w1 Hne Hr1) as [Hr2 Hsame].
    destruct (annotate_frame (getFavorites cookie) s w1 Hlen) as (_ & _ & _ & _ & Hann & _).
    cbv zeta in Hann. rewrite fold_annotateAt in Hann.
    split; [exact Hr2|]. split; [exact Hcalls|].
    split; [reflexivity|]. split; [reflexivity|]. split; [exact Hsame|].
    split; [exact Hne|].
    destruct Hr1 as ((_ & Hl & _) & [response Hresp] & Hfits).
    exists response. cbn [cachedMatch set_heap].
    split; [by rewrite Hsame|]. split.
    + rewrite Hann, Hcopy, Hresp. done.
    + unfold fits in *. rewrite <- Hl, Hresp, normalizeMatches_length in Hfits. done.
Qed.

Lemma annotate_fields favs m :
  Title (annotate favs m) = Title m /\ Competition (annotate favs m) = Competition m
  /\ DateRaw (annotate favs m) = DateRaw m /\ Category (annotate favs m) = Category m
  /\ Videos (annotate favs m) = Videos m
  /\ IsFavorite (annotate favs m) = mapIndex favs (Title m).
Proof. done. Qed.

Lemma StronglySorted_map {A} (R : relation A) (f : A -> A) l :
  (forall x y, R x y -> R (f x) (f y)) ->
  StronglySorted R l -> StronglySorted R (map f l).
Proof.
  intros Hf. induction 1 as [|x l Hl IH Hx]; cbn; constructor; [done|].
  apply Forall_map. eapply Forall_impl; [exact Hx|]. intros y. apply Hf.
Qed.

(** The records that the handlers work on: in descending order of dates and
    with the flags of the favourite set. *)
Lemma served_properties {U : strings.Unicode} fmt favs response :
  let served := map (annotate favs) (normalizeMatches fmt response) in
  StronglySorted byDateDesc served
  /\ Forall (fun m => IsFavorite m = mapIndex favs (Title m)) served
  /\ length served = length response.
Proof.
  cbv zeta. split; [|split].
  - apply StronglySorted_map; [by intros a b|].
    apply Sorted_StronglySorted; [apply _|apply Sorted_normalizeMatches].
  - apply Forall_map, Forall_forall. by intros m _.
  - by rewrite length_map, normalizeMatches_length.
Qed.

(** *** The cache stays as the refresh left it *)

Lemma pristine_ready {U : strings.Unicode} fmt w : pristine fmt w -> ready fmt w.
Proof.
  intros (Hw & (response & _ & Hresp) & Hfits).
  split; [done|]. split; [by exists response|done].
Qed.

Lemma envDecoded_envFits env : envDecoded env -> envFits env.
Proof. unfold envDecoded, envFits. destruct (upstream env); tauto. Qed.

Lemma pristine_initWorld {U : strings.Unicode} fmt : pristine fmt initWorld.
Proof.
  split; [apply wf_initWorld|]. split.
  - exists []. by split.
  - unfold fits, pageSize, Int.max_int. cbn. lia.
Qed.

(** A record of an intact cache carries no favourite flag and no embed. *)
Lemma cacheIntact_untouched {U : strings.Unicode} fmt w m :
  cacheIntact fmt w -> m ∈ read (heap w) (cachedMatch w) ->
  IsFavorite m = false /\ EmbedHTML m = "".
Proof.
  intros (response & Hdec & ->) (m0 & Hm0 & ->)%elem_of_normalizeMatches.
  destruct (proj1 (Forall_forall _ _) Hdec m0 Hm0) as (_ & He & Hf & _).
  destruct (normalizeMatch_fields fmt m0) as (_ & _ & _ & _ & _ & _ & -> & -> & _).
  by split.
Qed.

Lemma pristine_same_cache {U : strings.Unicode} fmt w w' :
  ready fmt w' -> cacheIntact fmt w ->
  read (heap w') (cachedMatch w') = read (heap w) (cachedMatch w) ->
  pristine fmt w'.
Proof.
  intros (Hw & _ & Hfits) (response & Hdec & Hresp) E.
  split; [done|]. split; [|done]. exists response. split; [done|congruence].
Qed.

Lemma pristine_fetchMatches {U : strings.Unicode} fmt env w :
  pristine fmt w -> envDecoded env -> pristine fmt (fetchMatches fmt env w).2.
Proof.
  intros Hp Henv.
  pose proof (ready_fetchMatches fmt env w (pristine_ready _ _ Hp)
                (envDecoded_envFits _ Henv)) as Hr1.
  destruct Hp as (Hw & Hint & Hfits).
  destruct (fetchMatches fmt env w) as [[err|s] w1] eqn:E; cbn [snd] in *.
  - apply (pristine_same_cache fmt w); [done..|].
    destruct (isFresh (nowCheck env) w) eqn:Ef.
    + rewrite (fetchMatches_hit _ _ _ Ef) in E. discriminate.
    + rewrite (fetchMatches_miss _ _ _ Ef) in E.
      destruct (upstream env) as [msg|msg|response].
      * cbn in E. by injection E as _ <-.
      * cbn in E. by injection E as _ <-.
      * rewrite refresh_Decoded in E. discriminate E.
  - destruct (fetchMatches_copy fmt env w s w1 Hw E) as (_ & _ & _ & _ & Hhit & Hmiss).
    destruct (isFresh (nowCheck env) w) eqn:Ef.
    + destruct (Hhit eq_refl) as (_ & _ & E3).
      by apply (pristine_same_cache fmt w).
    + rewrite (fetchMatches_miss _ _ _ Ef) in E.
      unfold envDecoded in Henv.
      destruct (upstream env) as [msg|msg|response] eqn:Eu; [discriminate E..|].
      destruct Hr1 as (Hw1 & _ & Hfits1), Henv as [_ Hdec].
      split; [done|]. split; [|done]. exists response. split; [done|].
      by apply Hmiss.
Qed.

Lemma load_pristine {U : strings.Unicode} fmt cookie env w res w' :
  pristine fmt w -> envDecoded env ->
  loadMatchesWithFavorites fmt cookie env w = (res, w') ->
  pristine fmt w'
  /\ (upstreamCalls w <= upstreamCalls w' <= S (upstreamCalls w))%nat
  /\ match res with
     | inl _ => True
     | inr s =>
         ptr s <> ptr (cachedMatch w')
         /\ exists response,
              read (heap w') s
              = map (annotate (getFavorites cookie)) (normalizeMatches fmt response)
              /\ fits (length response)
     end.
Proof.
  intros Hp Henv Hload.
  pose proof (pristine_fetchMatches fmt env w Hp Henv) as (_ & Hint & _).
  destruct (load_served fmt cookie env w _ w' (pristine_ready _ _ Hp)
              (envDecoded_envFits _ Henv) Hload)
    as (Hr' & Hcalls & _ & _ & Hread & Hres).
  split; [by apply (pristine_same_cache fmt (fetchMatches fmt env w).2)|].
  split; [done|].
  destruct res as [err|s]; [done|].
  destruct Hres as (Hne & response & _ & Hs & Hfits).
  split; [done|]. by exists response.
Qed.

(** X7. From a world with an intact cache and a provider that answers with
    decoded records, a successful [loadMatchesWithFavorites] returns an
    array of its own: one that was not allocated before the call and is not
    the array of the cache.  It holds the records of the cache, in descending
    order of their raw dates, each flagged as favourite exactly when its
    title is in the Favorite Set of the request.  The cache is as
    [fetchMatches] left it, on a hit as it was before the call: the flags go
    into the copy, and the cached records carry no flag and no embed.  At
    most one upstream call was made, none on a hit. *)
Theorem served_records_are_normalised {U : strings.Unicode} fmt cookie env w s w' :
  pristine fmt w -> envDecoded env ->
  loadMatchesWithFavorites fmt cookie env w = (inr s, w') ->
  let w1 := (fetchMatches fmt env w).2 in
  heap w !! ptr s = None
  /\ ptr s <> ptr (cachedMatch w')
  /\ cachedMatch w' = cachedMatch w1 /\ cachedAt w' = cachedAt w1
  /\ read (heap w') (cachedMatch w') = read (heap w1) (cachedMatch w1)
  /\ (isFresh (nowCheck env) w = true ->
      cachedMatch w' = cachedMatch w /\ cachedAt w' = cachedAt w
      /\ read (heap w') (cachedMatch w') = read (heap w) (cachedMatch w)
      /\ upstreamCalls w' = upstreamCalls w)
  /\ (exists response,
        Forall decoded response
        /\ read (heap w') (cachedMatch w') = normalizeMatches fmt response
        /\ read (heap w') s
           = map (annotate (getFavorites cookie)) (normalizeMatches fmt response))
  /\ StronglySorted byDateDesc (read (heap w') s)
  /\ Forall (fun m => IsFavorite m = mapIndex (getFavorites cookie) (Title m))
            (read (heap w') s)
  /\ Forall (fun m => IsFavorite m = false /\ EmbedHTML m = "")
            (read (heap w') (cachedMatch w'))
  /\ pristine fmt w'
  /\ (upstreamCalls w <= upstreamCalls w' <= S (upstreamCalls w))%nat.
Proof.
  intros Hp Henv Hload. cbv zeta.
  pose proof (pristine_fetchMatches fmt env w Hp Henv) as Hp1.
  destruct (load_served fmt cookie env w _ w' (pristine_ready _ _ Hp)
              (envDecoded_envFits _ Henv) Hload)
    as (Hr' & Hcalls & Hcm & Hat & Hread & Hne & _).
  assert (Hp' : pristine fmt w').
  { apply (pristine_same_cache fmt (fetchMatches fmt env w).2); [done|apply Hp1|done]. }
  unfold loadMatchesWithFavorites in Hload.
  destruct (fetchMatches fmt env w) as [[err|s0] w1] eqn:Ef; [discriminate Hload|].
  injection Hload as -> Hw'. cbn [snd] in *.
  destruct Hp as (Hw & _ & _).
  destruct (fetchMatches_copy fmt env w s w1 Hw Ef) as (Hfresh & _ & Hlen & Hcopy & Hhit & _).
  destruct (annotate_frame (getFavorites cookie) s w1 Hlen) as (_ & _ & _ & Hc & Hann & _).
  cbv zeta in Hc, Hann. rewrite Hw' in Hc, Hann.
  destruct Hp' as (Hw2 & Hint & Hfits2).
  pose proof Hint as (response & Hdec & Hresp).
  assert (Hs : read (heap w') s
               = map (annotate (getFavorites cookie)) (normalizeMatches fmt response)).
  { by rewrite Hann, Hcopy, <- Hread, Hresp. }
  destruct (served_properties fmt (getFavorites cookie) response) as (H1 & H2 & _).
  cbv zeta in H1, H2.
  split; [done|]. split; [done|]. split; [done|]. split; [done|]. split; [done|].
  split.
  { intros Efresh. destruct (Hhit Efresh) as (E1 & E2 & E3).
    split; [congruence|]. split; [congruence|]. split; [congruence|].
    rewrite Hc. rewrite (fetchMatches_hit _ _ _ Efresh) in Ef.
    destruct (cloneMatches_calls (cachedMatch w) w) as (_ & _ & Ecalls & _).
    injection Ef as _ <-. exact Ecalls. }
  split; [by exists response|].
  rewrite Hs. split; [done|]. split; [done|]. split.
  { apply Forall_forall. intros m Hm. by apply (cacheIntact_untouched fmt w'). }
  split; [|done]. split; [done|]. by split.
Qed.

Lemma served_records_are_normalised_witness :
  let stored := [sampleMatch "A - B" "ENGLAND: Cup" "2024-01-01";
                 sampleMatch "C - D" "SPAIN: Liga" "2024-01-03"] in
  let r := loadMatchesWithFavorites noFormat (Some "C - D")
             (mkEnv 0 (Decoded stored) 5) initWorld in
  exists s, r.1 = inr s
    /\ StronglySorted byDateDesc (read (heap r.2) s)
    /\ map Title (read (heap r.2) s) = ["C - D"; "A - B"]
    /\ map IsFavorite (read (heap r.2) s) = [true; false]
    /\ map IsFavorite (read (heap r.2) (cachedMatch r.2)) = [false; false]
    /\ ptr s = 2%nat /\ ptr (cachedMatch r.2) = 1%nat.
Proof.
  cbv zeta.
  destruct (loadMatchesWithFavorites noFormat (Some "C - D")
              (mkEnv 0 (Decoded [sampleMatch "A - B" "ENGLAND: Cup" "2024-01-01";
                                 sampleMatch "C - D" "SPAIN: Liga" "2024-01-03"]) 5)
              initWorld) as [[err|s] w'] eqn:E; [discriminate E|].
  exists s. split; [reflexivity|]. cbn [snd].
  split.
  - refine (proj1 (proj2 (proj2 (proj2 (proj2 (proj2 (proj2 (proj2
              (served_records_are_normalised noFormat _ _ _ s w'
                 (pristine_initWorld noFormat) _ E))))))))).
    unfold envDecoded. cbn [upstream]. split.
    + unfold fits, pageSize, Int.max_int. cbn. lia.
    + by repeat constructor.
  - vm_compute in E. injection E as <- <-. by repeat split.
Defined.

(** ** The handlers *)

Lemma fits_le n k : (k <= n)%nat -> fits n -> fits k.
Proof. unfold fits. lia. Qed.

(** X8. [HomeHandler] answers with the server error when the records cannot
    be loaded, and otherwise renders the first six of the served records, all
    of them when there are fewer: no record that is left out has a later raw
    date than a record that is shown. *)
Theorem home_shows_the_latest_six {U : strings.Unicode} fmt r env w resp w' :
  ready fmt w -> envFits env ->
  HomeHandler fmt r env w = (resp, w') ->
  ready fmt w'
  /\ ((resp = ServerError /\ exists err, (fetchMatches fmt env w).1 = inl err)
      \/ exists d response,
           let served := map (annotate (getFavorites (favCookie r)))
                             (normalizeMatches fmt response) in
           resp = Render "home.html" (ListData d)
           /\ read (heap w') (cachedMatch w') = normalizeMatches fmt response
           /\ listPageData.Matches d = take 6 served
           /\ length (listPageData.Matches d) = Nat.min 6 (length response)
           /\ forall shown left,
                shown ∈ listPageData.Matches d -> left ∈ drop 6 served ->
                String.ltb (DateRaw shown) (DateRaw left) = false).
Proof.
  intros Hr Henv. unfold HomeHandler.
  destruct (loadMatchesWithFavorites fmt (favCookie r) env w) as [[err|s] w1] eqn:El;
    intros [= <- <-];
    destruct (load_served fmt _ env w _ _ Hr Henv El) as (Hr1 & _ & _ & _ & _ & Hres).
  - split; [done|]. left. split; [done|]. by exists err.
  - split; [done|]. right. destruct Hres as (_ & response & Hcache & Hs & _).
    destruct (served_properties fmt (getFavorites (favCookie r)) response)
      as (Hsorted & _ & Hlen).
    cbv zeta in *. rewrite Hs.
    set (served := map (annotate (getFavorites (favCookie r))) (normalizeMatches fmt response)) in *.
    eexists _, response. split; [reflexivity|]. cbn [listPageData.Matches].
    assert (Etake : (if (6 <? length served)%nat then take 6 served else served)
                    = take 6 served).
    { destruct (Nat.ltb_spec 6 (length served)); [done|]. by rewrite take_ge. }
    rewrite Etake. split; [done|]. split; [done|].
    split; [rewrite length_take; lia|].
    intros shown left Hshown Hleft.
    rewrite <- (take_drop 6 served) in Hsorted.
    pose proof (StronglySorted_app_1_elem_of _ _ _ _ _ Hsorted Hshown Hleft) as Hab.
    unfold byDateDesc, String.le, String.leb in Hab. unfold String.ltb.
    rewrite String.compare_antisym.
    destruct (String.compare (DateRaw left) (DateRaw shown)); cbn in *; done.
Qed.

Lemma home_shows_the_latest_six_witness :
  let stored := map (fun d => sampleMatch d "" d) ["1"; "7"; "3"; "5"; "2"; "6"; "4"] in
  exists d w',
    HomeHandler noFormat (mkRequest (fun _ => "") None) (mkEnv 0 (Decoded stored) 5) initWorld
    = (Render "home.html" (ListData d), w')
    /\ map Title (listPageData.Matches d) = ["7"; "6"; "5"; "4"; "3"; "2"].
Proof.
  cbv zeta.
  destruct (HomeHandler noFormat (mkRequest (fun _ => "") None)
              (mkEnv 0 (Decoded (map (fun d => sampleMatch d "" d)
                                     ["1"; "7"; "3"; "5"; "2"; "6"; "4"])) 5) initWorld)
    as [resp w'] eqn:E.
  assert (Henv : envFits (mkEnv 0 (Decoded (map (fun d => sampleMatch d "" d)
                                     ["1"; "7"; "3"; "5"; "2"; "6"; "4"])) 5))
    by (vm_compute; congruence).
  destruct (home_shows_the_latest_six noFormat _ _ _ resp w' (ready_initWorld noFormat)
              Henv E)
    as [_ [[-> _]|(d & response & -> & _ & Hm & _)]].
  - vm_compute in E. discriminate E.
  - exists d, w'. split; [reflexivity|].
    vm_compute in E. injection E as <- <-. reflexivity.
Defined.

(** X9. [CollectionHandler] never panics.  It answers with the server error
    when the records cannot be loaded, and otherwise renders one page of at
    most nine of the records that [filterMatches] keeps of the served
    records for the trimmed text and category, with the page count of the
    filtered list.  The current page that it reports is the page number of
    the request, not the page that is shown: beyond the last page it reports
    the requested number together with the records of the last page and no
    next page. *)
Theorem collection_serves_a_filtered_page {U : strings.Unicode} fmt r env w resp w' :
  ready fmt w -> envFits env ->
  CollectionHandler fmt r env w = (resp, w') ->
  ready fmt w' /\ resp <> Panic
  /\ ((resp = ServerError /\ exists err, (fetchMatches fmt env w).1 = inl err)
      \/ exists d response,
           let query := TrimSpace (param r "q") in
           let category := TrimSpace (param r "category") in
           let filtered :=
             filterMatches
               (map (annotate (getFavorites (favCookie r)))
                    (normalizeMatches fmt response))
               query category in
           let shownPage :=
             effectivePage (listPageData.CurrentPage d) (listPageData.TotalPages d) in
           resp = Render "collection.html" (ListData d)
           /\ read (heap w') (cachedMatch w') = normalizeMatches fmt response
           /\ listPageData.Query d = query
           /\ listPageData.Category d = category
           /\ listPageData.CategoryName d = categoryLabel category
           /\ listPageData.CurrentPage d = parsePage (param r "page")
           /\ listPageData.TotalPages d
              = Z.max 1 (ceilDiv (Z.of_nat (length filtered)) 9)
           /\ listPageData.Matches d
              = take 9 (drop (Z.to_nat ((shownPage - 1) * 9)) filtered)
           /\ listPageData.PrevPage d = (if shownPage =? 1 then 0 else shownPage - 1)
           /\ listPageData.NextPage d
              = (if shownPage =? listPageData.TotalPages d then 0 else shownPage + 1)
           /\ (listPageData.TotalPages d < parsePage (param r "page") ->
               listPageData.TotalPages d < listPageData.CurrentPage d
               /\ shownPage = listPageData.TotalPages d
               /\ listPageData.NextPage d = 0)).
Proof.
  intros Hr Henv. unfold CollectionHandler.
  destruct (loadMatchesWithFavorites fmt (favCookie r) env w) as [[err|s] w1] eqn:El.
  - intros [= <- <-].
    destruct (load_served fmt _ env w _ _ Hr Henv El) as (Hr1 & _ & _ & _ & _ & Hres).
    split; [done|]. split; [done|]. left. split; [done|]. by exists err.
  - destruct (load_served fmt _ env w _ _ Hr Henv El)
      as (Hr1 & _ & _ & _ & _ & _ & response & Hcache & Hs & Hfits).
    destruct (served_properties fmt (getFavorites (favCookie r)) response)
      as (_ & _ & Hlen).
    cbv zeta in Hlen. rewrite Hs.
    set (served := map (annotate (getFavorites (favCookie r))) (normalizeMatches fmt response)) in *.
    set (filtered := filterMatches served (TrimSpace (param r "q"))
                                   (TrimSpace (param r "category"))).
    assert (Hff : fits (length filtered)).
    { apply (fits_le (length response)); [|done]. rewrite <- Hlen.
      apply sublist_length, filterMatches_sublist. }
    rewrite paginate_pageSize by done.
    intros [= <- <-]. split; [done|]. split; [done|]. right.
    eexists _, response. cbv zeta. split; [reflexivity|].
    cbn [listPageData.Matches listPageData.Query listPageData.Category
         listPageData.CategoryName listPageData.CurrentPage listPageData.TotalPages
         listPageData.PrevPage listPageData.NextPage].
    fold served. fold filtered.
    do 9 (split; [done|]).
    set (T := Z.max 1 (ceilDiv (Z.of_nat (length filtered)) 9)).
    intros Hbeyond. split; [done|].
    assert (E : effectivePage (parsePage (param r "page")) T = T)
      by (unfold effectivePage, T in *; lia).
    split; [done|]. rewrite E. by rewrite Z.eqb_refl.
Qed.

Lemma collection_serves_a_filtered_page_witness :
  let stored := [sampleMatch "Arsenal - Chelsea" "ENGLAND: Premier League" "2024-01-02";
                 sampleMatch "Real - Barca" "SPAIN: La Liga" "2024-01-03"] in
  let request := mkRequest (fun k => if String.eqb k "page" then "99"
                                     else if String.eqb k "q" then " real " else "") None in
  exists d w',
    CollectionHandler noFormat request (mkEnv 0 (Decoded stored) 5) initWorld
    = (Render "collection.html" (ListData d), w')
    /\ listPageData.CurrentPage d = 99 /\ listPageData.TotalPages d = 1
    /\ listPageData.NextPage d = 0
    /\ map Title (listPageData.Matches d) = ["Real - Barca"].
Proof.
  cbv zeta.
  destruct (CollectionHandler noFormat
              (mkRequest (fun k => if String.eqb k "page" then "99"
                                   else if String.eqb k "q" then " real " else "") None)
              (mkEnv 0 (Decoded [sampleMatch "Arsenal - Chelsea" "ENGLAND: Premier League" "2024-01-02";
                                 sampleMatch "Real - Barca" "SPAIN: La Liga" "2024-01-03"]) 5)
              initWorld) as [resp w'] eqn:E.
  assert (Henv : envFits (mkEnv 0 (Decoded [sampleMatch "Arsenal - Chelsea" "ENGLAND: Premier League" "2024-01-02";
                                 sampleMatch "Real - Barca" "SPAIN: La Liga" "2024-01-03"]) 5))
    by (vm_compute; congruence).
  destruct (collection_serves_a_filtered_page noFormat _ _ _ resp w' (ready_initWorld noFormat)
              Henv E)
    as (_ & _ & [[-> _]|(d & response & Hd)]).
  - vm_compute in E. discriminate E.
  - cbv zeta in Hd. destruct Hd as (-> & _). exists d, w'. split; [reflexivity|].
    vm_compute in E. injection E as <- <-. repeat split.
Defined.

Lemma CollectionHandler_depends {U : strings.Unicode} fmt r1 r2 env w :
  favCookie r1 = favCookie r2 ->
  TrimSpace (param r1 "q") = TrimSpace (param r2 "q") ->
  TrimSpace (param r1 "category") = TrimSpace (param r2 "category") ->
  parsePage (param r1 "page") = parsePage (param r2 "page") ->
  CollectionHandler fmt r1 env w = CollectionHandler fmt r2 env w.
Proof. intros Hc Hq Hcat Hp. unfold CollectionHandler. by rewrite Hc, Hq, Hcat, Hp. Qed.

Lemma setQuery_category c r :
  favCookie (setQuery [("category", c)] r) = favCookie r
  /\ param (setQuery [("category", c)] r) "q" = ""
  /\ param (setQuery [("category", c)] r) "category" = c
  /\ param (setQuery [("category", c)] r) "page" = "".
Proof. by repeat split. Qed.

Lemma setQuery_search q p r :
  favCookie (setQuery [("q", q); ("page", p)] r) = favCookie r
  /\ param (setQuery [("q", q); ("page", p)] r) "q" = q
  /\ param (setQuery [("q", q); ("page", p)] r) "category" = ""
  /\ param (setQuery [("q", q); ("page", p)] r) "page" = p.
Proof. by repeat split. Qed.

(** X10. The category and search shortcuts redirect to the collection when
    their trimmed parameter is empty, without loading anything.  Otherwise
    the category shortcut answers like the collection asked for the first
    page of that category without text filter, whatever text and page the
    request carries, and the search shortcut answers like the collection
    asked for that text and page without category filter.  The facts about
    the library that this rests on are that trimming a trimmed string
    changes nothing and that the empty string is trimmed. *)
Theorem shortcuts_forward_to_collection {U : strings.Unicode} fmt r env w :
  (forall s, TrimSpace (TrimSpace s) = TrimSpace s) -> TrimSpace "" = "" ->
  (TrimSpace (param r "category") = "" ->
   CategoryHandler fmt r env w = (SeeOther "/matches", w))
  /\ (TrimSpace (param r "q") = "" ->
      SearchResultsHandler fmt r env w = (SeeOther "/matches", w))
  /\ (forall r2,
        TrimSpace (param r "category") <> "" ->
        favCookie r2 = favCookie r ->
        TrimSpace (param r2 "category") = TrimSpace (param r "category") ->
        TrimSpace (param r2 "q") = "" ->
        parsePage (param r2 "page") = 1 ->
        CategoryHandler fmt r env w = CollectionHandler fmt r2 env w)
  /\ (forall r2,
        TrimSpace (param r "q") <> "" ->
        favCookie r2 = favCookie r ->
        TrimSpace (param r2 "q") = TrimSpace (param r "q") ->
        TrimSpace (param r2 "category") = "" ->
        parsePage (param r2 "page") = parsePage (param r "page") ->
        SearchResultsHandler fmt r env w = CollectionHandler fmt r2 env w).
Proof.
  intros Hidem Hnil.
  split; [|split; [|split]].
  - intros E. unfold CategoryHandler. by rewrite E.
  - intros E. unfold SearchResultsHandler. by rewrite E.
  - intros r2 Hne Hc Hcat Hq Hp. unfold CategoryHandler.
    rewrite (proj2 (String.eqb_neq _ _) Hne).
    destruct (setQuery_category (TrimSpace (param r "category")) r) as (E1 & E2 & E3 & E4).
    apply CollectionHandler_depends; rewrite ?E1, ?E2, ?E3, ?E4.
    + done.
    + by rewrite Hq.
    + by rewrite Hidem, Hcat.
    + by rewrite Hp.
  - intros r2 Hne Hc Hq Hcat Hp. unfold SearchResultsHandler.
    rewrite (proj2 (String.eqb_neq _ _) Hne).
    destruct (setQuery_search (TrimSpace (param r "q")) (param r "page") r)
      as (E1 & E2 & E3 & E4).
    apply CollectionHandler_depends; rewrite ?E1, ?E2, ?E3, ?E4.
    + done.
    + by rewrite Hidem, Hq.
    + by rewrite Hcat.
    + by rewrite Hp.
Qed.

Lemma shortcuts_forward_to_collection_witness :
  let request := mkRequest (fun k => if String.eqb k "category" then " spain "
                                     else if String.eqb k "q" then "real"
                                     else if String.eqb k "page" then "3" else "") None in
  let plain := mkRequest (fun k => if String.eqb k "category" then "spain" else "") None in
  let env := mkEnv 0 (Decoded [sampleMatch "Real - Barca" "SPAIN: La Liga" "2024-01-03"]) 5 in
  CategoryHandler noFormat request env initWorld
  = CollectionHandler noFormat plain env initWorld.
Proof.
  cbv zeta.
  refine (proj1 (proj2 (proj2 (shortcuts_forward_to_collection noFormat _ _ _
                                 TrimSpace_idem eq_refl))) _ _ _ _ _ _);
    [intros H; vm_compute in H; discriminate H|reflexivity..].
Defined.

(** X11. [FavoritesPageHandler] renders exactly the served records whose
    title is in the Favorite Set of the request, in the order of the cache
    and all flagged as favourites; without a favourites cookie the list is
    empty.  It answers with the server error when the records cannot be
    loaded. *)
Theorem favorites_page_lists_the_favourites {U : strings.Unicode} fmt r env w resp w' :
  ready fmt w -> envFits env ->
  FavoritesPageHandler fmt r env w = (resp, w') ->
  ready fmt w'
  /\ ((resp = ServerError /\ exists err, (fetchMatches fmt env w).1 = inl err)
      \/ exists d response,
           let favs := getFavorites (favCookie r) in
           let served := map (annotate favs) (normalizeMatches fmt response) in
           resp = Render "favorites.html" (ListData d)
           /\ read (heap w') (cachedMatch w') = normalizeMatches fmt response
           /\ listPageData.Matches d
              = List.filter (fun m => mapIndex favs (Title m)) served
           /\ sublist (listPageData.Matches d) served
           /\ Forall (fun m => IsFavorite m = true) (listPageData.Matches d)
           /\ (forall m, m ∈ listPageData.Matches d <->
                         m ∈ served /\ mapIndex favs (Title m) = true)
           /\ (favCookie r = None -> listPageData.Matches d = [])).
Proof.
  intros Hr Henv. unfold FavoritesPageHandler.
  destruct (loadMatchesWithFavorites fmt (favCookie r) env w) as [[err|s] w1] eqn:El;
    intros [= <- <-];
    destruct (load_served fmt _ env w _ _ Hr Henv El) as (Hr1 & _ & _ & _ & _ & Hres).
  - split; [done|]. left. split; [done|]. by exists err.
  - split; [done|]. right. destruct Hres as (_ & response & Hcache & Hs & _).
    destruct (served_properties fmt (getFavorites (favCookie r)) response)
      as (_ & Hflag & _).
    cbv zeta in *. rewrite Hs.
    set (favs := getFavorites (favCookie r)) in *.
    set (served := map (annotate favs) (normalizeMatches fmt response)) in *.
    eexists _, response. split; [reflexivity|]. cbn [listPageData.Matches].
    rewrite fold_append_filter. cbn [app].
    assert (Efilter : List.filter IsFavorite served
                      = List.filter (fun m => mapIndex favs (Title m)) served).
    { apply (filter_ext_Forall _ _ _ _ Hflag). by intros m ->. }
    rewrite Efilter. split; [done|]. split; [done|].
    split; [apply filter_sublist|]. split.
    + apply Forall_forall. intros m [Hm Hin]%list_elem_of_In%filter_In.
      apply list_elem_of_In in Hm.
      by rewrite (proj1 (Forall_forall _ _) Hflag m Hm).
    + split.
      * intros m. rewrite list_elem_of_In, filter_In, <- list_elem_of_In. done.
      * intros Hnone. subst favs served. rewrite Hnone. cbn [getFavorites].
        induction (map (annotate ∅) (normalizeMatches fmt response)) as [|m l IH];
          [done|]. cbn [List.filter]. unfold mapIndex at 1.
        by rewrite lookup_empty.
Qed.

Lemma favorites_page_lists_the_favourites_witness :
  let stored := [sampleMatch "A - B" "" "2024-01-01"; sampleMatch "C - D" "" "2024-01-03";
                 sampleMatch "E - F" "" "2024-01-02"] in
  exists d w',
    FavoritesPageHandler noFormat (mkRequest (fun _ => "") (Some "A - B|E - F|gone"))
                         (mkEnv 0 (Decoded stored) 5) initWorld
    = (Render "favorites.html" (ListData d), w')
    /\ map Title (listPageData.Matches d) = ["E - F"; "A - B"].
Proof.
  cbv zeta.
  destruct (FavoritesPageHandler noFormat (mkRequest (fun _ => "") (Some "A - B|E - F|gone"))
              (mkEnv 0 (Decoded [sampleMatch "A - B" "" "2024-01-01";
                                 sampleMatch "C - D" "" "2024-01-03";
                                 sampleMatch "E - F" "" "2024-01-02"]) 5) initWorld)
    as [resp w'] eqn:E.
  assert (Henv : envFits (mkEnv 0 (Decoded [sampleMatch "A - B" "" "2024-01-01";
                                 sampleMatch "C - D" "" "2024-01-03";
                                 sampleMatch "E - F" "" "2024-01-02"]) 5))
    by (vm_compute; congruence).
  destruct (favorites_page_lists_the_favourites noFormat _ _ _ resp w'
              (ready_initWorld noFormat) Henv E)
    as [_ [[-> _]|(d & response & Hd)]].
  - vm_compute in E. discriminate E.
  - cbv zeta in Hd. destruct Hd as (-> & _). exists d, w'. split; [reflexivity|].
    vm_compute in E. injection E as <- <-. reflexivity.
Defined.

(** ** The detail view *)

Example QueryUnescape_examples :
  url.QueryUnescape "Team+A%20vs%2BB" = Some "Team A vs+B"
  /\ url.QueryUnescape "100%" = None
  /\ url.QueryUnescape "%zz" = None
  /\ url.QueryUnescape "%4a%4A" = Some "JJ"
  /\ url.QueryUnescape "plain" = Some "plain".
Proof. repeat split. Qed.

Lemma QueryUnescape_other a rest :
  a <> "%"%char -> a <> "+"%char ->
  url.QueryUnescape (String a rest) = option_map (String a) (url.QueryUnescape rest).
Proof.
  intros H1 H2. destruct a as [[] [] [] [] [] [] [] []]; try reflexivity; congruence.
Qed.

Lemma QueryUnescape_plain s :
  Contains s "%" = false -> Contains s "+" = false -> url.QueryUnescape s = Some s.
Proof.
  induction s as [|a s IH]; [done|].
  rewrite !Contains_byte_cons. intros [H1 Hs1]%orb_false_iff [H2 Hs2]%orb_false_iff.
  rewrite QueryUnescape_other.
  - by rewrite IH.
  - intros ->. by rewrite Ascii.eqb_refl in H1.
  - intros ->. by rewrite Ascii.eqb_refl in H2.
Qed.








Lemma Join_cons_cons x y l sep :
  Join (x :: y :: l) sep = x +:+ sep +:+ Join (y :: l) sep.
Proof. reflexivity. Qed.







(** On a hit [fetchMatches] leaves the cache as it was. *)
Lemma fetchMatches_hit_cache {U : strings.Unicode} fmt env w :
  wf w -> isFresh (nowCheck env) w = true ->
  cachedMatch (fetchMatches fmt env w).2 = cachedMatch w
  /\ cachedAt (fetchMatches fmt env w).2 = cachedAt w
  /\ read (heap (fetchMatches fmt env w).2) (cachedMatch (fetchMatches fmt env w).2)
     = read (heap w) (cachedMatch w).
Proof.
  intros Hw Ef.
  destruct (fetchMatches fmt env w) as [[err|s] w1] eqn:E.
  - rewrite (fetchMatches_hit _ _ _ Ef) in E. discriminate E.
  - destruct (fetchMatches_copy fmt env w s w1 Hw E) as (_ & _ & _ & _ & Hhit & _).
    cbn [snd]. by apply Hhit.
Qed.

(** [DetailHandler] leaves the cache as [fetchMatches] left it. *)
Lemma DetailHandler_cache {U : strings.Unicode} fmt r env w :
  pristine fmt w -> envDecoded env ->
  let w' := (DetailHandler fmt r env w).2 in
  let w1 := (fetchMatches fmt env w).2 in
  param r "title" <> "" ->
  pristine fmt w'
  /\ cachedMatch w' = cachedMatch w1 /\ cachedAt w' = cachedAt w1
  /\ read (heap w') (cachedMatch w') = read (heap w1) (cachedMatch w1).
Proof.
  intros Hp Henv. cbv zeta. intros Hne. unfold DetailHandler.
  rewrite (proj2 (String.eqb_neq _ _) Hne).
  destruct (loadMatchesWithFavorites fmt (favCookie r) env w) as [[err|s] w2] eqn:El.
  - destruct (load_pristine fmt _ env w _ _ Hp Henv El) as (Hp2 & _).
    destruct (load_served fmt _ env w _ _ (pristine_ready _ _ Hp)
                (envDecoded_envFits _ Henv) El) as (_ & _ & E1 & E2 & E3 & _).
    by cbn [snd].
  - destruct (load_pristine fmt _ env w _ _ Hp Henv El) as (Hp2 & _ & Hptr & _).
    destruct (load_served fmt _ env w _ _ (pristine_ready _ _ Hp)
                (envDecoded_envFits _ Henv) El) as (_ & _ & E1 & E2 & E3 & _).
    destruct (findMatch _ _) as [[i m]|]; cbn [snd]; [|done].
    destruct (ready_write fmt (alter (set_EmbedHTML
                 match Videos m with v :: _ => Embed v | [] => noVideoHTML end) i)
                (ptr s) w2 Hptr (pristine_ready _ _ Hp2)) as [Hr Hsame].
    pose proof Hp2 as (_ & Hint & _).
    split; [by apply (pristine_same_cache fmt w2)|].
    cbn [set_heap cachedMatch cachedAt heap] in *.
    split; [done|]. split; [done|]. by rewrite Hsame.
Qed.

(** X12. [DetailHandler] refuses a request without title before it loads
    anything.  Otherwise it looks up the unescaped and trimmed title (the
    trimmed parameter itself when that holds no escape or cannot be
    unescaped): it answers 404 exactly when no served record answers the
    title, and else renders the first served record that does, with the
    embed of its first video or the placeholder when it has none.  The embed
    is written into the copy of the request: the cache is as [fetchMatches]
    left it, on a hit as it was before the request, and none of its records
    carries an embed or a favourite flag. *)
Theorem detail_renders_the_first_match {U : strings.Unicode} fmt r env w :
  (param r "title" = "" ->
   DetailHandler fmt r env w = (BadRequest "title manquant", w))
  /\ (forall raw, Contains raw "%" = false -> Contains raw "+" = false ->
                  detailTitle raw = TrimSpace raw)
  /\ (forall raw, url.QueryUnescape raw = None -> detailTitle raw = TrimSpace raw)
  /\ (forall resp w',
        param r "title" <> "" -> pristine fmt w -> envDecoded env ->
        DetailHandler fmt r env w = (resp, w') ->
        let key := detailTitle (param r "title") in
        let w1 := (fetchMatches fmt env w).2 in
        pristine fmt w'
        /\ cachedMatch w' = cachedMatch w1 /\ cachedAt w' = cachedAt w1
        /\ read (heap w') (cachedMatch w') = read (heap w1) (cachedMatch w1)
        /\ (isFresh (nowCheck env) w = true ->
            cachedMatch w' = cachedMatch w /\ cachedAt w' = cachedAt w
            /\ read (heap w') (cachedMatch w') = read (heap w) (cachedMatch w))
        /\ Forall (fun m => IsFavorite m = false /\ EmbedHTML m = "")
                  (read (heap w') (cachedMatch w'))
        /\ ((resp = ServerError /\ exists err, (fetchMatches fmt env w).1 = inl err)
            \/ exists response,
                 let served := map (annotate (getFavorites (favCookie r)))
                                   (normalizeMatches fmt response) in
                 Forall decoded response
                 /\ read (heap w') (cachedMatch w') = normalizeMatches fmt response
                 /\ ((resp = NotFound
                      /\ Forall (fun m => titleMatches key m = false) served)
                     \/ exists i m,
                          served !! i = Some m
                          /\ titleMatches key m = true
                          /\ (forall j mj, (j < i)%nat -> served !! j = Some mj ->
                                           titleMatches key mj = false)
                          /\ resp = Render "detail.html"
                                      (DetailData
                                         (set_EmbedHTML
                                            match Videos m with
                                            | v :: _ => Embed v
                                            | [] => noVideoHTML
                                            end m))))).
Proof.
  split; [|split; [|split]].
  - intros E. unfold DetailHandler. by rewrite E.
  - intros raw H1 H2. unfold detailTitle. by rewrite QueryUnescape_plain.
  - intros raw E. unfold detailTitle. by rewrite E.
  - intros resp w' Hne Hp Henv Hd. cbv zeta.
    destruct (DetailHandler_cache fmt r env w Hp Henv Hne) as (Hp' & E1 & E2 & E3).
    rewrite Hd in Hp', E1, E2, E3. cbn [snd] in Hp', E1, E2, E3.
    split; [done|]. split; [done|]. split; [done|]. split; [done|]. split.
    { intros Ef. pose proof Hp as (Hw & _).
      destruct (fetchMatches_hit_cache fmt env w Hw Ef) as (F1 & F2 & F3).
      split; [congruence|]. split; congruence. }
    split.
    { apply Forall_forall. intros m Hm. pose proof Hp' as (_ & Hint & _).
      by apply (cacheIntact_untouched fmt w'). }
    pose proof (pristine_ready _ _ Hp) as Hr.
    pose proof (envDecoded_envFits _ Henv) as Hfits.
    revert Hd. unfold DetailHandler.
    rewrite (proj2 (String.eqb_neq _ _) Hne).
    destruct (loadMatchesWithFavorites fmt (favCookie r) env w) as [[err|s] w2] eqn:El.
    + intros [= <- <-].
      destruct (load_served fmt _ env w _ _ Hr Hfits El) as (_ & _ & _ & _ & _ & Hres).
      left. split; [done|]. by exists err.
    + destruct (load_served fmt _ env w _ _ Hr Hfits El)
        as (_ & _ & _ & _ & Hread2 & _ & response0 & Hc0 & Hs0 & _).
      destruct (load_pristine fmt _ env w _ _ Hp Henv El) as ((_ & Hint2 & _) & _).
      destruct Hint2 as (response & Hdec & Hcache).
      assert (Hs : read (heap w2) s
                   = map (annotate (getFavorites (favCookie r)))
                         (normalizeMatches fmt response)).
      { rewrite Hs0. f_equal. congruence. }
      clear Hs0 Hc0. rewrite Hs. cbv zeta.
      set (served := map (annotate (getFavorites (favCookie r))) (normalizeMatches fmt response)).
      destruct (findMatch served (detailTitle (param r "title"))) as [[i m]|] eqn:Ef.
      * intros [= <- Hw']. right. exists response.
        split; [done|]. split; [by rewrite E3, <- Hread2|].
        right. exists i, m.
        apply findFrom_Some in Ef as (_ & Hi & Hm & Hbefore).
        rewrite Nat.sub_0_r in *. by repeat split.
      * intros [= <- <-]. right. exists response.
        split; [done|]. split; [done|]. left. split; [done|]. by apply findFrom_None in Ef.
Qed.

Lemma detail_renders_the_first_match_witness :
  let stored := [mkMatch "Team A vs Team B" "ENGLAND: Cup" "" "" "2024-01-03"
                         [mkVideo "Highlights" "<iframe></iframe>"] "" "" false ""] in
  let request := mkRequest (fun k => if String.eqb k "title" then "team a  vs team b" else "")
                           None in
  exists m w',
    DetailHandler noFormat request (mkEnv 0 (Decoded stored) 5) initWorld
    = (Render "detail.html" (DetailData m), w')
    /\ EmbedHTML m = "<iframe></iframe>" /\ Title m = "Team A vs Team B"
    /\ map EmbedHTML (read (heap w') (cachedMatch w')) = [""]
    /\ Forall (fun m => IsFavorite m = false /\ EmbedHTML m = "")
              (read (heap w') (cachedMatch w')).
Proof.
  cbv zeta.
  set (req := mkRequest _ _). set (env := mkEnv _ _ _).
  assert (Henv : envDecoded env) by (vm_compute; by repeat constructor).
  assert (Hne : param req "title" <> "") by (intros H; vm_compute in H; discriminate H).
  eexists _, _. split; [vm_compute; reflexivity|].
  split; [reflexivity|]. split; [reflexivity|]. split; [reflexivity|].
  refine (proj1 (proj2 (proj2 (proj2 (proj2 (proj2
            (proj2 (proj2 (proj2 (detail_renders_the_first_match noFormat req env initWorld)))
               _ _ Hne (pristine_initWorld noFormat) Henv _))))))).
  vm_compute. reflexivity.
Defined.

(** ** Favourites from one request to the next *)

Lemma toggle_keys favs t u :
  is_Some (toggle favs t !! u) -> u = t \/ is_Some (favs !! u).
Proof.
  unfold toggle. destruct (mapIndex favs t).
  - rewrite lookup_delete. case_decide; [by intros [? [=]]|auto].
  - rewrite lookup_insert. case_decide; [auto|auto].
Qed.

Lemma mapIndex_toggle_eq favs t :
  allTrue favs -> mapIndex (toggle favs t) t = negb (mapIndex favs t).
Proof.
  intros Hall. unfold toggle. destruct (mapIndex favs t) eqn:E; unfold mapIndex.
  - by rewrite lookup_delete_eq.
  - by rewrite lookup_insert_eq.
Qed.

Lemma sanitize_cookieSafe v : cookieSafe v = true -> sanitizeCookieValue v = v.
Proof.
  induction v as [|a v IH]; [done|]. cbn.
  intros [-> Hv]%andb_true_iff. by rewrite IH.
Qed.

Lemma cookieSafe_app x y : cookieSafe (x +:+ y) = cookieSafe x && cookieSafe y.
Proof.
  induction x as [|a x IH]; [done|].
  change (String a x +:+ y) with (String a (x +:+ y)).
  cbn [cookieSafe]. by rewrite IH, andb_assoc.
Qed.

Lemma cookieSafe_trimLeft s : cookieSafe s = true -> cookieSafe (trimLeft s) = true.
Proof.
  induction s as [|a s IH]; [done|]. cbn [trimLeft].
  destruct (isSpace a); [|done]. cbn. by intros [_ H]%andb_true_iff; apply IH.
Qed.

Lemma cookieSafe_trimRight s : cookieSafe s = true -> cookieSafe (trimRight s) = true.
Proof.
  induction s as [|a s IH]; [done|]. cbn [cookieSafe trimRight].
  intros [Ha Hs]%andb_true_iff. specialize (IH Hs).
  destruct (trimRight s) as [|b r].
  - destruct (isSpace a); [done|]. cbn. by rewrite Ha.
  - change (validCookieValueByte a && cookieSafe (String b r) = true).
    by rewrite Ha, IH.
Qed.

Lemma cookieSafe_TrimSpace s : cookieSafe s = true -> cookieSafe (TrimSpace s) = true.
Proof. intros H. by apply cookieSafe_trimRight, cookieSafe_trimLeft. Qed.

Lemma cookieSafe_SplitN n s sep seg :
  cookieSafe s = true -> seg ∈ SplitN s sep n -> cookieSafe seg = true.
Proof.
  revert s. induction n as [|n IH]; intros s Hs; [by intros ?%elem_of_nil|].
  cbn [SplitN]. destruct n as [|n'].
  { by intros ->%list_elem_of_singleton. }
  destruct (Cut s sep) as [[b r]|] eqn:E.
  - apply Cut_Some_inv in E as (-> & _ & _).
    rewrite cookieSafe_app in Hs. apply andb_true_iff in Hs as [Hb Hr].
    cbn [cookieSafe] in Hr. apply andb_true_iff in Hr as [_ Hr].
    intros [->|Hin]%elem_of_cons; [done|]. by apply (IH r).
  - by intros ->%list_elem_of_singleton.
Qed.

Lemma cookieSafe_Join titles :
  Forall (fun t => cookieSafe t = true) titles -> cookieSafe (Join titles "|") = true.
Proof.
  induction 1 as [|t titles Ht Hts IH]; [done|].
  destruct titles as [|u titles]; [done|].
  rewrite Join_cons_cons, !cookieSafe_app, Ht, IH. reflexivity.
Qed.

(** The titles of a set that is decoded from a safe cookie value are safe. *)
Lemma cookieSafe_getFavorites cookie t :
  (forall value, cookie = Some value -> cookieSafe value = true) ->
  is_Some (getFavorites cookie !! t) -> cookieSafe t = true.
Proof.
  intros Hsafe. destruct cookie as [value|]; cbn [getFavorites].
  - rewrite lookup_fold_addSegment, lookup_empty.
    intros [[? [=]]|(_ & seg & Hin & <-)].
    apply cookieSafe_TrimSpace.
    apply (cookieSafe_SplitN (S (String.length value)) value "|"%char); [by apply Hsafe|done].
  - rewrite lookup_empty. by intros [? [=]].
Qed.

Lemma cookieSafe_saveFavorites favs :
  (forall t, is_Some (favs !! t) -> cookieSafe t = true) ->
  cookieSafe (Value (saveFavorites favs)) = true.
Proof.
  intros Hsafe. cbn [saveFavorites favoritesCookie Value].
  apply cookieSafe_Join, Forall_forall. intros t Ht. apply Hsafe.
  by rewrite sortStrings_Permutation, elem_of_rangeKeys in Ht.
Qed.

(** X14. A toggle reaches the next request.  Let the request carry a cookie
    value that holds only bytes which are valid in a cookie value (as
    [r.Cookie] delivers it), and a title whose trimmed form is not empty,
    holds only such bytes and no bar.  Then the value of the cookie that
    [ToggleFavoriteHandler] hands to [http.SetCookie] is sent as it is, and
    the next request of a client that has stored the cookie decodes exactly
    the toggled Favorite Set: the title has changed sides, every other title
    is where it was, and toggling the same title on that request restores
    the first set.  (On such a title the byte-wise [TrimSpace] is the one of
    the library: the trimmed title starts and ends with an ASCII byte that
    is not white space.) *)
Theorem toggle_reaches_the_next_request titleParam redirectParam cookie :
  (forall value, cookie = Some value -> cookieSafe value = true) ->
  TrimSpace titleParam <> "" ->
  cookieSafe (TrimSpace titleParam) = true ->
  barFree (TrimSpace titleParam) ->
  exists location setCookie,
    let title := TrimSpace titleParam in
    let next := getFavorites (sentBack setCookie) in
    ToggleFavoriteHandler titleParam redirectParam cookie
    = ToggleSeeOther location setCookie
    /\ Name setCookie = "favorites" /\ Path setCookie = "/"
    /\ MaxAge setCookie = 2592000 /\ HttpOnly setCookie = true
    /\ sentBack setCookie = Some (Value setCookie)
    /\ next = toggle (getFavorites cookie) title
    /\ mapIndex next title = negb (mapIndex (getFavorites cookie) title)
    /\ (forall other, other <> title ->
                      mapIndex next other = mapIndex (getFavorites cookie) other)
    /\ exists location' setCookie',
         ToggleFavoriteHandler titleParam redirectParam (sentBack setCookie)
         = ToggleSeeOther location' setCookie'
         /\ sentBack setCookie' = Some (Value setCookie')
         /\ getFavorites (sentBack setCookie') = getFavorites cookie.
Proof.
  intros Hcookie Hne Hsafe Hbar.
  set (title := TrimSpace titleParam) in *.
  assert (Hclean : forall c, cleanTitles (getFavorites c))
    by (intros c; apply cleanTitles_getFavorites, TrimSpace_idem).
  assert (Hdec : forall c,
    getFavorites (Some (Value (saveFavorites (toggle (getFavorites c) title))))
    = toggle (getFavorites c) title).
  { intros c. apply decode_encode; [exact TrimSpace_idem|reflexivity| |].
    - apply cleanTitles_toggle; [apply Hclean|done|apply TrimSpace_idem].
    - intros u [->|Hu]%toggle_keys; [done|].
      by apply (getFavorites_barFree c u barFree_TrimSpace). }
  assert (Hsent : forall c,
    (forall value, c = Some value -> cookieSafe value = true) ->
    sentBack (saveFavorites (toggle (getFavorites c) title))
    = Some (Value (saveFavorites (toggle (getFavorites c) title)))).
  { intros c Hc. unfold sentBack. f_equal. apply sanitize_cookieSafe, cookieSafe_saveFavorites.
    intros u [->|Hu]%toggle_keys; [done|]. by apply (cookieSafe_getFavorites c). }
  assert (Hh : forall c, ToggleFavoriteHandler titleParam redirectParam c
                = ToggleSeeOther (if decide (redirectParam = "") then "/favorites"
                                  else redirectParam)
                                 (saveFavorites (toggle (getFavorites c) title))).
  { intros c. unfold ToggleFavoriteHandler. fold title. by rewrite decide_False. }
  eexists _, _. cbv zeta. split; [apply Hh|].
  do 4 (split; [reflexivity|]).
  rewrite (Hsent cookie Hcookie). split; [done|].
  rewrite Hdec. split; [done|]. split.
  { apply mapIndex_toggle_eq, cleanTitles_allTrue, Hclean. }
  split.
  { intros other Ho. by apply mapIndex_toggle_ne. }
  eexists _, _. split; [apply Hh|].
  assert (Hnext : forall value,
    Some (Value (saveFavorites (toggle (getFavorites cookie) title))) = Some value ->
    cookieSafe value = true).
  { intros value [= <-]. apply cookieSafe_saveFavorites.
    intros u [->|Hu]%toggle_keys; [done|]. by apply (cookieSafe_getFavorites cookie). }
  rewrite (Hsent _ Hnext). split; [done|].
  rewrite Hdec, Hdec.
  apply toggle_twice, cleanTitles_allTrue, Hclean.
Qed.

Lemma toggle_reaches_the_next_request_witness :
  exists location setCookie,
    ToggleFavoriteHandler " Real - Barca " "" (Some "Ajax - PSV")
    = ToggleSeeOther location setCookie
    /\ Value setCookie = "Ajax - PSV|Real - Barca"
    /\ sentBack setCookie = Some "Ajax - PSV|Real - Barca"
    /\ mapIndex (getFavorites (sentBack setCookie)) "Real - Barca" = true.
Proof.
  assert (Hcookie : forall value, Some "Ajax - PSV" = Some value -> cookieSafe value = true)
    by (by intros value [= <-]).
  assert (Hne : TrimSpace " Real - Barca " <> "")
    by (intros H; vm_compute in H; discriminate H).
  destruct (toggle_reaches_the_next_request " Real - Barca " "" (Some "Ajax - PSV")
              Hcookie Hne eq_refl eq_refl)
    as (location & setCookie & Hh & _ & _ & _ & _ & Hsent & _ & Hflip & _).
  cbv zeta in *. exists location, setCookie. split; [exact Hh|].
  assert (Hv : Value setCookie = "Ajax - PSV|Real - Barca").
  { vm_compute in Hh. by injection Hh as _ <-. }
  split; [exact Hv|]. split; [by rewrite Hsent, Hv|exact Hflip].
Defined.



(** ** Any sequence of requests *)

Lemma HomeHandler_safe {U : strings.Unicode} fmt r env w :
  pristine fmt w -> envDecoded env ->
  pristine fmt (HomeHandler fmt r env w).2
  /\ (HomeHandler fmt r env w).1 <> Panic
  /\ (upstreamCalls w <= upstreamCalls (HomeHandler fmt r env w).2
      <= S (upstreamCalls w))%nat.
Proof.
  intros Hp Henv. unfold HomeHandler.
  destruct (loadMatchesWithFavorites fmt (favCookie r) env w) as [[err|s] w1] eqn:El;
    destruct (load_pristine fmt _ env w _ _ Hp Henv El) as (Hp1 & Hcalls & _);
    cbn [fst snd]; (split; [exact Hp1|]); (split; [done|exact Hcalls]).
Qed.

Lemma CollectionHandler_safe {U : strings.Unicode} fmt r env w :
  pristine fmt w -> envDecoded env ->
  pristine fmt (CollectionHandler fmt r env w).2
  /\ (CollectionHandler fmt r env w).1 <> Panic
  /\ (upstreamCalls w <= upstreamCalls (CollectionHandler fmt r env w).2
      <= S (upstreamCalls w))%nat.
Proof.
  intros Hp Henv. unfold CollectionHandler.
  destruct (loadMatchesWithFavorites fmt (favCookie r) env w) as [[err|s] w1] eqn:El.
  - destruct (load_pristine fmt _ env w _ _ Hp Henv El) as (Hp1 & Hcalls & _).
    cbn [fst snd]. split; [exact Hp1|]. split; [done|exact Hcalls].
  - destruct (load_pristine fmt _ env w _ _ Hp Henv El)
      as (Hp1 & Hcalls & _ & response & Hs & Hfits).
    rewrite Hs. rewrite paginate_pageSize.
    + cbn [fst snd]. split; [exact Hp1|]. split; [done|exact Hcalls].
    + apply (fits_le (length response)); [|done].
      etrans; [apply sublist_length, filterMatches_sublist|].
      by rewrite length_map, normalizeMatches_length.
Qed.

Lemma FavoritesPageHandler_safe {U : strings.Unicode} fmt r env w :
  pristine fmt w -> envDecoded env ->
  pristine fmt (FavoritesPageHandler fmt r env w).2
  /\ (FavoritesPageHandler fmt r env w).1 <> Panic
  /\ (upstreamCalls w <= upstreamCalls (FavoritesPageHandler fmt r env w).2
      <= S (upstreamCalls w))%nat.
Proof.
  intros Hp Henv. unfold FavoritesPageHandler.
  destruct (loadMatchesWithFavorites fmt (favCookie r) env w) as [[err|s] w1] eqn:El;
    destruct (load_pristine fmt _ env w _ _ Hp Henv El) as (Hp1 & Hcalls & _);
    cbn [fst snd]; (split; [exact Hp1|]); (split; [done|exact Hcalls]).
Qed.

Lemma DetailHandler_safe {U : strings.Unicode} fmt r env w :
  pristine fmt w -> envDecoded env ->
  pristine fmt (DetailHandler fmt r env w).2
  /\ (DetailHandler fmt r env w).1 <> Panic
  /\ (upstreamCalls w <= upstreamCalls (DetailHandler fmt r env w).2
      <= S (upstreamCalls w))%nat.
Proof.
  intros Hp Henv. unfold DetailHandler.
  destruct (String.eqb (param r "title") "");
    [cbn [fst snd]; (split; [exact Hp|]); (split; [done|lia])|].
  destruct (loadMatchesWithFavorites fmt (favCookie r) env w) as [[err|s] w1] eqn:El.
  - destruct (load_pristine fmt _ env w _ _ Hp Henv El) as (Hp1 & Hcalls & _).
    cbn [fst snd]. split; [exact Hp1|]. split; [done|exact Hcalls].
  - destruct (load_pristine fmt _ env w _ _ Hp Henv El) as (Hp1 & Hcalls & Hne & _).
    destruct (findMatch _ _) as [[i m]|]; cbn [fst snd].
    + split; [|split; [done|exact Hcalls]].
      pose proof Hp1 as (_ & Hint & _).
      destruct (ready_write fmt (alter (set_EmbedHTML
                   match Videos m with v :: _ => Embed v | [] => noVideoHTML end) i)
                  (ptr s) w1 Hne (pristine_ready _ _ Hp1)) as [Hr Hsame].
      by apply (pristine_same_cache fmt w1).
    + split; [exact Hp1|]. split; [done|exact Hcalls].
Qed.

Lemma serve_safe {U : strings.Unicode} fmt c w :
  pristine fmt w -> envDecoded (callEnv c) ->
  pristine fmt (serve fmt c w).2
  /\ (serve fmt c w).1 <> Panic
  /\ (upstreamCalls w <= upstreamCalls (serve fmt c w).2 <= S (upstreamCalls w))%nat.
Proof.
  intros Hp Henv. destruct c as [r env|r env|r env|r env|r env|r env]; cbn [serve callEnv] in *.
  - by apply HomeHandler_safe.
  - by apply CollectionHandler_safe.
  - unfold CategoryHandler. destruct (String.eqb _ "").
    + cbn [fst snd]. split; [exact Hp|]. split; [done|lia].
    + by apply CollectionHandler_safe.
  - unfold SearchResultsHandler. destruct (String.eqb _ "").
    + cbn [fst snd]. split; [exact Hp|]. split; [done|lia].
    + by apply CollectionHandler_safe.
  - by apply FavoritesPageHandler_safe.
  - by apply DetailHandler_safe.
Qed.

Lemma serveAll_pristine {U : strings.Unicode} fmt calls : forall w,
  pristine fmt w -> Forall (fun c => envDecoded (callEnv c)) calls ->
  pristine fmt (serveAll fmt calls w).2.
Proof.
  induction calls as [|c calls IH]; intros w Hp Hall; [done|].
  apply Forall_cons in Hall as [Hc Hall].
  destruct (serve_safe fmt c w Hp Hc) as (Hp1 & _).
  cbn [serveAll]. destruct (serve fmt c w) as [resp w1]. cbn [snd] in Hp1.
  specialize (IH w1 Hp1 Hall).
  by destruct (serveAll fmt calls w1) as [resps w2].
Qed.

Lemma serveAll_snoc {U : strings.Unicode} fmt calls c : forall w,
  serveAll fmt (calls ++ [c]) w
  = ((serveAll fmt calls w).1 ++ [(serve fmt c (serveAll fmt calls w).2).1],
     (serve fmt c (serveAll fmt calls w).2).2).
Proof.
  induction calls as [|c0 calls IH]; intros w; cbn [serveAll app fst snd].
  - by destruct (serve fmt c w).
  - destruct (serve fmt c0 w) as [resp w1]. rewrite IH.
    by destruct (serveAll fmt calls w1).
Qed.

(** X16. Whatever requests the list, category, search, favourites and detail
    handlers serve one after the other from the start of the process, with
    a provider that answers with decoded records, fewer than [paginate] can
    count: every request of the sequence is answered without a panic, makes
    at most one upstream call, and finds and leaves the cache intact, that is
    holding what [normalizeMatches] made of decoded records, with no
    favourite flag and no embed in it. *)
Theorem no_sequence_of_requests_panics {U : strings.Unicode} fmt calls n c :
  Forall (fun c => envDecoded (callEnv c)) calls ->
  calls !! n = Some c ->
  let before := (serveAll fmt (take n calls) initWorld).2 in
  let after := (serve fmt c before).2 in
  serveAll fmt (take (S n) calls) initWorld
  = ((serveAll fmt (take n calls) initWorld).1 ++ [(serve fmt c before).1], after)
  /\ (serve fmt c before).1 <> Panic
  /\ (upstreamCalls before <= upstreamCalls after <= S (upstreamCalls before))%nat
  /\ pristine fmt before /\ pristine fmt after
  /\ Forall (fun m => IsFavorite m = false /\ EmbedHTML m = "")
            (read (heap after) (cachedMatch after)).
Proof.
  intros Hall Hn. cbv zeta.
  assert (Hbefore : pristine fmt (serveAll fmt (take n calls) initWorld).2).
  { apply serveAll_pristine; [apply pristine_initWorld|]. by apply Forall_take. }
  assert (Hc : envDecoded (callEnv c)).
  { apply (proj1 (Forall_forall _ _) Hall). by apply list_elem_of_lookup_2 in Hn. }
  destruct (serve_safe fmt c _ Hbefore Hc) as (Hafter & Hnp & Hcalls).
  split.
  { rewrite (take_S_r _ _ _ Hn). apply serveAll_snoc. }
  split; [done|]. split; [done|]. split; [done|]. split; [done|].
  apply Forall_forall. intros m Hm.
  destruct Hafter as (_ & Hint & _). by apply (cacheIntact_untouched fmt _ m Hint).
Qed.

Lemma no_sequence_of_requests_panics_witness :
  let stored := [sampleMatch "Arsenal - Chelsea" "ENGLAND: Premier League" "2024-01-02";
                 sampleMatch "Real - Barca" "SPAIN: La Liga" "2024-01-03"] in
  let plain := mkRequest (fun _ => "") None in
  let titled := mkRequest (fun k => if String.eqb k "title" then "real - barca" else "")
                          (Some "Real - Barca") in
  let calls := [CallCollection plain (mkEnv 0 (Decoded stored) 5);
                CallDetail titled (mkEnv 10 (GetError "unreachable") 15);
                CallSearch plain (mkEnv 20 (GetError "unreachable") 25);
                CallHome plain (mkEnv (cacheTTL + 6) (GetError "unreachable")
                                      (cacheTTL + 7))] in
  exists resps w m,
    serveAll noFormat (take 2 calls) initWorld = (resps, w)
    /\ nth 1 resps Panic = Render "detail.html" (DetailData m)
    /\ IsFavorite m = true /\ EmbedHTML m = noVideoHTML
    /\ upstreamCalls w = 1%nat
    /\ Forall (fun m => IsFavorite m = false /\ EmbedHTML m = "")
              (read (heap w) (cachedMatch w)).
Proof.
  cbv zeta.
  set (calls := [_; _; _; _]).
  assert (Hall : Forall (fun c => envDecoded (callEnv c)) calls).
  { repeat constructor. vm_compute. congruence. }
  destruct (no_sequence_of_requests_panics noFormat calls 1 _ Hall eq_refl)
    as (Hstep & _ & _ & _ & _ & Hcache).
  cbv zeta in Hstep, Hcache.
  eexists _, _, _. split; [exact Hstep|].
  split; [vm_compute; reflexivity|]. split; [reflexivity|]. split; [reflexivity|].
  split; [vm_compute; reflexivity|]. exact Hcache.
Defined.
